(** * go-eml: the MIME body decomposer, the message assembler and the
      address-list splitter

    A shallow embedding of [multipart.go] and [message.go] (package [eml]).

    - Go strings and byte slices are both byte sequences; they are modelled
      by [string] (a sequence of 8-bit [ascii]), and the conversions
      [string(b)] and [[]byte(s)] are the identity.
    - [map[string][]string] is a [gmap string (list string)].
    - A Go [error] is an [option error]; [None] is [nil].
    - A run-time panic (an index out of range) is an explicit outcome.
    - The Go standard library and the files of the package that are not part
      of this development are interfaces ([GoStd], [Collaborators]); the
      theorems hold for every implementation of them, and [golib] and
      [refcollab] are reference implementations used to run the code on
      concrete messages. *)

From stdpp Require Import gmap strings list fin_maps pretty.
From Stdlib Require Import Ascii.

Open Scope string_scope.
Open Scope list_scope.

(** * Part I: the embedding *)

(** ** Errors and panics *)

(** [io_EOF] is the sentinel [io.EOF], which the code compares by identity;
    every other error carries the text that its [Error()] method returns. *)
Inductive error : Type :=
| io_EOF
| errors_New (msg : string).

Definition Error (e : error) : string :=
  match e with
  | io_EOF => "EOF"
  | errors_New msg => msg
  end.

#[global] Instance error_eq_dec : EqDecision error.
Proof. solve_decision. Defined.

(** [fmt.Errorf(pre + "%v" + post, e)]. *)
Definition fmt_Errorf (pre : string) (e : error) (post : string) : error :=
  errors_New (pre +:+ Error e +:+ post).

(** The result of a function that may panic. *)
Inductive outcome (A : Type) : Type :=
| Returned (a : A)
| Panic (msg : string).
Arguments Returned {A} a.
Arguments Panic {A} msg.

#[global] Instance outcome_ret : MRet outcome := λ A a, Returned a.
#[global] Instance outcome_bind : MBind outcome := λ A B k m,
  match m with
  | Returned a => k a
  | Panic msg => Panic msg
  end.

#[global] Instance outcome_fmap : FMap outcome := λ A B f m,
  match m with
  | Returned a => Returned (f a)
  | Panic msg => Panic msg
  end.

#[global] Instance outcome_eq_dec `{EqDecision A} : EqDecision (outcome A).
Proof. solve_decision. Defined.

(** [l[0]]: the run-time checks the index. *)
Definition index0 {A} (l : list A) : outcome A :=
  match l with
  | x :: _ => Returned x
  | [] => Panic "runtime error: index out of range [0] with length 0"
  end.

(** ** Byte-level functions of packages [strings] and [bytes] *)

(** [strings.HasPrefix(s, p)]. *)
Definition strings_HasPrefix (s p : string) : bool := String.prefix p s.

(** [strings.Contains(s, sub)] and [bytes.Contains]. *)
Fixpoint strings_Contains (s sub : string) : bool :=
  String.prefix sub s ||
  match s with
  | EmptyString => false
  | String _ s' => strings_Contains s' sub
  end.

Fixpoint string_drop (n : nat) (s : string) : string :=
  match n, s with
  | S n', String _ s' => string_drop n' s'
  | _, _ => s
  end.

(** [strings.Split(s, sep)] for a separator of one byte. *)
Fixpoint split_byte (sep : ascii) (s : string) (cur : string) : list string :=
  match s with
  | EmptyString => [cur]
  | String c s' =>
      if Ascii.eqb c sep then cur :: split_byte sep s' ""
      else split_byte sep s' (cur +:+ String c "")
  end.

Definition strings_Split1 (s : string) (sep : ascii) : list string :=
  split_byte sep s "".

Definition in_cutset (cutset : string) (c : ascii) : bool :=
  strings_Contains cutset (String c "").

Fixpoint trimLeft (cutset s : string) : string :=
  match s with
  | String c s' => if in_cutset cutset c then trimLeft cutset s' else s
  | EmptyString => s
  end.

Fixpoint trimRight (cutset s : string) : string :=
  match s with
  | EmptyString => ""
  | String c s' =>
      match trimRight cutset s' with
      | EmptyString => if in_cutset cutset c then "" else String c ""
      | r => String c r
      end
  end.

(** [strings.Trim(s, cutset)] and [bytes.Trim], for a cutset of ASCII bytes. *)
Definition strings_Trim (s cutset : string) : string :=
  trimLeft cutset (trimRight cutset s).

Fixpoint bytes_HasSuffix (s suffix : string) : bool :=
  String.eqb s suffix ||
  match s with
  | EmptyString => false
  | String _ s' => bytes_HasSuffix s' suffix
  end.

(** [bytes.TrimSuffix(s, suffix)]. *)
Fixpoint bytes_TrimSuffix (s suffix : string) : string :=
  if String.eqb s suffix then ""
  else match s with
       | EmptyString => ""
       | String c s' =>
           if bytes_HasSuffix s' suffix then String c (bytes_TrimSuffix s' suffix) else s
       end.

(** [bytes.Replace(s, old, nil, 1)]: the first occurrence of [old] is cut
    out; an empty [old] matches at the start and nothing changes. *)
Fixpoint bytes_Replace1 (s old : string) : string :=
  if String.prefix old s then string_drop (String.length old) s
  else match s with
       | EmptyString => ""
       | String c s' => String c (bytes_Replace1 s' old)
       end.

(** ** Data model *)

(** [textproto.MIMEHeader], [mail.Header] and [map[string][]string]. *)
Abbreviation Header := (gmap string (list string)).

Inductive result (A : Type) : Type :=
| Ok (a : A)
| Err (e : error).
Arguments Ok {A} a.
Arguments Err {A} e.

#[global] Instance result_eq_dec `{EqDecision A} : EqDecision (result A).
Proof. solve_decision. Defined.

(** [type Part struct] of multipart.go. *)
Module Part.
Record t : Type := mk {
  Type_ : string;
  Charset : string;
  Data : string;
  Headers : Header;
}.
Definition withData (d : string) (p : t) : t :=
  mk (Type_ p) (Charset p) d (Headers p).
#[global] Instance eq_dec : EqDecision t.
Proof. solve_decision. Defined.
End Part.
Abbreviation Part := Part.t.

(** [type Attachment struct] of message.go. *)
Module Attachment.
Record t : Type := mk {
  Filename : string;
  Data : string;
}.
End Attachment.
Abbreviation Attachment := Attachment.t.

Definition CRLF : string := String "013" (String "010" "").

(** ** The Go standard library, as far as the package calls it

    - [multipart_NewReader body boundary] is the whole run of a
      [multipart.Reader] over [body]: the parts that successive [NextPart]
      calls return, each with its header and the bytes [io.ReadAll] gets
      from it (the read error is dropped by the caller), and the error of
      the [NextPart] call that ends the run. A part is a slice of the body
      behind its boundary line, so it is shorter than the body.
    - [base64_DecodeString] returns the bytes decoded before an error
      together with the error, as [DecodeString] does.
    - [quotedprintable_ReadAll] is [io.ReadAll] of a quoted-printable
      reader with the error dropped.
    - [regexp_FindStringSubmatch pat s] is
      [regexp.MustCompile(pat).FindStringSubmatch(s)]. *)
Class GoStd : Type := {
  strings_ToLower : string → string;
  strings_Fields : string → list string;
  strings_TrimSpace : string → string;
  mime_ParseMediaType : string → result (string * gmap string string);
  mail_ReadMessage : string → result (Header * string);
  multipart_NewReader : string → string → list (Header * string) * error;
  multipart_shrinks : ∀ body boundary h data,
    (h, data) ∈ (multipart_NewReader body boundary).1 →
    String.length data < String.length body;
  base64_DecodeString : string → string * option error;
  quotedprintable_ReadAll : string → string;
  regexp_FindStringSubmatch : string → string → list string;
}.

(** ** multipart.go *)

Section Decomposer.
Context `{!GoStd}.

(** Lines 51-59: the headers of the message read from the body are copied
    into a fresh map, then those of [ph] are written over it. *)
Definition copyInto (src dst : Header) : Header :=
  map_fold (λ k v headers, <[k := v]> headers) dst src.

Definition mergeHeaders (mHeader ph : Header) : Header :=
  copyInto ph (copyInto mHeader ∅).

(** Lines 87-92: the part emitted for a segment whose own decomposition
    failed. *)
Definition fallbackCharset (ctv : string) : string :=
  let contenttype := regexp_FindStringSubmatch "(?is)charset=(.*)" ctv in
  match contenttype with
  | _ :: c :: _ => c
  | _ => "UTF-8"
  end.

Definition fallbackPart (ctv data : string) (h : Header) : Part :=
  Part.mk ctv (fallbackCharset ctv) data h.

(** Lines 72-97, the loop over the parts of the reader; [rec] is the
    recursive call of line 82. A part is skipped when
    [len(p.Header.Values("Content-Type")) == 0], so that
    [p.Header["Content-Type"][0]] is its first value otherwise. *)
Fixpoint nextParts (rec : string → string → Header → list Part * option error)
    (segs : list (Header * string)) (parts : list Part) : list Part :=
  match segs with
  | [] => parts
  | (h, data) :: segs' =>
      match h !! "Content-Type" with
      | None | Some [] => nextParts rec segs' parts
      | Some (ctv :: _) =>
          match rec ctv data h with
          | (subparts, None) => nextParts rec segs' (parts ++ subparts)
          | (_, Some _) => nextParts rec segs' (parts ++ [fallbackPart ctv data h])
          end
      end
  end.

(** Lines 99-103. *)
Definition endOfParts (err : error) : option error :=
  if decide (err = io_EOF) then None
  else if String.eqb (Error err) "multipart: NextPart: EOF" then None
  else Some err.

(** [parseBody], lines 28-106. The recursion of line 82 is on the bytes of
    a part of the body; [fuel] bounds its depth, and [parseBody] below
    gives it more than any body needs ([parseBody_rec_fuel]). *)
Fixpoint parseBody_rec (fuel : nat) (ct body : string) (ph : Header)
    : list Part * option error :=
  match fuel with
  | 0 => ([], None)
  | S fuel' =>
      match mime_ParseMediaType ct with
      | Err e => ([], Some e)
      | Ok (mt, ps) =>
          match ps !! "boundary" with
          | None =>
              if strings_HasPrefix mt "multipart"
              then ([], Some (errors_New "multipart specified without boundary"))
              else
                match mail_ReadMessage (CRLF +:+ body) with
                | Err e => ([], Some e)
                | Ok (mHeader, _) =>
                    ([Part.mk mt (default "" (ps !! "charset")) body
                        (mergeHeaders mHeader ph)], None)
                end
          | Some boundary =>
              let '(segs, err) := multipart_NewReader body boundary in
              (nextParts (parseBody_rec fuel') segs [], endOfParts err)
          end
      end
  end.

Definition parseBody (ct body : string) (ph : Header) : list Part * option error :=
  parseBody_rec (S (String.length body)) ct body ph.

End Decomposer.

(** ** The rest of the package

    The files of the package that hold the lexer, the mailbox parser, the
    encoded-word and charset decoders, the date parser and the raw splitter
    are taken through their signatures. A function whose results are both
    used by the caller returns a pair; one whose value is only used when the
    error is [nil] returns a [result]. *)

(** Modelled from the spec: the raw splitter returns the ordered raw header
    fields (name, raw value) and the body block; the code reads them as
    [r.RawHeaders], [rh.Key], [rh.Value] and [r.Body]. *)
Record RawHeader : Type := mkRawHeader {
  Key : string;
  Value : string;
}.

#[global] Instance RawHeader_eq_dec : EqDecision RawHeader.
Proof. solve_decision. Defined.

Module RawMessage.
Record t : Type := mk {
  RawHeaders : list RawHeader;
  Body : string;
}.
#[global] Instance eq_dec : EqDecision t.
Proof. solve_decision. Defined.
End RawMessage.
Abbreviation RawMessage := RawMessage.t.

(** [type token []byte] of the lexer. *)
Abbreviation token := string.

Class Collaborators : Type := {
  (** the mailbox and group values behind the [Address] interface *)
  AddressVal : Type;
  (** [time.Time] and its zero value *)
  Time : Type;
  Time_zero : Time;
  tokenize : string → result (list token);
  parseAddress : list token → result (option AddressVal);
  ParseAddress : string → option AddressVal * option error;
  decodeRFC2047 : string → result string;
  Decode : string → string * option error;
  UTF8 : string → string → result string;
  ParseDate : string → Time;
  ParseRaw : string → result RawMessage;
}.

(** An [Address] is an interface value; [None] is [nil]. *)
Definition Address `{!Collaborators} : Type := option AddressVal.

(** [type Message struct] of message.go. *)
Module Message.
Section Fields.
Context `{!Collaborators}.

Record t : Type := mk {
  Headers : string;
  Body : string;
  ParsedHeaders : Header;
  MessageID : string;
  Date : Time;
  Sender : Address;
  From : list Address;
  ReplyTo : list Address;
  To : list Address;
  Cc : list Address;
  Bcc : list Address;
  Subject : string;
  ContentType : string;
  Comments : list string;
  Keywords : list string;
  InReply : list string;
  References : list string;
  Text : string;
  Html : string;
  Attachments : list Attachment;
  Parts : list Part;
}.

(** The zero value, which a named result holds before it is assigned. *)
Definition zero : t :=
  mk "" "" ∅ "" Time_zero None [] [] [] [] [] "" "" [] [] [] [] "" "" [] [].

Definition withHeaders (v : string) (m : t) : t :=
  mk v (Body m) (ParsedHeaders m) (MessageID m) (Date m) (Sender m) (From m) (ReplyTo m) (To
    m) (Cc m) (Bcc m) (Subject m) (ContentType m) (Comments m) (Keywords m) (InReply m)
    (References m) (Text m) (Html m) (Attachments m) (Parts m).
Definition withBody (v : string) (m : t) : t :=
  mk (Headers m) v (ParsedHeaders m) (MessageID m) (Date m) (Sender m) (From m) (ReplyTo m)
    (To m) (Cc m) (Bcc m) (Subject m) (ContentType m) (Comments m) (Keywords m) (InReply m)
    (References m) (Text m) (Html m) (Attachments m) (Parts m).
Definition withParsedHeaders (v : Header) (m : t) : t :=
  mk (Headers m) (Body m) v (MessageID m) (Date m) (Sender m) (From m) (ReplyTo m) (To m)
    (Cc m) (Bcc m) (Subject m) (ContentType m) (Comments m) (Keywords m) (InReply m)
    (References m) (Text m) (Html m) (Attachments m) (Parts m).
Definition withMessageID (v : string) (m : t) : t :=
  mk (Headers m) (Body m) (ParsedHeaders m) v (Date m) (Sender m) (From m) (ReplyTo m) (To
    m) (Cc m) (Bcc m) (Subject m) (ContentType m) (Comments m) (Keywords m) (InReply m)
    (References m) (Text m) (Html m) (Attachments m) (Parts m).
Definition withDate (v : Time) (m : t) : t :=
  mk (Headers m) (Body m) (ParsedHeaders m) (MessageID m) v (Sender m) (From m) (ReplyTo m)
    (To m) (Cc m) (Bcc m) (Subject m) (ContentType m) (Comments m) (Keywords m) (InReply m)
    (References m) (Text m) (Html m) (Attachments m) (Parts m).
Definition withSender (v : Address) (m : t) : t :=
  mk (Headers m) (Body m) (ParsedHeaders m) (MessageID m) (Date m) v (From m) (ReplyTo m)
    (To m) (Cc m) (Bcc m) (Subject m) (ContentType m) (Comments m) (Keywords m) (InReply m)
    (References m) (Text m) (Html m) (Attachments m) (Parts m).
Definition withFrom (v : list Address) (m : t) : t :=
  mk (Headers m) (Body m) (ParsedHeaders m) (MessageID m) (Date m) (Sender m) v (ReplyTo m)
    (To m) (Cc m) (Bcc m) (Subject m) (ContentType m) (Comments m) (Keywords m) (InReply m)
    (References m) (Text m) (Html m) (Attachments m) (Parts m).
Definition withReplyTo (v : list Address) (m : t) : t :=
  mk (Headers m) (Body m) (ParsedHeaders m) (MessageID m) (Date m) (Sender m) (From m) v (To
    m) (Cc m) (Bcc m) (Subject m) (ContentType m) (Comments m) (Keywords m) (InReply m)
    (References m) (Text m) (Html m) (Attachments m) (Parts m).
Definition withTo (v : list Address) (m : t) : t :=
  mk (Headers m) (Body m) (ParsedHeaders m) (MessageID m) (Date m) (Sender m) (From m)
    (ReplyTo m) v (Cc m) (Bcc m) (Subject m) (ContentType m) (Comments m) (Keywords m)
    (InReply m) (References m) (Text m) (Html m) (Attachments m) (Parts m).
Definition withCc (v : list Address) (m : t) : t :=
  mk (Headers m) (Body m) (ParsedHeaders m) (MessageID m) (Date m) (Sender m) (From m)
    (ReplyTo m) (To m) v (Bcc m) (Subject m) (ContentType m) (Comments m) (Keywords m)
    (InReply m) (References m) (Text m) (Html m) (Attachments m) (Parts m).
Definition withBcc (v : list Address) (m : t) : t :=
  mk (Headers m) (Body m) (ParsedHeaders m) (MessageID m) (Date m) (Sender m) (From m)
    (ReplyTo m) (To m) (Cc m) v (Subject m) (ContentType m) (Comments m) (Keywords m) (InReply
    m) (References m) (Text m) (Html m) (Attachments m) (Parts m).
Definition withSubject (v : string) (m : t) : t :=
  mk (Headers m) (Body m) (ParsedHeaders m) (MessageID m) (Date m) (Sender m) (From m)
    (ReplyTo m) (To m) (Cc m) (Bcc m) v (ContentType m) (Comments m) (Keywords m) (InReply m)
    (References m) (Text m) (Html m) (Attachments m) (Parts m).
Definition withContentType (v : string) (m : t) : t :=
  mk (Headers m) (Body m) (ParsedHeaders m) (MessageID m) (Date m) (Sender m) (From m)
    (ReplyTo m) (To m) (Cc m) (Bcc m) (Subject m) v (Comments m) (Keywords m) (InReply m)
    (References m) (Text m) (Html m) (Attachments m) (Parts m).
Definition withComments (v : list string) (m : t) : t :=
  mk (Headers m) (Body m) (ParsedHeaders m) (MessageID m) (Date m) (Sender m) (From m)
    (ReplyTo m) (To m) (Cc m) (Bcc m) (Subject m) (ContentType m) v (Keywords m) (InReply m)
    (References m) (Text m) (Html m) (Attachments m) (Parts m).
Definition withKeywords (v : list string) (m : t) : t :=
  mk (Headers m) (Body m) (ParsedHeaders m) (MessageID m) (Date m) (Sender m) (From m)
    (ReplyTo m) (To m) (Cc m) (Bcc m) (Subject m) (ContentType m) (Comments m) v (InReply m)
    (References m) (Text m) (Html m) (Attachments m) (Parts m).
Definition withInReply (v : list string) (m : t) : t :=
  mk (Headers m) (Body m) (ParsedHeaders m) (MessageID m) (Date m) (Sender m) (From m)
    (ReplyTo m) (To m) (Cc m) (Bcc m) (Subject m) (ContentType m) (Comments m) (Keywords m) v
    (References m) (Text m) (Html m) (Attachments m) (Parts m).
Definition withReferences (v : list string) (m : t) : t :=
  mk (Headers m) (Body m) (ParsedHeaders m) (MessageID m) (Date m) (Sender m) (From m)
    (ReplyTo m) (To m) (Cc m) (Bcc m) (Subject m) (ContentType m) (Comments m) (Keywords m)
    (InReply m) v (Text m) (Html m) (Attachments m) (Parts m).
Definition withText (v : string) (m : t) : t :=
  mk (Headers m) (Body m) (ParsedHeaders m) (MessageID m) (Date m) (Sender m) (From m)
    (ReplyTo m) (To m) (Cc m) (Bcc m) (Subject m) (ContentType m) (Comments m) (Keywords m)
    (InReply m) (References m) v (Html m) (Attachments m) (Parts m).
Definition withHtml (v : string) (m : t) : t :=
  mk (Headers m) (Body m) (ParsedHeaders m) (MessageID m) (Date m) (Sender m) (From m)
    (ReplyTo m) (To m) (Cc m) (Bcc m) (Subject m) (ContentType m) (Comments m) (Keywords m)
    (InReply m) (References m) (Text m) v (Attachments m) (Parts m).
Definition withAttachments (v : list Attachment) (m : t) : t :=
  mk (Headers m) (Body m) (ParsedHeaders m) (MessageID m) (Date m) (Sender m) (From m)
    (ReplyTo m) (To m) (Cc m) (Bcc m) (Subject m) (ContentType m) (Comments m) (Keywords m)
    (InReply m) (References m) (Text m) (Html m) v (Parts m).
Definition withParts (v : list Part) (m : t) : t :=
  mk (Headers m) (Body m) (ParsedHeaders m) (MessageID m) (Date m) (Sender m) (From m)
    (ReplyTo m) (To m) (Cc m) (Bcc m) (Subject m) (ContentType m) (Comments m) (Keywords m)
    (InReply m) (References m) (Text m) (Html m) (Attachments m) v.
End Fields.
End Message.
Abbreviation Message := Message.t.

(** ** message.go: the address list *)

Definition DQUOTE : string := String "034" "".

(** [ts[lo:hi]]. *)
Definition slice {A} (ts : list A) (lo hi : nat) : list A :=
  take (hi - lo) (drop lo ts).

(** The loop of [split], lines 284-289: [i] is the index of the head of
    [rest] in [ts]. *)
Fixpoint split_loop (ts rest : list token) (s : token) (i : nat)
    (r : list (list token)) (l : nat) : list (list token) * nat :=
  match rest with
  | [] => (r, l)
  | t :: rest' =>
      if String.eqb t s
      then split_loop ts rest' s (S i) (r ++ [slice ts l i]) (S i)
      else split_loop ts rest' s (S i) r l
  end.

Definition split (ts : list token) (s : token) : list (list token) :=
  let '(r, l) := split_loop ts ts s 0 [] 0 in
  if decide (l ≠ length ts) then r ++ [drop l ts] else r.

(** [fc] of lines 318-323: the bytes of the tokens of one piece. *)
Definition pieceBytes (t : list token) : string := String.concat "" t.

Definition hasAt (t : list token) : bool := strings_Contains (pieceBytes t) "@".

(** The loop of lines 316-335 from index [i] on; [n] is [len(stb)]. *)
Fixpoint accumulate (n i : nat) (stb : list (list token))
    (lsb : list token) (vsb : list (list token)) : list (list token) :=
  match stb with
  | [] => vsb
  | t :: stb' =>
      let lsb := lsb ++ t in
      let lsb := if negb (Nat.eqb i (n - 1)) && negb (hasAt t)
                 then lsb ++ [","] else lsb in
      if hasAt t || Nat.eqb i (n - 1)
      then accumulate n (S i) stb' [] (vsb ++ [lsb])
      else accumulate n (S i) stb' lsb vsb
  end.

Section AddressList.
Context `{!Collaborators}.

(** The loop of lines 337-343. *)
Fixpoint parseRuns (vsb : list (list token)) (al : list Address)
    : list Address * option error :=
  match vsb with
  | [] => (al, None)
  | ts :: vsb' =>
      match parseAddress ts with
      | Err e => (al, Some e)
      | Ok a => parseRuns vsb' (al ++ [a])
      end
  end.

Definition parseAddressList (s : string) : list Address * option error :=
  let s := match decodeRFC2047 s with Ok dd => dd | Err _ => s end in
  match tokenize s with
  | Err e => ([], Some e)
  | Ok ts =>
      let stb := split ts "," in
      let vsb := accumulate (length stb) 0 stb [] [] in
      parseRuns vsb []
  end.
End AddressList.

(** ** message.go: the assembler *)

Section Assembler.
Context `{!GoStd} `{!Collaborators}.

(** [decodeContentTransferEncoding], lines 246-273. [decoded] is the
    first result of [DecodeString], also when it fails: line 264 assigns
    both results before the test of line 265. *)
Definition decodeContentTransferEncoding (msgHeaders partHeaders : Header)
    (toDecode : string) : outcome (string * option error) :=
  encoding ←
    match partHeaders !! "Content-Transfer-Encoding" with
    | Some headerEncoding =>
        h ← index0 headerEncoding; mret (strings_ToLower h)
    | None =>
        match msgHeaders !! "Content-Transfer-Encoding" with
        | Some headerEncoding =>
            h ← index0 headerEncoding; mret (strings_ToLower h)
        | None => mret ""
        end
    end;
  let enc := strings_ToLower encoding in
  if String.eqb enc "base64" then
    let '(decoded, err) := base64_DecodeString toDecode in
    match err with
    | Some e =>
        mret (decoded, Some (fmt_Errorf "body parser: failed decode base64 [msg: " e "]"))
    | None => mret (decoded, None)
    end
  else if String.eqb enc "quoted-printable" then
    mret (quotedprintable_ReadAll toDecode, None)
  else mret (toDecode, None).

Definition appendErr (errors : list error) (e : option error) : list error :=
  match e with
  | Some e => errors ++ [e]
  | None => errors
  end.

(** One turn of the loop over the raw headers, lines 73-133. *)
Definition handleHeader (st : Message * list error) (rh : RawHeader)
    : Message * list error :=
  let '(msg, errors) := st in
  let ph := Message.ParsedHeaders msg in
  let msg := Message.withParsedHeaders
               (<[Key rh := default [] (ph !! Key rh) ++ [Value rh]]> ph) msg in
  let k := strings_ToLower (Key rh) in
  let '(msg, err) :=
    if String.eqb k "content-type" then
      (Message.withContentType (Value rh) msg, None)
    else if String.eqb k "message-id" then
      (Message.withMessageID (strings_Trim (Value rh) "<>") msg, None)
    else if String.eqb k "in-reply-to" then
      let ids := strings_Fields (Value rh) in
      (Message.withInReply
         (Message.InReply msg ++ map (λ id, strings_Trim id "<> ") ids) msg, None)
    else if String.eqb k "references" then
      let ids := strings_Fields (Value rh) in
      (Message.withReferences
         (Message.References msg ++ map (λ id, strings_Trim id "<> ") ids) msg, None)
    else if String.eqb k "date" then
      (Message.withDate (ParseDate (Value rh)) msg, None)
    else if String.eqb k "from" then
      let '(al, e) := parseAddressList (Value rh) in (Message.withFrom al msg, e)
    else if String.eqb k "sender" then
      let '(a, e) := ParseAddress (Value rh) in (Message.withSender a msg, e)
    else if String.eqb k "reply-to" then
      let '(al, e) := parseAddressList (Value rh) in (Message.withReplyTo al msg, e)
    else if String.eqb k "to" then
      let '(al, e) := parseAddressList (Value rh) in (Message.withTo al msg, e)
    else if String.eqb k "cc" then
      let '(al, e) := parseAddressList (Value rh) in (Message.withCc al msg, e)
    else if String.eqb k "bcc" then
      let '(al, e) := parseAddressList (Value rh) in (Message.withBcc al msg, e)
    else if String.eqb k "subject" then
      let '(subject, e) := Decode (Value rh) in (Message.withSubject subject msg, e)
    else if String.eqb k "comments" then
      (Message.withComments (Message.Comments msg ++ [Value rh]) msg, None)
    else if String.eqb k "keywords" then
      let ks := strings_Split1 (Value rh) "," in
      (Message.withKeywords (Message.Keywords msg ++ map strings_TrimSpace ks) msg, None)
    else (msg, None) in
  match err with
  | Some e => (msg, errors ++ [fmt_Errorf "header parser: " e ""])
  | None => (msg, errors)
  end.

(** Lines 135-138. *)
Definition defaultSender (msg : Message) : Message :=
  match Message.Sender msg, Message.From msg with
  | None, a :: _ => Message.withSender a msg
  | _, _ => msg
  end.

Definition handleHeaders (r : RawMessage) : Message * list error :=
  let '(msg, errors) := foldl handleHeader (Message.zero, []) (RawMessage.RawHeaders r) in
  (defaultSender msg, errors).

(** The state of the loop over the parts: the message, the errors and the
    slice [parts], whose element [k] the text cases update in place. *)
Definition partState : Type := Message * list error * list Part.

(** The two text cases, lines 154-166 and 169-181; [assign] is the field
    ([msg.Text] or [msg.Html]). [part] is the loop's copy of [parts[k]]:
    line 155 changes the copy, lines 165 and 180 the slice. *)
Definition handleText (assign : string → Message → Message) (k : nat) (part : Part)
    (st : partState) : outcome partState :=
  let '(msg, errors, parts) := st in
  '(partData, e) ← decodeContentTransferEncoding
                     (Message.ParsedHeaders msg) (Part.Headers part) (Part.Data part);
  let errors := appendErr errors e in
  match UTF8 (Part.Charset part) partData with
  | Err _ => mret (assign partData msg, errors, parts)
  | Ok data => mret (assign data msg, errors, alter (Part.withData data) k parts)
  end.

(** The default case, lines 185-207. *)
Definition handleOther (part : Part) (st : partState) : outcome partState :=
  let '(msg, errors, parts) := st in
  match Part.Headers part !! "Content-Disposition" with
  | None => mret st
  | Some cd =>
      cd0 ← index0 cd;
      if strings_Contains cd0 "attachment" then
        let filename :=
          regexp_FindStringSubmatch ("(?msi)name=" +:+ DQUOTE +:+ "(.*?)" +:+ DQUOTE) cd0 in
        match filename with
        | _ :: filename1 :: _ =>
            let '(dfilename, e) := Decode filename1 in
            let '(errors, filename1) :=
              match e with
              | Some e =>
                  (errors ++ [fmt_Errorf "body parser: failed decode filename of attachment [msg: " e "]"],
                   filename1)
              | None => (errors, dfilename)
              end in
            '(partData, e) ← decodeContentTransferEncoding
                               (Message.ParsedHeaders msg) (Part.Headers part) (Part.Data part);
            let errors := appendErr errors e in
            mret (Message.withAttachments
                    (Message.Attachments msg ++ [Attachment.mk filename1 partData]) msg,
                  errors, parts)
        | _ =>
            mret (msg,
                  errors ++ [errors_New "body parser: failed get filename from header Content-Disposition"],
                  parts)
        end
      else mret st
  end.

(** One turn of the loop of lines 152-209. *)
Definition handlePart (k : nat) (part : Part) (st : partState) : outcome partState :=
  if strings_Contains (Part.Type_ part) "text/plain" then
    handleText Message.withText k part st
  else if strings_Contains (Part.Type_ part) "text/html" then
    handleText Message.withHtml k part st
  else handleOther part st.

(** [for k, part := range parts], from index [k] on. *)
Fixpoint rangeParts (k : nat) (ps : list Part) (st : partState) : outcome partState :=
  match ps with
  | [] => mret st
  | part :: ps' => st' ← handlePart k part st; rangeParts (S k) ps' st'
  end.

(** [handleMessage], lines 69-219. *)
Definition handleMessage (r : RawMessage) : outcome (Message * list error) :=
  let '(msg, errors) := handleHeaders r in
  if negb (String.eqb (Message.ContentType msg) "") then
    let '(parts, e) := parseBody (Message.ContentType msg) (RawMessage.Body r) ∅ in
    match e with
    | Some e =>
        mret (Message.withText (RawMessage.Body r) msg,
              errors ++ [fmt_Errorf "body parser: " e ""])
    | None =>
        '(msg, errors, parts) ← rangeParts 0 parts (msg, errors, parts);
        let msg := Message.withParts parts msg in
        parts0 ← index0 parts;
        let msg := Message.withContentType (Part.Type_ parts0) msg in
        let msg := Message.withText (Part.Data parts0) msg in
        mret (msg, errors)
    end
  else mret (Message.withText (RawMessage.Body r) msg, errors).

(** [extractHeaders], lines 222-243. *)
Definition extractHeaders (body data : string) : string :=
  let headers := bytes_Replace1 data body in
  let LF := String "010" "" in
  let CR := String "013" "" in
  let trimOut := [LF +:+ CRLF; CRLF +:+ LF; CRLF; LF +:+ CR; LF; CR] in
  foldl bytes_TrimSuffix headers trimOut.

(** [Parse], lines 49-66. *)
Definition Parse (data : string) : outcome (Message * list error) :=
  match ParseRaw data with
  | Err err => mret (Message.zero, [fmt_Errorf "raw parsing: " err ""])
  | Ok raw =>
      '(msg, errors) ← handleMessage raw;
      let msg := Message.withBody (RawMessage.Body raw) msg in
      let msg := Message.withHeaders (extractHeaders (RawMessage.Body raw) data) msg in
      mret (msg, errors)
  end.

End Assembler.

(** * Part II: the words of the claims

    Definitions that the statements of the theorems use: what one part of a
    multipart body contributes, bodies nested to a given depth, the pieces
    and the runs of an address list, and the text field before the last
    lines of [handleMessage]. *)

Section Statements.
Context `{!GoStd} `{!Collaborators}.

(** What one part of the reader adds to [parts]. *)
Definition partsOf (rec : string → string → Header → list Part * option error)
    (seg : Header * string) : list Part :=
  match seg.1 !! "Content-Type" with
  | None | Some [] => []
  | Some (ctv :: _) =>
      match rec ctv seg.2 seg.1 with
      | (subparts, None) => subparts
      | (_, Some _) => [fallbackPart ctv seg.2 seg.1]
      end
  end.

(** [nested d ct body ph part]: under content type [ct], [body] is a
    chain of [d] multipart bodies of one part each, one inside the other,
    around a leaf that decomposes to [part]. *)
Inductive nested : nat → string → string → Header → Part → Prop :=
| nested_leaf ct body ph mt ps mHeader rest :
    mime_ParseMediaType ct = Ok (mt, ps) →
    ps !! "boundary" = None →
    strings_HasPrefix mt "multipart" = false →
    mail_ReadMessage (CRLF +:+ body) = Ok (mHeader, rest) →
    nested 0 ct body ph
      (Part.mk mt (default "" (ps !! "charset")) body (mergeHeaders mHeader ph))
| nested_wrap d ct body ph mt ps boundary h data err ctv vs part :
    mime_ParseMediaType ct = Ok (mt, ps) →
    ps !! "boundary" = Some boundary →
    multipart_NewReader body boundary = ([(h, data)], err) →
    endOfParts err = None →
    h !! "Content-Type" = Some (ctv :: vs) →
    nested d ctv data h part →
    nested (S d) ct body ph part.

(** The text field as the loop over the parts leaves it, before lines
    211-213. *)
Definition textAfterLoop (r : RawMessage) : outcome string :=
  let '(msg, errors) := handleHeaders r in
  let '(parts, _) := parseBody (Message.ContentType msg) (RawMessage.Body r) ∅ in
  '(msg', _, _) ← rangeParts 0 parts (msg, errors, parts);
  mret (Message.Text msg').

End Statements.

(** The runs as section 4.2 of the spec words them: the pieces between the
    commas are gathered into runs; a run is closed by a piece that holds an
    [@] or by the last piece, and inside a run the commas are put back
    between its pieces. *)
Definition noAt (t : list token) : Prop := hasAt t = false.

Fixpoint joinComma (pieces : list (list token)) : list token :=
  match pieces with
  | [] => []
  | [t] => t
  | t :: pieces' => t ++ "," :: joinComma pieces'
  end.

Inductive Runs : list (list token) → list (list token) → Prop :=
| runs_none : Runs [] []
| runs_final init t :
    Forall noAt init →
    Runs (init ++ [t]) [joinComma (init ++ [t])]
| runs_closed init t stb vsb :
    Forall noAt init → hasAt t = true → stb ≠ [] →
    Runs stb vsb →
    Runs (init ++ t :: stb) (joinComma (init ++ [t]) :: vsb).

(** The pieces of a token stream between the tokens [s], as a recursion on
    the stream: [cur] is the piece under way. The piece behind the last [s]
    is left out when it is empty. *)
Fixpoint pieces (s : token) (ts cur : list token) : list (list token) :=
  match ts with
  | [] => match cur with [] => [] | _ => [cur] end
  | t :: ts' =>
      if String.eqb t s then cur :: pieces s ts' [] else pieces s ts' (cur ++ [t])
  end.

(** The tokens of [lsb] while the pieces [init] wait for their run to be
    closed. *)
Definition pending (init : list (list token)) : list token :=
  flat_map (λ t, t ++ [","]) init.

(** ** The words of the further properties *)

(** The pieces put back together with the token [s] between them. *)
Fixpoint joinWith (s : token) (pieces : list (list token)) : list token :=
  match pieces with
  | [] => []
  | [t] => t
  | t :: pieces' => t ++ s :: joinWith s pieces'
  end.

(** A header mapping none of whose names has an empty list of values, as
    [net/textproto] and the loop over the raw headers build them. *)
Definition valued (h : Header) : Prop := map_Forall (λ _ vs, vs ≠ []) h.

(** [bytes.Index(s, sub)]: the position of the first occurrence of [sub]
    in [s]. *)
Fixpoint bytes_Index (s sub : string) : option nat :=
  if String.prefix sub s then Some 0
  else match s with
       | EmptyString => None
       | String _ s' => S <$> bytes_Index s' sub
       end.

(** CR and LF, and the byte strings made of them. *)
Definition isLineBreak (c : ascii) : bool :=
  Ascii.eqb c "013" || Ascii.eqb c "010".

Fixpoint lineBreaks (s : string) : bool :=
  match s with
  | EmptyString => true
  | String c s' => isLineBreak c && lineBreaks s'
  end.

(** The parts that the two text cases of the switch of [handleMessage]
    take, the parts that its text/html case takes, and the parts that its
    default case makes an attachment of when it finds a file name. *)
Definition isText (p : Part) : bool :=
  strings_Contains (Part.Type_ p) "text/plain" || strings_Contains (Part.Type_ p) "text/html".

Definition isHtml (p : Part) : bool :=
  negb (strings_Contains (Part.Type_ p) "text/plain")
  && strings_Contains (Part.Type_ p) "text/html".

Definition isAttachment (p : Part) : bool :=
  negb (isText p) &&
  match Part.Headers p !! "Content-Disposition" with
  | Some (cd0 :: _) => strings_Contains cd0 "attachment"
  | _ => false
  end.

Section MoreStatements.
Context `{!GoStd} `{!Collaborators}.

(** The type and the charset of a part are those of the first value of its
    own Content-Type header: the media type and the charset parameter that
    [mime.ParseMediaType] reads in it for a leaf, the value itself and the
    charset of the regular expression for a part emitted after a failure. *)
Definition typedByOwnHeader (p : Part) : Prop :=
  ∃ ctv vs,
    Part.Headers p !! "Content-Type" = Some (ctv :: vs)
    ∧ ((∃ ps, mime_ParseMediaType ctv = Ok (Part.Type_ p, ps)
              ∧ Part.Charset p = default "" (ps !! "charset"))
       ∨ (Part.Type_ p = ctv ∧ Part.Charset p = fallbackCharset ctv)).

(** The values of the raw headers whose name, in lower case, is [name],
    in the order of the message. *)
Definition valuesOf (name : string) (r : RawMessage) : list string :=
  map Value (filter (λ rh, strings_ToLower (Key rh) = name) (RawMessage.RawHeaders r)).

(** The text of a part: its data after the transfer decoding, in the
    charset-normalized form when the normalization succeeds. *)
Definition normalizedText (msgHeaders : Header) (part : Part) : outcome string :=
  '(partData, _) ← decodeContentTransferEncoding msgHeaders (Part.Headers part) (Part.Data part);
  mret (match UTF8 (Part.Charset part) partData with
        | Ok data => data
        | Err _ => partData
        end).

(** The body of [r] is decomposed into [parts] under the content type
    that the headers give. *)
Definition decomposed (r : RawMessage) (parts : list Part) : Prop :=
  Message.ContentType (handleHeaders r).1 ≠ ""
  ∧ parseBody (Message.ContentType (handleHeaders r).1) (RawMessage.Body r) ∅ = (parts, None).

End MoreStatements.

(** * Part III: reference implementations

    ** The library interface

    The functions below follow the Go sources of [strings], [mime],
    [net/textproto], [net/mail], [mime/multipart], [encoding/base64],
    [mime/quotedprintable] and [regexp] on a complete, in-memory input.
    They serve to run the package on concrete messages; the theorems
    stated for every library do not depend on them. They leave out:
    - Unicode: [strings.ToLower], [strings.Fields], [strings.TrimSpace] and
      the [%q] of error messages handle the ASCII range only;
    - RFC 2231: parameters of [mime.ParseMediaType] whose name holds a [*]
      are dropped, not joined;
    - the size limits of [net/textproto] and of [bufio];
    - the state of a [multipart.Reader] behind a quoted-printable part whose
      decoding stops at an invalid byte: the part is read up to its boundary
      all the same. *)

Module GoRef.

Definition code (c : ascii) : nat := nat_of_ascii c.

Definition between (lo hi : nat) (c : ascii) : bool :=
  (lo <=? code c)%nat && (code c <=? hi)%nat.

Fixpoint string_map (f : ascii → ascii) (s : string) : string :=
  match s with
  | EmptyString => ""
  | String c s' => String (f c) (string_map f s')
  end.

Definition lowerByte (c : ascii) : ascii :=
  if between 65 90 c then ascii_of_nat (code c + 32) else c.

Definition upperByte (c : ascii) : ascii :=
  if between 97 122 c then ascii_of_nat (code c - 32) else c.

Definition ToLower (s : string) : string := string_map lowerByte s.

(** '\t', '\n', '\v', '\f', '\r' and ' '. *)
Definition isSpace (c : ascii) : bool :=
  between 9 13 c || Ascii.eqb c " ".

Definition SPACES : string :=
  String "009" (String "010" (String "011" (String "012" (String "013" " ")))).

Definition TrimSpace (s : string) : string := strings_Trim s SPACES.

Fixpoint fields (s cur : string) : list string :=
  match s with
  | EmptyString => if String.eqb cur "" then [] else [cur]
  | String c s' =>
      if isSpace c
      then (if String.eqb cur "" then fields s' "" else cur :: fields s' "")
      else fields s' (cur +:+ String c "")
  end.

Definition Fields (s : string) : list string := fields s "".

(** [bufio.Reader.ReadSlice('\n')] on the rest of the input: the line with
    its delimiter and what follows it, or [None] with the unterminated
    rest when the input ends first. *)
Fixpoint readSlice (s : string) : string * option string :=
  match s with
  | EmptyString => ("", None)
  | String c s' =>
      if Ascii.eqb c "010" then (String c "", Some s')
      else let '(line, rest) := readSlice s' in (String c line, rest)
  end.

(** ** [mime.ParseMediaType] *)

Definition isTSpecial (c : ascii) : bool :=
  strings_Contains ("()<>@,;:\" +:+ DQUOTE +:+ "/[]?=") (String c "").

Definition isTokenChar (c : ascii) : bool :=
  between 33 126 c && negb (isTSpecial c).

Fixpoint consumeToken (v : string) : string * string :=
  match v with
  | EmptyString => ("", "")
  | String c v' =>
      if isTokenChar c
      then let '(tok, rest) := consumeToken v' in (String c tok, rest)
      else ("", v)
  end.

Fixpoint trimLeftSpace (v : string) : string :=
  match v with
  | String c v' => if isSpace c then trimLeftSpace v' else v
  | EmptyString => ""
  end.

(** The quoted-string loop of [consumeValue], behind the opening quote;
    [None] when the closing quote is missing or a line break is met. *)
Fixpoint consumeQuoted (v : string) (skipEscaped : bool) : option (string * string) :=
  match v with
  | EmptyString => None
  | String r v' =>
      if skipEscaped then
        '(value, rest) ← consumeQuoted v' false; Some (String r value, rest)
      else if Ascii.eqb r "034" then Some ("", v')
      else if Ascii.eqb r "\" &&
              match v' with String n _ => isTSpecial n | EmptyString => false end
      then consumeQuoted v' true
      else if Ascii.eqb r "013" || Ascii.eqb r "010" then None
      else '(value, rest) ← consumeQuoted v' false; Some (String r value, rest)
  end.

Definition consumeValue (v : string) : string * string :=
  match v with
  | EmptyString => ("", "")
  | String c v' =>
      if Ascii.eqb c "034"
      then match consumeQuoted v' false with
           | Some r => r
           | None => ("", v)
           end
      else consumeToken v
  end.

(** [consumeMediaParam]: [None] stands for the empty [param]. *)
Definition consumeMediaParam (v : string) : option (string * string * string) :=
  match trimLeftSpace v with
  | String ";" rest =>
      let '(param, rest) := consumeToken (trimLeftSpace rest) in
      if String.eqb param "" then None
      else
        match trimLeftSpace rest with
        | String "=" rest =>
            let rest := trimLeftSpace rest in
            let '(value, rest2) := consumeValue rest in
            if String.eqb value "" && String.eqb rest2 rest then None
            else Some (ToLower param, value, rest2)
        | _ => None
        end
  | _ => None
  end.

Definition checkMediaTypeDisposition (s : string) : option error :=
  let '(typ, rest) := consumeToken s in
  if String.eqb typ "" then Some (errors_New "mime: no media type")
  else if String.eqb rest "" then None
  else
    match rest with
    | String "/" rest' =>
        let '(subtype, rest) := consumeToken rest' in
        if String.eqb subtype "" then Some (errors_New "mime: expected token after slash")
        else if String.eqb rest "" then None
        else Some (errors_New "mime: unexpected content after media subtype")
    | _ => Some (errors_New "mime: expected slash after first token")
    end.

Fixpoint cutSemicolon (v : string) : string * string :=
  match v with
  | EmptyString => ("", "")
  | String c v' =>
      if Ascii.eqb c ";" then ("", v)
      else let '(base, rest) := cutSemicolon v' in (String c base, rest)
  end.

(** The parameter loop; every turn consumes at least the semicolon, so the
    length of the input bounds the number of turns. *)
Fixpoint mediaParams (turns : nat) (v : string) (params : gmap string string)
    : result (gmap string string) :=
  match turns with
  | 0 => Ok params
  | S turns' =>
      let v := trimLeftSpace v in
      if String.eqb v "" then Ok params
      else
        match consumeMediaParam v with
        | None =>
            if String.eqb (TrimSpace v) ";" then Ok params
            else Err (errors_New "mime: invalid media parameter")
        | Some (key, value, rest) =>
            if strings_Contains key "*" then mediaParams turns' rest params
            else
              match params !! key with
              | Some v' =>
                  if String.eqb v' value then mediaParams turns' rest params
                  else Err (errors_New "mime: duplicate parameter name")
              | None => mediaParams turns' rest (<[key := value]> params)
              end
        end
  end.

Definition ParseMediaType (v : string) : result (string * gmap string string) :=
  let '(base, rest) := cutSemicolon v in
  let mediatype := TrimSpace (ToLower base) in
  match checkMediaTypeDisposition mediatype with
  | Some e => Err e
  | None =>
      match mediaParams (S (String.length rest)) rest ∅ with
      | Ok params => Ok (mediatype, params)
      | Err e => Err e
      end
  end.

(** ** [net/textproto]: a header block *)

Definition TAB : string := String "009" "".
Definition LF : string := String "010" "".

Definition trimBlank (s : string) : string := strings_Trim s (" " +:+ TAB).

(** [Reader.ReadLine]: the next line without its end-of-line bytes, and
    the rest; [None] at the end of the input. *)
Definition readLine (s : string) : option (string * string) :=
  match readSlice s with
  | (line, Some rest) =>
      let line := bytes_TrimSuffix line LF in
      Some (bytes_TrimSuffix line (String "013" ""), rest)
  | (line, None) => if String.eqb line "" then None else Some (line, "")
  end.

Definition startsBlank (s : string) : bool :=
  match s with
  | String c _ => Ascii.eqb c " " || Ascii.eqb c "009"
  | EmptyString => false
  end.

(** The continuation lines of a header field, joined by one space. *)
Fixpoint continued (fuel : nat) (kv rest : string) : string * string :=
  match fuel with
  | 0 => (kv, rest)
  | S fuel' =>
      if startsBlank rest then
        match readLine rest with
        | Some (line, rest') => continued fuel' (kv +:+ " " +:+ trimBlank line) rest'
        | None => (kv, rest)
        end
      else (kv, rest)
  end.

Fixpoint cutColon (kv : string) : option (string * string) :=
  match kv with
  | EmptyString => None
  | String c kv' =>
      if Ascii.eqb c ":" then Some ("", kv')
      else '(k, v) ← cutColon kv'; Some (String c k, v)
  end.

Definition validHeaderFieldByte (c : ascii) : bool :=
  between 48 57 c || between 65 90 c || between 97 122 c ||
  strings_Contains "!#$%&'*+-.^_`|~" (String c "").

Fixpoint allBytes (f : ascii → bool) (s : string) : bool :=
  match s with
  | EmptyString => true
  | String c s' => f c && allBytes f s'
  end.

Fixpoint canonical (upper : bool) (k : string) : string :=
  match k with
  | EmptyString => ""
  | String c k' =>
      String (if upper then upperByte c else lowerByte c) (canonical (Ascii.eqb c "-") k')
  end.

Definition malformed (kv : string) : error :=
  errors_New ("malformed MIME header line: " +:+ kv).

(** The loop of [ReadMIMEHeader]: the header read, the error and the rest
    of the input. *)
Fixpoint headerLines (fuel : nat) (s : string) (m : Header) : Header * option error * string :=
  match fuel with
  | 0 => (m, Some io_EOF, s)
  | S fuel' =>
      match readLine s with
      | None => (m, Some io_EOF, "")
      | Some (line, rest) =>
          if String.eqb line "" then (m, None, rest)
          else
            let '(kv, rest) := continued fuel' (trimBlank line) rest in
            if String.eqb kv "" then (m, None, rest)
            else
              match cutColon kv with
              | None => (m, Some (malformed kv), rest)
              | Some (k, v) =>
                  if negb (allBytes validHeaderFieldByte k) then (m, Some (malformed kv), rest)
                  else if String.eqb k "" then headerLines fuel' rest m
                  else
                    let key := canonical true k in
                    let value := trimLeft (" " +:+ TAB) v in
                    headerLines fuel' rest (<[key := default [] (m !! key) ++ [value]]> m)
              end
      end
  end.

Definition ReadMIMEHeader (s : string) : Header * option error * string :=
  if startsBlank s then
    match readLine s with
    | Some (line, rest) =>
        (∅, Some (errors_New ("malformed MIME header initial line: " +:+ line)), rest)
    | None => (∅, Some io_EOF, "")
    end
  else headerLines (S (String.length s)) s ∅.

(** [mail.ReadMessage]: the header and the body behind the blank line. An
    input that ends inside a non-empty header block is accepted. *)
Definition ReadMessage (s : string) : result (Header * string) :=
  match ReadMIMEHeader s with
  | (hdr, None, body) => Ok (hdr, body)
  | (hdr, Some e, body) =>
      if bool_decide (e = io_EOF) && negb (bool_decide (hdr = ∅)) then Ok (hdr, body) else Err e
  end.

(** ** [encoding/base64]: [StdEncoding.DecodeString] *)

Definition decodeMap (c : ascii) : option nat :=
  if between 65 90 c then Some (code c - 65)
  else if between 97 122 c then Some (code c - 71)
  else if between 48 57 c then Some (code c + 4)
  else if Ascii.eqb c "+" then Some 62
  else if Ascii.eqb c "/" then Some 63
  else None.

Definition CorruptInputError (n : nat) : error :=
  errors_New ("illegal base64 data at input byte " +:+ pretty n).

Definition isNewline (c : ascii) : bool := Ascii.eqb c "010" || Ascii.eqb c "013".

(** Skips '\r' and '\n'; returns the rest and the number skipped. *)
Fixpoint skipNewlines (s : string) : string * nat :=
  match s with
  | String c s' =>
      if isNewline c then let '(r, n) := skipNewlines s' in (r, S n) else (s, 0)
  | EmptyString => ("", 0)
  end.

(** The bytes of a quantum of [dlen] sextets: three for four sextets, two
    for three, one for two. *)
Definition quantumBytes (dbuf : list nat) : string :=
  let d (i : nat) := N.of_nat (default 0 (dbuf !! i)) in
  let val := (N.shiftl (d 0%nat) 18 + N.shiftl (d 1%nat) 12 + N.shiftl (d 2%nat) 6 + d 3%nat)%N in
  let byte (n : N) := String (ascii_of_N (N.land n 255)) "" in
  let b0 := byte (N.shiftr val 16) in
  let b1 := byte (N.shiftr val 8) in
  let b2 := byte val in
  match length dbuf with
  | 4 => b0 +:+ b1 +:+ b2
  | 3 => b0 +:+ b1
  | 2 => b0
  | _ => ""
  end.

(** What follows the first '=' of a quantum of [j] sextets; [si] is the
    index of the byte behind that '='. *)
Definition padding (s : string) (si : nat) (dbuf : list nat) : string * option error :=
  let j := length dbuf in
  let afterPad (s : string) (si : nat) :=
    let '(s, n) := skipNewlines s in
    if String.eqb s "" then (quantumBytes dbuf, None)
    else (quantumBytes dbuf, Some (CorruptInputError (si + n))) in
  match j with
  | 0 | 1 => ("", Some (CorruptInputError (si - 1)))
  | 2 =>
      let '(s, n) := skipNewlines s in
      match s with
      | EmptyString => ("", Some (CorruptInputError (si + n)))
      | String c s' =>
          if Ascii.eqb c "=" then afterPad s' (S (si + n))
          else ("", Some (CorruptInputError (si + n - 1)))
      end
  | _ => afterPad s si
  end.

(** [Decode] from input index [si] on, with the sextets [dbuf] of the
    current quantum: the bytes written and the error. *)
Fixpoint decodeFrom (s : string) (si : nat) (dbuf : list nat) : string * option error :=
  match s with
  | EmptyString =>
      match dbuf with
      | [] => ("", None)
      | _ => ("", Some (CorruptInputError (si - length dbuf)))
      end
  | String c s' =>
      match decodeMap c with
      | Some out =>
          let dbuf := dbuf ++ [out] in
          if (length dbuf =? 4)%nat
          then let '(decoded, err) := decodeFrom s' (S si) [] in
               (quantumBytes dbuf +:+ decoded, err)
          else decodeFrom s' (S si) dbuf
      | None =>
          if isNewline c then decodeFrom s' (S si) dbuf
          else if Ascii.eqb c "=" then padding s' (S si) dbuf
          else ("", Some (CorruptInputError si))
      end
  end.

Definition DecodeString (s : string) : string * option error := decodeFrom s 0 [].

(** ** [mime/quotedprintable]: [io.ReadAll] of a reader, error dropped *)

Definition isQPDiscardWhitespace (c : ascii) : bool :=
  isNewline c || Ascii.eqb c " " || Ascii.eqb c "009".

Definition fromHex (c : ascii) : option nat :=
  if between 48 57 c then Some (code c - 48)
  else if between 65 70 c then Some (code c - 55)
  else if between 97 102 c then Some (code c - 87)
  else None.

(** The bytes of one prepared line; the flag tells that decoding stops. *)
Fixpoint qpLine (fuel : nat) (line : string) : string * bool :=
  match fuel, line with
  | S fuel', String b line' =>
      if Ascii.eqb b "=" then
        match line' with
        | String h1 (String h2 line'') =>
            match fromHex h1, fromHex h2 with
            | Some x, Some y =>
                let '(out, stop) := qpLine fuel' line'' in
                (String (ascii_of_nat (x * 16 + y)) out, stop)
            | _, _ =>
                if isNewline h1 then ("", true)
                else let '(out, stop) := qpLine fuel' line' in (String b out, stop)
            end
        | String h1 EmptyString =>
            if isNewline h1 then ("", true)
            else let '(out, stop) := qpLine fuel' line' in (String b out, stop)
        | EmptyString => ("", true)
        end
      else if Ascii.eqb b "009" || isNewline b || (128 <=? code b)%nat
              || between 32 126 b
      then let '(out, stop) := qpLine fuel' line' in (String b out, stop)
      else ("", true)
  | _, _ => ("", false)
  end.

(** A raw line is cut at its trailing white space; a soft break ('=' at
    the end) is dropped, a hard break is put back. The flag tells that
    the reader has met an error behind the '='. *)
Definition qpPrepare (wholeLine : string) (atEOF : bool) : string * bool :=
  let line := trimRight (CRLF +:+ " " +:+ TAB) wholeLine in
  if bytes_HasSuffix line "=" then
    let rightStripped := string_drop (String.length line) wholeLine in
    let line := bytes_TrimSuffix line "=" in
    (line,
     negb (String.prefix LF rightStripped) && negb (String.prefix CRLF rightStripped)
     && negb (String.eqb rightStripped "" && negb (String.eqb line "") && atEOF))
  else if bytes_HasSuffix wholeLine CRLF then (line +:+ CRLF, false)
  else if bytes_HasSuffix wholeLine LF then (line +:+ LF, false)
  else (line, false).

Fixpoint qpLines (fuel : nat) (s : string) : string :=
  match fuel with
  | 0 => ""
  | S fuel' =>
      let '(wholeLine, rest) := readSlice s in
      let '(line, bad) := qpPrepare wholeLine (bool_decide (rest = None)) in
      let '(out, stop) := qpLine (String.length line) line in
      match rest with
      | Some rest => if stop || bad then out else out +:+ qpLines fuel' rest
      | None => out
      end
  end.

Definition QPReadAll (s : string) : string := qpLines (S (String.length s)) s.

(** ** [regexp]: the two expressions of the package *)

(** The bytes of [s] behind a match of the letters of [pat] at its start,
    whatever their case; a letter s of [pat] also matches U+017F, as the
    case folding of [regexp] has it. *)
Fixpoint foldPrefix (pat s : string) : option string :=
  match pat with
  | EmptyString => Some s
  | String p pat' =>
      match s with
      | String c s' =>
          if Ascii.eqb (lowerByte c) p then foldPrefix pat' s'
          else if Ascii.eqb p "s" && Ascii.eqb c "197" then
            match s' with
            | String c' s'' => if Ascii.eqb c' "191" then foldPrefix pat' s'' else None
            | EmptyString => None
            end
          else None
      | EmptyString => None
      end
  end.

(** The leftmost match of [pat]: the input from the match on, and the
    bytes behind the match. *)
Fixpoint findFold (pat s : string) : option (string * string) :=
  match foldPrefix pat s with
  | Some rest => Some (s, rest)
  | None =>
      match s with
      | String _ s' => findFold pat s'
      | EmptyString => None
      end
  end.

Fixpoint untilQuote (s : string) : option string :=
  match s with
  | EmptyString => None
  | String c s' =>
      if Ascii.eqb c "034" then Some "" else g ← untilQuote s'; Some (String c g)
  end.

Definition FindStringSubmatch (pat s : string) : list string :=
  if String.eqb pat "(?is)charset=(.*)" then
    match findFold "charset=" s with
    | Some (whole, rest) => [whole; rest]
    | None => []
    end
  else if String.eqb pat ("(?msi)name=" +:+ DQUOTE +:+ "(.*?)" +:+ DQUOTE) then
    match findFold ("name=" +:+ DQUOTE) s with
    | Some (whole, rest) =>
        match untilQuote rest with
        | Some g =>
            let n := String.length whole - String.length rest + String.length g + 1 in
            [String.substring 0 n whole; g]
        | None => []
        end
    | None => []
    end
  else [].

(** ** [mime/multipart]: the run of a [Reader] *)

Fixpoint skipLWSPChar (s : string) : string :=
  match s with
  | String c s' => if Ascii.eqb c " " || Ascii.eqb c "009" then skipLWSPChar s' else s
  | EmptyString => ""
  end.

(** [isBoundaryDelimiterLine]: the bytes of the line behind the boundary
    and the white space, when the line starts with the boundary. *)
Definition delimiterRest (dashBoundary line : string) : option string :=
  if String.prefix dashBoundary line
  then Some (skipLWSPChar (string_drop (String.length dashBoundary) line))
  else None.

Definition isFinalBoundary (dashBoundary nl line : string) : bool :=
  match delimiterRest (dashBoundary +:+ "--") line with
  | Some rest => String.eqb rest "" || String.eqb rest nl
  | None => false
  end.

Definition matchAfterPrefix (after : string) : bool :=
  match after with
  | EmptyString => true
  | String c after' =>
      if Ascii.eqb c " " || Ascii.eqb c "009" || isNewline c then true
      else if Ascii.eqb c "-" then
        match after' with
        | String c' _ => Ascii.eqb c' "-"
        | EmptyString => false
        end
      else false
  end.

(** [scanUntilBoundary] behind the first bytes of a part: the data up to
    the boundary, and the input from the boundary on. The next [skip]
    bytes are data. *)
Fixpoint scanUntilBoundary (nlDashBoundary s : string) (skip : nat) : string * string :=
  match s with
  | EmptyString => ("", "")
  | String c s' =>
      match skip with
      | S skip' =>
          let '(data, rest) := scanUntilBoundary nlDashBoundary s' skip' in
          (String c data, rest)
      | 0 =>
          if String.prefix nlDashBoundary s then
            if matchAfterPrefix (string_drop (String.length nlDashBoundary) s) then ("", s)
            else
              let '(data, rest) :=
                scanUntilBoundary nlDashBoundary s' (String.length nlDashBoundary - 1) in
              (String c data, rest)
          else if String.prefix s nlDashBoundary then ("", s)
          else
            let '(data, rest) := scanUntilBoundary nlDashBoundary s' 0 in
            (String c data, rest)
      end
  end.

(** The bytes of a part: at its start the boundary may follow at once. *)
Definition partBody (dashBoundary nl s : string) : string * string :=
  if String.prefix dashBoundary s then
    if matchAfterPrefix (string_drop (String.length dashBoundary) s) then ("", s)
    else scanUntilBoundary (nl +:+ dashBoundary) s (String.length dashBoundary)
  else if String.prefix s dashBoundary then ("", s)
  else scanUntilBoundary (nl +:+ dashBoundary) s 0.

(** [newPart]: a quoted-printable part is decoded by the reader, which
    also takes the header field away. *)
Definition transferDecoded (h : Header) (data : string) : Header * string :=
  let cte := "Content-Transfer-Encoding" in
  match h !! cte with
  | Some (v :: _) =>
      if String.eqb (ToLower v) "quoted-printable" then (delete cte h, QPReadAll data)
      else (h, data)
  | _ => (h, data)
  end.

(** [%q] of a line, for the printable ASCII range and the usual escapes. *)
Fixpoint escaped (s : string) : string :=
  match s with
  | EmptyString => ""
  | String c s' =>
      (if Ascii.eqb c "013" then "\r" else if Ascii.eqb c "010" then "\n"
       else if Ascii.eqb c "009" then "\t" else if Ascii.eqb c "034" then "\" +:+ DQUOTE
       else if Ascii.eqb c "\" then "\\" else String c "") +:+ escaped s'
  end.

Definition quoted (s : string) : string := DQUOTE +:+ escaped s +:+ DQUOTE.

(** The successive [NextPart] calls over the rest [s] of the body. Every
    turn reads a line, so the length of [s] bounds the number of turns. *)
Fixpoint partsFrom (fuel : nat) (dashBoundary nl s : string)
    (partsRead expectNewPart : bool) : list (Header * string) * error :=
  match fuel with
  | 0 => ([], errors_New "multipart: NextPart: EOF")
  | S fuel' =>
      match readSlice s with
      | (line, None) =>
          if isFinalBoundary dashBoundary nl line then ([], io_EOF)
          else ([], errors_New "multipart: NextPart: EOF")
      | (line, Some s1) =>
          let nl :=
            if negb partsRead && bool_decide (delimiterRest dashBoundary line = Some LF)
            then LF else nl in
          if bool_decide (delimiterRest dashBoundary line = Some nl) then
            match ReadMIMEHeader s1 with
            | (_, Some e, _) => ([], e)
            | (h, None, s2) =>
                let '(data, s3) := partBody dashBoundary nl s2 in
                let '(parts, err) := partsFrom fuel' dashBoundary nl s3 true false in
                (transferDecoded h data :: parts, err)
            end
          else if isFinalBoundary dashBoundary nl line then ([], io_EOF)
          else if expectNewPart then
            ([], errors_New ("multipart: expecting a new Part; got line " +:+ quoted line))
          else if negb partsRead then
            partsFrom fuel' dashBoundary nl s1 false false
          else if String.eqb line nl then
            partsFrom fuel' dashBoundary nl s1 true true
          else ([], errors_New ("multipart: unexpected line in Next(): " +:+ quoted line))
      end
  end.

Definition NewReader (body boundary : string) : list (Header * string) * error :=
  if String.eqb boundary "" then ([], errors_New "multipart: boundary is empty")
  else partsFrom (S (String.length body)) ("--" +:+ boundary) CRLF body false false.

End GoRef.

(** ** The rest of the package *)

Module Ref.

(** Modelled from the spec: an Address is either a Mailbox (optional
    display name, local part, domain) or a Group (group name, ordered list
    of mailboxes). *)
Record Mailbox : Type := mkMailbox {
  Name : string;
  Local : string;
  Domain : string;
}.

Inductive AddressVal : Type :=
| MailboxAddress (m : Mailbox)
| GroupAddress (name : string) (members : list Mailbox).

#[global] Instance Mailbox_eq_dec : EqDecision Mailbox.
Proof. solve_decision. Defined.
#[global] Instance AddressVal_eq_dec : EqDecision AddressVal.
Proof. solve_decision. Defined.

Inductive lexMode : Type :=
| Plain
| InQuoted (escaped : bool)
| InComment (depth : nat)
| InDomainLiteral.

Definition isSpecial (c : ascii) : bool := strings_Contains ",;@<>:" (String c "").

Definition flush (cur : string) (ts : list token) : list token :=
  if String.eqb cur "" then ts else ts ++ [cur].

(** Modelled from the spec: the lexer of section 4.1, which is not part of
    this development. White space outside quotes and comments ends a
    token; a quoted string runs to the next unescaped quote and keeps its
    bytes; a comment runs to its closing parenthesis; a domain literal
    runs to the closing bracket; each of , ; @ < > : is a token of its
    own; other bytes run together as an atom. An unterminated quoted
    string or comment is an error. *)
Fixpoint lex (s : string) (mode : lexMode) (cur : string) (ts : list token)
    : result (list token) :=
  match s with
  | EmptyString =>
      match mode with
      | Plain | InDomainLiteral => Ok (flush cur ts)
      | InQuoted _ => Err (errors_New "unterminated quoted string")
      | InComment _ => Err (errors_New "unterminated comment")
      end
  | String c s' =>
      let cur' := cur +:+ String c "" in
      match mode with
      | Plain =>
          if GoRef.isSpace c then lex s' Plain "" (flush cur ts)
          else if Ascii.eqb c "034" then lex s' (InQuoted false) (String c "") (flush cur ts)
          else if Ascii.eqb c "(" then lex s' (InComment 1) (String c "") (flush cur ts)
          else if Ascii.eqb c "[" then lex s' InDomainLiteral (String c "") (flush cur ts)
          else if isSpecial c then lex s' Plain "" (flush cur ts ++ [String c ""])
          else lex s' Plain cur' ts
      | InQuoted true => lex s' (InQuoted false) cur' ts
      | InQuoted false =>
          if Ascii.eqb c "\" then lex s' (InQuoted true) cur' ts
          else if Ascii.eqb c "034" then lex s' Plain "" (ts ++ [cur'])
          else lex s' (InQuoted false) cur' ts
      | InComment depth =>
          if Ascii.eqb c "(" then lex s' (InComment (S depth)) cur' ts
          else if Ascii.eqb c ")" then
            match depth with
            | S (S d) => lex s' (InComment (S d)) cur' ts
            | _ => lex s' Plain "" (ts ++ [cur'])
            end
          else lex s' (InComment depth) cur' ts
      | InDomainLiteral =>
          if Ascii.eqb c "]" then lex s' Plain "" (ts ++ [cur'])
          else lex s' InDomainLiteral cur' ts
      end
  end.

Definition tokenize (s : string) : result (list token) := lex s Plain "" [].

(** The tokens before the first [s], and those behind it. *)
Fixpoint cutToken (s : token) (ts : list token) : option (list token * list token) :=
  match ts with
  | [] => None
  | t :: ts' =>
      if String.eqb t s then Some ([], ts')
      else '(l, r) ← cutToken s ts'; Some (t :: l, r)
  end.

Definition unquote (t : token) : string :=
  match t with
  | String "034" t' => bytes_TrimSuffix t' DQUOTE
  | _ => t
  end.

Definition isComment (t : token) : bool := String.prefix "(" t.

Definition words (ts : list token) : string :=
  String.concat " " (map unquote (filter (λ t, negb (isComment t)) ts)).

Definition joined (ts : list token) : string :=
  String.concat "" (filter (λ t, negb (isComment t)) ts).

Definition addrSpec (name : string) (ts : list token) : result Mailbox :=
  match cutToken "@" ts with
  | Some (l, d) =>
      if String.eqb (joined l) "" || String.eqb (joined d) ""
      then Err (errors_New "invalid address")
      else Ok (mkMailbox name (joined l) (joined d))
  | None => Err (errors_New "invalid address: no @")
  end.

(** Modelled from the spec: a mailbox is an address, or a display name
    followed by an address in angle brackets. *)
Definition parseMailbox (ts : list token) : result Mailbox :=
  match cutToken "<" ts with
  | Some (name, r) =>
      match cutToken ">" r with
      | Some (a, []) => addrSpec (words name) a
      | _ => Err (errors_New "invalid address: angle brackets")
      end
  | None => addrSpec "" ts
  end.

Fixpoint parseMailboxes (runs : list (list token)) : result (list Mailbox) :=
  match runs with
  | [] => Ok []
  | ts :: runs' =>
      match parseMailbox ts, parseMailboxes runs' with
      | Ok m, Ok ms => Ok (m :: ms)
      | Err e, _ | _, Err e => Err e
      end
  end.

(** Modelled from the spec: a closed run is a group when it holds a colon
    and ends with a semicolon, a mailbox otherwise. *)
Definition parseAddress (ts : list token) : result (option AddressVal) :=
  match cutToken ":" ts with
  | Some (name, r) =>
      match cutToken ";" r with
      | Some (members, []) =>
          match parseMailboxes (split members ",") with
          | Ok ms => Ok (Some (GroupAddress (words name) ms))
          | Err e => Err e
          end
      | _ => Err (errors_New "invalid group")
      end
  | None =>
      match parseMailbox ts with
      | Ok m => Ok (Some (MailboxAddress m))
      | Err e => Err e
      end
  end.

(** Modelled from the spec: the encoded-word expander leaves a value
    without encoded words as it is. This one knows no charset: a value
    with an encoded word is an error. *)
Definition decodeRFC2047 (s : string) : result string :=
  if strings_Contains s "=?" then Err (errors_New "unsupported encoded word") else Ok s.

Definition Decode (s : string) : string * option error :=
  match decodeRFC2047 s with
  | Ok d => (d, None)
  | Err e => ("", Some e)
  end.

Definition ParseAddress (s : string) : option AddressVal * option error :=
  match tokenize s with
  | Err e => (None, Some e)
  | Ok ts =>
      match parseAddress ts with
      | Ok a => (a, None)
      | Err e => (None, Some e)
      end
  end.

(** The UTF-8 bytes of a Latin-1 text. *)
Fixpoint latin1 (s : string) : string :=
  match s with
  | EmptyString => ""
  | String c s' =>
      let n := GoRef.code c in
      if (n <? 128)%nat then String c (latin1 s')
      else String (ascii_of_nat (192 + n / 64)) (String (ascii_of_nat (128 + n mod 64)) (latin1 s'))
  end.

(** Modelled from the spec: [to_utf8] fails when the charset name is not
    recognized or the bytes do not decode. UTF-8, US-ASCII and ISO-8859-1
    are the recognized names here. *)
Definition UTF8 (cs data : string) : result string :=
  let cs := GoRef.ToLower cs in
  if String.eqb cs "utf-8" then Ok data
  else if String.eqb cs "us-ascii" then
    if GoRef.allBytes (λ c, (GoRef.code c <? 128)%nat) data then Ok data
    else Err (errors_New "charset: invalid US-ASCII byte")
  else if String.eqb cs "iso-8859-1" then Ok (latin1 data)
  else Err (errors_New ("charset: unsupported charset " +:+ cs)).

(** Modelled from the spec: the date parser goes by a table of layouts and
    returns the zero time when none fits; the table is empty here. *)
Definition ParseDate (s : string) : Z := 0%Z.

(** Modelled from the spec: the raw splitter returns the header fields in
    order, with their names and raw values, and the body behind the blank
    line; it fails when the header block has no end. *)
Fixpoint rawHeaders (fuel : nat) (s : string) (hs : list RawHeader) : result RawMessage :=
  match fuel with
  | 0 => Err (errors_New "malformed message")
  | S fuel' =>
      match GoRef.readLine s with
      | None => Err (errors_New "malformed message: no end of headers")
      | Some (line, rest) =>
          if String.eqb line "" then Ok (RawMessage.mk hs rest)
          else
            let '(kv, rest) := GoRef.continued fuel' line rest in
            match GoRef.cutColon kv with
            | None => Err (errors_New ("malformed header line: " +:+ kv))
            | Some (k, v) =>
                rawHeaders fuel' rest (hs ++ [mkRawHeader k (GoRef.trimBlank v)])
            end
      end
  end.

Definition ParseRaw (data : string) : result RawMessage :=
  rawHeaders (S (String.length data)) data [].

End Ref.

(** The reference collaborators. *)
Definition refcollab : Collaborators := {|
  AddressVal := Ref.AddressVal;
  Time := Z;
  Time_zero := 0%Z;
  tokenize := Ref.tokenize;
  parseAddress := Ref.parseAddress;
  ParseAddress := Ref.ParseAddress;
  decodeRFC2047 := Ref.decodeRFC2047;
  Decode := Ref.Decode;
  UTF8 := Ref.UTF8;
  ParseDate := Ref.ParseDate;
  ParseRaw := Ref.ParseRaw;
|}.

(** ** Inputs *)

Definition lines (ls : list string) : string := String.concat CRLF ls.

(** Two text/plain parts. *)
Definition two_plain_body : string := lines [
  "--b";
  "Content-Type: text/plain; charset=utf-8";
  "";
  "first";
  "--b";
  "Content-Type: text/plain; charset=utf-8";
  "";
  "second";
  "--b--";
  ""].

Definition two_plain_parts : string :=
  lines ["Subject: two texts"; "Content-Type: multipart/mixed; boundary=b"; ""; two_plain_body].



(** A multipart type without boundary parameter. *)
Definition multipart_without_boundary : string := lines [
  "Subject: hi";
  "Content-Type: multipart/mixed";
  "";
  "hello"].

(** A multipart body whose only part declares no Content-Type. *)
Definition no_typed_part_body : string := lines [
  "--b";
  "X-Note: no content type";
  "";
  "hello";
  "--b--";
  ""].

Definition no_typed_part_message : string :=
  lines ["Subject: hi"; "Content-Type: multipart/mixed; boundary=b"; ""; no_typed_part_body].

(** Three parts: the second declares no Content-Type, the third declares a
    multipart type without boundary. *)
Definition three_parts_body : string := lines [
  "--b";
  "Content-Type: text/plain";
  "";
  "one";
  "--b";
  "X-Note: no content type";
  "";
  "skipped";
  "--b";
  "Content-Type: multipart/alternative; charset=latin1";
  "";
  "raw";
  "--b--";
  ""].

(** A leaf wrapped [d] times into a multipart body of one part; the
    boundary of level [d] is [b] followed by the number [d]. *)
Fixpoint nest (d : nat) : string * string :=
  match d with
  | 0 => ("text/plain; charset=utf-8", "leaf")
  | S d' =>
      let '(ct, body) := nest d' in
      let boundary := "b" +:+ pretty d' in
      ("multipart/mixed; boundary=" +:+ boundary,
       "--" +:+ boundary +:+ CRLF +:+
       "Content-Type: " +:+ ct +:+ CRLF +:+ CRLF +:+
       body +:+ CRLF +:+
       "--" +:+ boundary +:+ "--" +:+ CRLF)
  end.

(** The example of the spec. *)
Definition doe_and_jane : string :=
  DQUOTE +:+ "Doe, John" +:+ DQUOTE +:+ " <john@x.com>, jane@y.com".

(** A text, an HTML page and a file. *)
Definition text_html_file_body : string := lines [
  "--b";
  "Content-Type: text/plain; charset=utf-8";
  "";
  "hello";
  "--b";
  "Content-Type: text/html; charset=utf-8";
  "";
  "<p>hello</p>";
  "--b";
  "Content-Type: application/pdf";
  "Content-Disposition: attachment; filename=" +:+ DQUOTE +:+ "a.pdf" +:+ DQUOTE;
  "Content-Transfer-Encoding: base64";
  "";
  "aGVsbG8h";
  "--b--";
  ""].

Definition text_html_file : RawMessage :=
  RawMessage.mk [mkRawHeader "Subject" "three parts";
                 mkRawHeader "To" "?";
                 mkRawHeader "Content-Type" "multipart/mixed; boundary=b"]
    text_html_file_body.

(** * Part IV: proofs *)

Module GoRefFacts.
Import GoRef.

(** ** The parts of a reader are shorter than its input *)

Local Open Scope nat_scope.

Local Arguments String.eqb : simpl never.
Local Arguments String.prefix : simpl never.

Local Abbreviation len := String.length.

Lemma readSlice_length s line rest :
  readSlice s = (line, Some rest) →
  String.length s = String.length line + String.length rest ∧ 0 < String.length line.
Proof.
  revert line rest. induction s as [|c s IH]; intros line rest; simpl; [done|].
  destruct (Ascii.eqb c "010").
  - intros [= <- <-]. simpl. lia.
  - destruct (readSlice s) as [line' rest'] eqn:E. intros [= <- ->].
    destruct (IH _ _ eq_refl) as [-> _]. simpl. lia.
Qed.

Lemma len_app s1 s2 : len (s1 +:+ s2) = len s1 + len s2.
Proof. induction s1 as [|c s1 IH]; simpl; [done|]. by rewrite IH. Qed.

Lemma string_drop_length n s : len (string_drop n s) ≤ len s.
Proof.
  revert s. induction n as [|n IH]; intros [|c s]; simpl; try lia.
  specialize (IH s). lia.
Qed.

Lemma trimRight_length cutset s : len (trimRight cutset s) ≤ len s.
Proof.
  induction s as [|c s IH]; simpl; [done|].
  destruct (trimRight cutset s) as [|c' r]; simpl in *.
  - destruct (in_cutset cutset c); simpl; lia.
  - lia.
Qed.

Lemma trimLeft_length cutset s : len (trimLeft cutset s) ≤ len s.
Proof.
  induction s as [|c s IH]; simpl; [done|].
  destruct (in_cutset cutset c); simpl; lia.
Qed.

Lemma bytes_TrimSuffix_length s suffix : len (bytes_TrimSuffix s suffix) ≤ len s.
Proof.
  induction s as [|c s IH]; simpl.
  - by destruct (String.eqb "" suffix).
  - destruct (String.eqb (String c s) suffix); simpl; [lia|].
    destruct (bytes_HasSuffix s suffix); simpl; lia.
Qed.

(** A suffix made of bytes of the cutset is cut off by [trimRight]. *)
Lemma trimRight_suffix cutset s suffix :
  allBytes (in_cutset cutset) suffix = true →
  bytes_HasSuffix s suffix = true →
  len (trimRight cutset s) + len suffix ≤ len s.
Proof.
  intros Hcut. induction s as [|c s IH]; simpl.
  - rewrite orb_false_r. intros <-%String.eqb_eq. simpl. lia.
  - intros [Heq|Hsuf]%orb_true_iff.
    + apply String.eqb_eq in Heq. subst suffix.
      assert (trimRight cutset (String c s) = "") as Hnil.
      { clear IH. revert Hcut. generalize (String c s) as t.
        induction t as [|d t IHt]; simpl; [done|].
        intros [Hd Ht]%andb_true_iff. rewrite (IHt Ht). by rewrite Hd. }
      simpl in Hnil. rewrite Hnil. simpl. lia.
    + specialize (IH Hsuf).
      destruct (trimRight cutset s) as [|c' r]; simpl in *.
      * destruct (in_cutset cutset c); simpl; lia.
      * lia.
Qed.

Lemma readSlice_length_le s line rest :
  readSlice s = (line, rest) → len line ≤ len s.
Proof.
  revert line rest. induction s as [|c s IH]; intros line rest; simpl.
  - by intros [= <- <-].
  - destruct (Ascii.eqb c "010").
    + intros [= <- <-]. simpl. lia.
    + destruct (readSlice s) as [line' rest'] eqn:E. intros [= <- <-].
      specialize (IH _ _ eq_refl). simpl. lia.
Qed.

Lemma readLine_length s line rest :
  readLine s = Some (line, rest) → len rest ≤ len s.
Proof.
  unfold readLine. destruct (readSlice s) as [l [r|]] eqn:E.
  - intros [= <- <-]. apply readSlice_length in E. lia.
  - destruct (String.eqb l ""); [done|]. intros [= <- <-]. simpl. lia.
Qed.

Lemma continued_length fuel kv rest : len (continued fuel kv rest).2 ≤ len rest.
Proof.
  revert kv rest. induction fuel as [|fuel IH]; intros kv rest; simpl; [done|].
  destruct (startsBlank rest); [|done].
  destruct (readLine rest) as [[line rest']|] eqn:E; [|done].
  apply readLine_length in E. specialize (IH (kv +:+ " " +:+ trimBlank line) rest'). lia.
Qed.

Lemma headerLines_length fuel s m : len (headerLines fuel s m).2 ≤ len s.
Proof.
  revert s m. induction fuel as [|fuel IH]; intros s m; simpl; [done|].
  destruct (readLine s) as [[line rest]|] eqn:E; [|simpl; lia].
  apply readLine_length in E.
  destruct (String.eqb line ""); [done|].
  pose proof (continued_length fuel (trimBlank line) rest) as Hc.
  destruct (continued fuel (trimBlank line) rest) as [kv rest']. simpl in Hc.
  destruct (String.eqb kv ""); [simpl; lia|].
  destruct (cutColon kv) as [[k v]|]; [|simpl; lia].
  destruct (negb (allBytes validHeaderFieldByte k)); [simpl; lia|].
  destruct (String.eqb k "").
  - specialize (IH rest' m). lia.
  - match goal with |- context [headerLines fuel rest' ?m'] =>
      specialize (IH rest' m') end. lia.
Qed.

Lemma ReadMIMEHeader_length s : len (ReadMIMEHeader s).2 ≤ len s.
Proof.
  unfold ReadMIMEHeader. destruct (startsBlank s).
  - destruct (readLine s) as [[line rest]|] eqn:E; simpl; [|lia].
    by apply readLine_length in E.
  - apply headerLines_length.
Qed.

Lemma scanUntilBoundary_length nlDashBoundary s skip :
  len (scanUntilBoundary nlDashBoundary s skip).1 ≤ len s
  ∧ len (scanUntilBoundary nlDashBoundary s skip).2 ≤ len s.
Proof.
  revert skip. induction s as [|c s IH]; intros skip; simpl; [done|].
  destruct skip as [|skip].
  - destruct (String.prefix nlDashBoundary (String c s)).
    + destruct (matchAfterPrefix _); [simpl; lia|].
      specialize (IH (len nlDashBoundary - 1)).
      destruct (scanUntilBoundary nlDashBoundary s _); simpl in *; lia.
    + destruct (String.prefix (String c s) nlDashBoundary); [simpl; lia|].
      specialize (IH 0).
      destruct (scanUntilBoundary nlDashBoundary s 0); simpl in *; lia.
  - specialize (IH skip).
    destruct (scanUntilBoundary nlDashBoundary s skip); simpl in *; lia.
Qed.

Lemma partBody_length dashBoundary nl s :
  len (partBody dashBoundary nl s).1 ≤ len s ∧ len (partBody dashBoundary nl s).2 ≤ len s.
Proof.
  unfold partBody. destruct (String.prefix dashBoundary s).
  - destruct (matchAfterPrefix _); [simpl; lia|]. apply scanUntilBoundary_length.
  - destruct (String.prefix s dashBoundary); [simpl; lia|]. apply scanUntilBoundary_length.
Qed.

Lemma qpLine_length fuel line : len (qpLine fuel line).1 ≤ len line.
Proof.
  revert line. induction fuel as [|fuel IH]; intros line; simpl; [lia|].
  destruct line as [|b line]; simpl; [done|].
  pose proof (IH line) as IH1.
  destruct (Ascii.eqb b "=").
  - destruct line as [|h1 [|h2 line'']].
    + simpl. lia.
    + destruct (isNewline h1); [simpl; lia|].
      destruct (qpLine fuel _); simpl in *; lia.
    + destruct (fromHex h1), (fromHex h2);
        try (destruct (isNewline h1); [simpl; lia|];
             destruct (qpLine fuel (String h1 _)); simpl in *; lia).
      specialize (IH line''). destruct (qpLine fuel line''); simpl in *; lia.
  - destruct (_ || _); [|simpl; lia].
    destruct (qpLine fuel line); simpl in *; lia.
Qed.

Lemma qpPrepare_length wholeLine atEOF :
  len (qpPrepare wholeLine atEOF).1 ≤ len wholeLine.
Proof.
  unfold qpPrepare.
  pose proof (trimRight_length (CRLF +:+ " " +:+ TAB) wholeLine) as Ht.
  destruct (bytes_HasSuffix (trimRight _ wholeLine) "=").
  - simpl. etrans; [apply bytes_TrimSuffix_length|done].
  - destruct (bytes_HasSuffix wholeLine CRLF) eqn:E1.
    + simpl. rewrite len_app.
      by apply (trimRight_suffix (CRLF +:+ " " +:+ TAB) wholeLine CRLF).
    + destruct (bytes_HasSuffix wholeLine LF) eqn:E2; simpl; [|done].
      rewrite len_app.
      by apply (trimRight_suffix (CRLF +:+ " " +:+ TAB) wholeLine LF).
Qed.

Lemma qpLines_length fuel s : len (qpLines fuel s) ≤ len s.
Proof.
  revert s. induction fuel as [|fuel IH]; intros s; simpl; [lia|].
  destruct (readSlice s) as [wholeLine rest] eqn:E.
  pose proof (qpPrepare_length wholeLine (bool_decide (rest = None))) as Hp.
  destruct (qpPrepare wholeLine _) as [line bad]. simpl in Hp.
  pose proof (qpLine_length (len line) line) as Hl.
  destruct (qpLine (len line) line) as [out stop]. simpl in Hl.
  destruct rest as [rest|].
  - apply readSlice_length in E as [-> _].
    destruct (stop || bad); [lia|]. rewrite len_app. specialize (IH rest). lia.
  - apply readSlice_length_le in E. lia.
Qed.

Lemma transferDecoded_length h data : len (transferDecoded h data).2 ≤ len data.
Proof.
  unfold transferDecoded. destruct (h !! _) as [[|v vs]|]; simpl; try done.
  destruct (String.eqb _ _); simpl; [apply qpLines_length|done].
Qed.

Lemma partsFrom_shrinks fuel dashBoundary nl s partsRead expectNewPart h data :
  (h, data) ∈ (partsFrom fuel dashBoundary nl s partsRead expectNewPart).1 →
  len data < len s.
Proof.
  revert nl s partsRead expectNewPart.
  induction fuel as [|fuel IH]; intros nl s partsRead expectNewPart; simpl.
  { by intros ?%elem_of_nil. }
  destruct (readSlice s) as [line [s1|]] eqn:E.
  2:{ destruct (isFinalBoundary dashBoundary nl line); by intros ?%elem_of_nil. }
  apply readSlice_length in E as [Hs Hline].
  set (nl' := if negb partsRead && _ then LF else nl).
  destruct (bool_decide (delimiterRest dashBoundary line = Some nl')).
  - pose proof (ReadMIMEHeader_length s1) as Hh.
    destruct (ReadMIMEHeader s1) as [[h1 [e|]] s2]; simpl in Hh.
    { by intros ?%elem_of_nil. }
    pose proof (partBody_length dashBoundary nl' s2) as [Hd Hr].
    destruct (partBody dashBoundary nl' s2) as [data1 s3]. simpl in Hd, Hr.
    destruct (partsFrom fuel dashBoundary nl' s3 true false) as [parts err] eqn:En.
    simpl. intros [Heq|Hin]%elem_of_cons.
    + pose proof (transferDecoded_length h1 data1) as Ht.
      rewrite <- Heq in Ht. simpl in Ht. lia.
    + specialize (IH nl' s3 true false). rewrite En in IH. specialize (IH Hin). lia.
  - destruct (isFinalBoundary dashBoundary nl' line); [by intros ?%elem_of_nil|].
    destruct expectNewPart; [by intros ?%elem_of_nil|].
    destruct (negb partsRead).
    + intros Hin. specialize (IH _ _ _ _ Hin). lia.
    + destruct (String.eqb line nl'); [|by intros ?%elem_of_nil].
      intros Hin. specialize (IH _ _ _ _ Hin). lia.
Qed.

Lemma NewReader_shrinks body boundary h data :
  (h, data) ∈ (NewReader body boundary).1 → len data < len body.
Proof.
  unfold NewReader. destruct (String.eqb boundary ""); [by intros ?%elem_of_nil|].
  apply partsFrom_shrinks.
Qed.

(** Behind a blank line there is no header: [mail.ReadMessage] returns an
    empty header and the input behind the line. *)
Lemma ReadMessage_blank_line body : ReadMessage (CRLF +:+ body) = Ok (∅, body).
Proof. reflexivity. Qed.

End GoRefFacts.

(** The reference library. *)
Definition golib : GoStd := {|
  strings_ToLower := GoRef.ToLower;
  strings_Fields := GoRef.Fields;
  strings_TrimSpace := GoRef.TrimSpace;
  mime_ParseMediaType := GoRef.ParseMediaType;
  mail_ReadMessage := GoRef.ReadMessage;
  multipart_NewReader := GoRef.NewReader;
  multipart_shrinks := GoRefFacts.NewReader_shrinks;
  base64_DecodeString := GoRef.DecodeString;
  quotedprintable_ReadAll := GoRef.QPReadAll;
  regexp_FindStringSubmatch := GoRef.FindStringSubmatch;
|}.

(** ** The byte-level functions on examples *)

Example strings_Trim_ex : strings_Trim "<a@x> " "<> " = "a@x".
Proof. reflexivity. Qed.

Example bytes_TrimSuffix_ex :
  bytes_TrimSuffix ("To: a" +:+ String "013" (String "010" "")) (String "013" (String "010" "")) = "To: a"
  ∧ bytes_TrimSuffix "abcab" "ab" = "abc" ∧ bytes_TrimSuffix "abcabx" "ab" = "abcabx".
Proof. repeat split; reflexivity. Qed.

Example bytes_Replace1_ex : bytes_Replace1 "H: v..body" "body" = "H: v.." ∧ bytes_Replace1 "abc" "" = "abc".
Proof. split; reflexivity. Qed.

Example split_ex :
  split ["a"; ","; "b"; "c"; ","; ","; "d"; ","] "," = [["a"]; ["b"; "c"]; []; ["d"]].
Proof. reflexivity. Qed.

(** ** The reference implementations on examples *)

Example ParseMediaType_ex :
  GoRef.ParseMediaType ("Multipart/Mixed; Boundary=" +:+ DQUOTE +:+ "a b" +:+ DQUOTE +:+ "; charset=utf-8")
    = Ok ("multipart/mixed", {["boundary" := "a b"; "charset" := "utf-8"]})
  ∧ GoRef.ParseMediaType "text/plain;" = Ok ("text/plain", ∅)
  ∧ GoRef.ParseMediaType "text plain" = Err (errors_New "mime: expected slash after first token")
  ∧ GoRef.ParseMediaType "text/plain; charset" = Err (errors_New "mime: invalid media parameter").
Proof. repeat split; compute_done. Qed.

Example DecodeString_ex :
  GoRef.DecodeString "aGVsbG8h" = ("hello!", None)
  ∧ GoRef.DecodeString ("aGVs" +:+ CRLF +:+ "bA==") = ("hell", None)
  ∧ GoRef.DecodeString "aGVsbA" = ("hel", Some (GoRef.CorruptInputError 4))
  ∧ GoRef.DecodeString "aGVsbA=" = ("hel", Some (GoRef.CorruptInputError 7))
  ∧ GoRef.DecodeString "aGVsbA==x" = ("hell", Some (GoRef.CorruptInputError 8))
  ∧ GoRef.DecodeString "!!!!" = ("", Some (GoRef.CorruptInputError 0)).
Proof. repeat split; compute_done. Qed.

Example QPReadAll_ex :
  GoRef.QPReadAll ("caf=C3=A9 =" +:+ CRLF +:+ "au lait  " +:+ CRLF +:+ "a=zz=")
    = "caf" +:+ String "195" (String "169" " au lait") +:+ CRLF +:+ "a=zz".
Proof. compute_done. Qed.

Example FindStringSubmatch_ex :
  GoRef.FindStringSubmatch "(?is)charset=(.*)" "text/plain; CharSet=utf-8; x=y"
    = ["CharSet=utf-8; x=y"; "utf-8; x=y"]
  ∧ GoRef.FindStringSubmatch "(?is)charset=(.*)" "text/plain" = []
  ∧ GoRef.FindStringSubmatch ("(?msi)name=" +:+ DQUOTE +:+ "(.*?)" +:+ DQUOTE)
      ("attachment; fileName=" +:+ DQUOTE +:+ "a.txt" +:+ DQUOTE +:+ "; size=1")
    = ["Name=" +:+ DQUOTE +:+ "a.txt" +:+ DQUOTE; "a.txt"].
Proof. repeat split; compute_done. Qed.

Example NewReader_ex :
  GoRef.NewReader three_parts_body "b"
    = ([({["Content-Type" := ["text/plain"]]}, "one");
        ({["X-Note" := ["no content type"]]}, "skipped");
        ({["Content-Type" := ["multipart/alternative; charset=latin1"]]}, "raw")],
       io_EOF)
  ∧ GoRef.NewReader ("--b" +:+ CRLF +:+ CRLF +:+ "no end") "b"
    = ([(∅, "no end")], errors_New "multipart: NextPart: EOF")
  ∧ GoRef.NewReader ("--b" +:+ CRLF +:+ "no colon" +:+ CRLF +:+ CRLF +:+ "x") "b"
    = ([], errors_New "malformed MIME header line: no colon").
Proof. repeat split; compute_done. Qed.

Example tokenize_ex :
  Ref.tokenize doe_and_jane
    = Ok [DQUOTE +:+ "Doe, John" +:+ DQUOTE; "<"; "john"; "@"; "x.com"; ">"; ",";
          "jane"; "@"; "y.com"].
Proof. compute_done. Qed.

(** The comma of a display name without quotes is put back into its run. *)
Example accumulate_ex :
  let stb := split ["Doe"; ","; "John"; "<"; "john"; "@"; "x.com"; ">"; ","; "jane"; "@"; "y.com"] "," in
  stb = [["Doe"]; ["John"; "<"; "john"; "@"; "x.com"; ">"]; ["jane"; "@"; "y.com"]]
  ∧ accumulate (length stb) 0 stb [] []
    = [["Doe"; ","; "John"; "<"; "john"; "@"; "x.com"; ">"]; ["jane"; "@"; "y.com"]].
Proof. split; reflexivity. Qed.


(** * Properties of the decomposer *)

Section DecomposerFacts.
Context `{!GoStd}.

Implicit Types (rec : string → string → Header → list Part * option error).

Lemma nextParts_cons rec seg segs parts :
  nextParts rec (seg :: segs) parts = nextParts rec segs (parts ++ partsOf rec seg).
Proof.
  destruct seg as [h data]. unfold partsOf. simpl.
  destruct (h !! "Content-Type") as [[|ctv vs]|]; rewrite ?app_nil_r; try done.
  by destruct (rec ctv data h) as [subparts [e|]].
Qed.

Lemma nextParts_flat rec segs parts :
  nextParts rec segs parts = parts ++ flat_map (partsOf rec) segs.
Proof.
  revert parts. induction segs as [|seg segs IH]; intros parts.
  - by rewrite app_nil_r.
  - rewrite nextParts_cons, IH. simpl. by rewrite app_assoc.
Qed.

Lemma partsOf_ext rec1 rec2 seg :
  (∀ ctv, rec1 ctv seg.2 seg.1 = rec2 ctv seg.2 seg.1) →
  partsOf rec1 seg = partsOf rec2 seg.
Proof.
  intros Hrec. unfold partsOf.
  destruct (seg.1 !! "Content-Type") as [[|ctv vs]|]; try done.
  by rewrite Hrec.
Qed.

Lemma nextParts_ext rec1 rec2 segs parts :
  (∀ h data ctv, (h, data) ∈ segs → rec1 ctv data h = rec2 ctv data h) →
  nextParts rec1 segs parts = nextParts rec2 segs parts.
Proof.
  intros Hrec. rewrite !nextParts_flat. f_equal.
  induction segs as [|[h data] segs IH]; [done|]. simpl. f_equal.
  - apply partsOf_ext. intros ctv. apply Hrec. left.
  - apply IH. intros h' data' ctv Hin. apply Hrec. by right.
Qed.

(** The depth of the recursion never exceeds the length of the body: any
    two amounts of fuel above it give the same result. *)
Lemma parseBody_rec_fuel fuel1 fuel2 ct body ph :
  String.length body < fuel1 → String.length body < fuel2 →
  parseBody_rec fuel1 ct body ph = parseBody_rec fuel2 ct body ph.
Proof.
  revert fuel2 ct body ph.
  induction fuel1 as [|fuel1 IH]; intros fuel2 ct body ph H1 H2; [lia|].
  destruct fuel2 as [|fuel2]; [lia|]. simpl.
  destruct (mime_ParseMediaType ct) as [[mt ps]|e]; [|done].
  destruct (ps !! "boundary") as [boundary|]; [|done].
  pose proof (multipart_shrinks body boundary) as Hshrink.
  destruct (multipart_NewReader body boundary) as [segs err]. simpl in Hshrink.
  f_equal. apply nextParts_ext. intros h data ctv Hin.
  specialize (Hshrink h data Hin). apply IH; lia.
Qed.

(** [parseBody] satisfies the recursive equation of the source. *)
Lemma parseBody_eq ct body ph :
  parseBody ct body ph =
  match mime_ParseMediaType ct with
  | Err e => ([], Some e)
  | Ok (mt, ps) =>
      match ps !! "boundary" with
      | None =>
          if strings_HasPrefix mt "multipart"
          then ([], Some (errors_New "multipart specified without boundary"))
          else
            match mail_ReadMessage (CRLF +:+ body) with
            | Err e => ([], Some e)
            | Ok (mHeader, _) =>
                ([Part.mk mt (default "" (ps !! "charset")) body
                    (mergeHeaders mHeader ph)], None)
            end
      | Some boundary =>
          let '(segs, err) := multipart_NewReader body boundary in
          (nextParts parseBody segs [], endOfParts err)
      end
  end.
Proof.
  unfold parseBody at 1. simpl.
  destruct (mime_ParseMediaType ct) as [[mt ps]|e]; [|done].
  destruct (ps !! "boundary") as [boundary|]; [|done].
  pose proof (multipart_shrinks body boundary) as Hshrink.
  destruct (multipart_NewReader body boundary) as [segs err]. simpl in Hshrink.
  f_equal. apply nextParts_ext. intros h data ctv Hin.
  specialize (Hshrink h data Hin). unfold parseBody.
  apply parseBody_rec_fuel; lia.
Qed.

End DecomposerFacts.

Section MergeFacts.
Context `{!GoStd}.

Lemma copyInto_union (src dst : Header) : copyInto src dst = src ∪ dst.
Proof.
  unfold copyInto.
  apply (map_fold_weak_ind (λ r m, r = m ∪ dst)).
  - by rewrite (left_id_L ∅ (∪)).
  - intros k v m r _ ->. by rewrite insert_union_l.
Qed.

Lemma mergeHeaders_union (mHeader ph : Header) : mergeHeaders mHeader ph = ph ∪ mHeader.
Proof.
  unfold mergeHeaders. rewrite !copyInto_union. by rewrite (right_id_L ∅ (∪)).
Qed.

Lemma mergeHeaders_lookup (mHeader ph : Header) k :
  mergeHeaders mHeader ph !! k =
  match ph !! k with
  | Some v => Some v
  | None => mHeader !! k
  end.
Proof.
  rewrite mergeHeaders_union, lookup_union.
  by destruct (ph !! k), (mHeader !! k).
Qed.
End MergeFacts.

(** * The claims on the decomposer *)

Section DecomposerClaims.
Context `{!GoStd}.

(** C7. A part of a multipart body that declares no Content-Type header
    ([p.Header.Values("Content-Type")] is empty) is skipped: the result of
    the decomposition, parts and error, is the one of the same run of the
    reader without that part, so the part adds no Part and no error and
    the parts behind it are decomposed as usual. *)
Theorem parseBody_skips_part_without_content_type
    ct body ph mt ps boundary segs1 h data segs2 err :
  mime_ParseMediaType ct = Ok (mt, ps) →
  ps !! "boundary" = Some boundary →
  multipart_NewReader body boundary = (segs1 ++ (h, data) :: segs2, err) →
  default [] (h !! "Content-Type") = [] →
  parseBody ct body ph = (nextParts parseBody (segs1 ++ segs2) [], endOfParts err)
  ∧ nextParts parseBody (segs1 ++ segs2) []
    = nextParts parseBody segs1 [] ++ nextParts parseBody segs2 [].
Proof.
  intros Hct Hb Hr Hnone. rewrite parseBody_eq, Hct, Hb, Hr.
  rewrite !nextParts_flat, !flat_map_app. simpl.
  assert (partsOf parseBody (h, data) = []) as ->.
  { unfold partsOf. simpl. by destruct (h !! "Content-Type") as [[|ctv vs]|]. }
  done.
Qed.

(** C10. When the decomposition of a part of a multipart body fails, the
    error does not reach the caller: the part is emitted as one Part with
    its Content-Type value as type, its raw data and its header, and with
    the charset that the regular expression finds in the Content-Type
    value, "UTF-8" when it finds none; the parts before and behind it are
    decomposed as usual and the error of the whole is the one of the end
    of the reader alone. *)
Theorem parseBody_failed_part_becomes_leaf
    ct body ph mt ps boundary segs1 h data segs2 err ctv vs subparts e :
  mime_ParseMediaType ct = Ok (mt, ps) →
  ps !! "boundary" = Some boundary →
  multipart_NewReader body boundary = (segs1 ++ (h, data) :: segs2, err) →
  h !! "Content-Type" = Some (ctv :: vs) →
  parseBody ctv data h = (subparts, Some e) →
  parseBody ct body ph =
    (nextParts parseBody segs1 [] ++
     [Part.mk ctv
        match regexp_FindStringSubmatch "(?is)charset=(.*)" ctv with
        | _ :: charset :: _ => charset
        | _ => "UTF-8"
        end data h] ++
     nextParts parseBody segs2 [],
     endOfParts err).
Proof.
  intros Hct Hb Hr Hh Hfail. rewrite parseBody_eq, Hct, Hb, Hr.
  rewrite !nextParts_flat, !flat_map_app. simpl.
  assert (partsOf parseBody (h, data) = [fallbackPart ctv data h]) as ->.
  { unfold partsOf. simpl. by rewrite Hh, Hfail. }
  done.
Qed.


End DecomposerClaims.

(** * Nesting *)

Section Nesting.
Context `{!GoStd}.

Lemma nested_parseBody d ct body ph part :
  nested d ct body ph part → parseBody ct body ph = ([part], None).
Proof.
  induction 1 as [ct body ph mt ps mHeader rest Hct Hb Hmt Hm
                 |d ct body ph mt ps boundary h data err ctv vs part Hct Hb Hr He Hh _ IH].
  - by rewrite parseBody_eq, Hct, Hb, Hmt, Hm.
  - rewrite parseBody_eq, Hct, Hb, Hr, He. simpl. by rewrite Hh, IH.
Qed.

(** C3, as the code has it. The decomposition has no cap on the nesting
    and no error for it: a body nested to any depth [d] is decomposed
    down to its innermost leaf. What bounds the recursion is the length
    of the body: a nested call works on a part, which is shorter than the
    body around it, so that any bound on the depth above that length
    changes nothing. *)
Theorem parseBody_nesting_uncapped d ct body ph part :
  nested d ct body ph part →
  parseBody ct body ph = ([part], None)
  ∧ ∀ fuel, String.length body < fuel →
      parseBody_rec fuel ct body ph = ([part], None).
Proof.
  intros Hn. pose proof (nested_parseBody _ _ _ _ _ Hn) as Hp. split; [done|].
  intros fuel Hfuel. rewrite <- Hp. unfold parseBody. apply parseBody_rec_fuel; lia.
Qed.

End Nesting.

(** * The claims on the assembler *)

Section AssemblerFacts.
Context `{!GoStd} `{!Collaborators}.

Lemma string_app_empty_r (s : string) : s +:+ "" = s.
Proof.
  induction s as [|c s IH]; [done|].
  change (String c (s +:+ "") = String c s). by rewrite IH.
Qed.

(** The body branch of [handleMessage], once the headers are done. *)
Lemma handleMessage_body r :
  let msg := (handleHeaders r).1 in
  let errors := (handleHeaders r).2 in
  Message.ContentType msg ≠ "" →
  handleMessage r =
    let '(parts, e) := parseBody (Message.ContentType msg) (RawMessage.Body r) ∅ in
    match e with
    | Some e =>
        Returned (Message.withText (RawMessage.Body r) msg,
                  errors ++ [fmt_Errorf "body parser: " e ""])
    | None =>
        '(msg, errors, parts) ← rangeParts 0 parts (msg, errors, parts);
        let msg := Message.withParts parts msg in
        parts0 ← index0 parts;
        Returned (Message.withText (Part.Data parts0)
                    (Message.withContentType (Part.Type_ parts0) msg), errors)
    end.
Proof.
  intros msg errors Hct. unfold handleMessage. subst msg errors.
  destruct (handleHeaders r) as [msg errors]. simpl in *.
  apply String.eqb_neq in Hct. by rewrite Hct.
Qed.

(** When the decomposition succeeds, the text of the message is the data
    of the first part, whatever the loop over the parts has assigned. *)
Lemma handleMessage_text_is_first_part r parts msg' errors' parts' :
  let msg := (handleHeaders r).1 in
  let errors := (handleHeaders r).2 in
  Message.ContentType msg ≠ "" →
  parseBody (Message.ContentType msg) (RawMessage.Body r) ∅ = (parts, None) →
  rangeParts 0 parts (msg, errors, parts) = Returned (msg', errors', parts') →
  handleMessage r =
    match parts' with
    | parts0 :: _ =>
        Returned (Message.withText (Part.Data parts0)
                    (Message.withContentType (Part.Type_ parts0)
                       (Message.withParts parts' msg')), errors')
    | [] => Panic "runtime error: index out of range [0] with length 0"
    end.
Proof.
  intros msg errors Hct Hp Hr. rewrite (handleMessage_body _ Hct). fold msg errors.
  rewrite Hp, Hr. simpl. by destruct parts'.
Qed.

(** C5. When the decomposition of the body under the Content-Type of the
    message returns an error, [handleMessage] still returns a Message: it
    is the message of the headers with the raw body as text, and the
    failure is appended to the list of errors. *)
Theorem handleMessage_body_failure_is_recorded r parts e :
  let msg := (handleHeaders r).1 in
  let errors := (handleHeaders r).2 in
  Message.ContentType msg ≠ "" →
  parseBody (Message.ContentType msg) (RawMessage.Body r) ∅ = (parts, Some e) →
  handleMessage r =
    Returned (Message.withText (RawMessage.Body r) msg,
              errors ++ [errors_New ("body parser: " +:+ Error e)]).
Proof.
  intros msg errors Hct Hp. rewrite (handleMessage_body _ Hct). fold msg errors.
  rewrite Hp. unfold fmt_Errorf. by rewrite string_app_empty_r.
Qed.

(** C4, as the code has it. A Content-Type whose media type starts with
    "multipart" and that has no boundary parameter makes the decomposer
    fail, and the assembler treats this failure like any other failure of
    the decomposer: the parse does not stop; it returns the Message of the
    headers with the raw body as text, and the error is an entry of the
    list of errors. *)
Theorem Parse_multipart_without_boundary_is_recorded data r mt ps :
  ParseRaw data = Ok r →
  let msg := (handleHeaders r).1 in
  let errors := (handleHeaders r).2 in
  Message.ContentType msg ≠ "" →
  mime_ParseMediaType (Message.ContentType msg) = Ok (mt, ps) →
  ps !! "boundary" = None →
  strings_HasPrefix mt "multipart" = true →
  let recorded :=
    errors ++ [errors_New "body parser: multipart specified without boundary"] in
  parseBody (Message.ContentType msg) (RawMessage.Body r) ∅
    = ([], Some (errors_New "multipart specified without boundary"))
  ∧ handleMessage r = Returned (Message.withText (RawMessage.Body r) msg, recorded)
  ∧ Parse data =
      Returned (Message.withHeaders (extractHeaders (RawMessage.Body r) data)
                  (Message.withBody (RawMessage.Body r)
                     (Message.withText (RawMessage.Body r) msg)),
                recorded).
Proof.
  intros Hraw msg errors Hct Hmt Hb Hpre recorded.
  assert (parseBody (Message.ContentType msg) (RawMessage.Body r) ∅
          = ([], Some (errors_New "multipart specified without boundary"))) as Hp.
  { by rewrite parseBody_eq, Hmt, Hb, Hpre. }
  assert (handleMessage r = Returned (Message.withText (RawMessage.Body r) msg, recorded))
    as Hm.
  { rewrite (handleMessage_body _ Hct). fold msg errors. by rewrite Hp. }
  split; [done|]. split; [done|]. unfold Parse. by rewrite Hraw, Hm.
Qed.

(** A decomposition that succeeds with no part at all makes
    [handleMessage] panic at [parts[0]]. *)
Lemma handleMessage_no_parts_panics r :
  let msg := (handleHeaders r).1 in
  Message.ContentType msg ≠ "" →
  parseBody (Message.ContentType msg) (RawMessage.Body r) ∅ = ([], None) →
  handleMessage r = Panic "runtime error: index out of range [0] with length 0".
Proof.
  intros msg Hct Hp. rewrite (handleMessage_body _ Hct). fold msg. by rewrite Hp.
Qed.



End AssemblerFacts.

(** * The claim on the address list *)

Lemma slice_prefix {A} (pre rest : list A) l :
  (l ≤ length pre)%nat → slice (pre ++ rest) l (length pre) = drop l pre.
Proof.
  intros Hl. unfold slice. rewrite drop_app_le by done.
  rewrite take_app_le by (rewrite length_drop; lia).
  apply take_ge. rewrite length_drop. lia.
Qed.

Lemma split_loop_pieces s rest : ∀ pre r l,
  (l ≤ length pre)%nat →
  (let '(r', l') := split_loop (pre ++ rest) rest s (length pre) r l in
   if decide (l' ≠ length (pre ++ rest)) then r' ++ [drop l' (pre ++ rest)] else r')
  = r ++ pieces s rest (drop l pre).
Proof.
  induction rest as [|t rest IH]; intros pre r l Hl.
  - simpl. rewrite app_nil_r. destruct (decide (l ≠ length pre)) as [Hne|Heq].
    + destruct (drop l pre) as [|x cur] eqn:E; [|done].
      apply (f_equal length) in E. rewrite length_drop in E. simpl in E. lia.
    + assert (l = length pre) as -> by lia. by rewrite drop_all, app_nil_r.
  - simpl. specialize (IH (pre ++ [t])).
    rewrite <- (app_assoc pre [t] rest) in IH. simpl in IH.
    rewrite length_app in IH. simpl in IH. rewrite Nat.add_1_r in IH.
    destruct (String.eqb t s).
    + rewrite slice_prefix by done.
      rewrite (IH (r ++ [drop l pre]) (S (length pre))) by lia.
      replace (drop (S (length pre)) (pre ++ [t])) with (@nil token).
      * by rewrite <- app_assoc.
      * symmetry. apply drop_ge. rewrite length_app. simpl. lia.
    + rewrite (IH r l) by lia. by rewrite drop_app_le.
Qed.

(** [split] computes the pieces. *)
Lemma split_pieces ts s : split ts s = pieces s ts [].
Proof.
  unfold split. pose proof (split_loop_pieces s ts [] [] 0) as H.
  simpl in H. destruct (split_loop ts ts s 0 [] 0) as [r l]. by apply H.
Qed.

Lemma pieces_free s ts : ∀ cur,
  s ∉ cur → Forall (λ piece, s ∉ piece) (pieces s ts cur).
Proof.
  induction ts as [|t ts IH]; intros cur Hcur; simpl.
  - destruct cur; by repeat constructor.
  - destruct (String.eqb_spec t s) as [->|Hne].
    + constructor; [done|]. apply IH. by intros ?%elem_of_nil.
    + apply IH. intros [?|?%list_elem_of_singleton]%elem_of_app; by subst.
Qed.

Section AddressListFacts.

Lemma joinComma_cons t x pieces :
  joinComma (t :: x :: pieces) = t ++ "," :: joinComma (x :: pieces).
Proof. done. Qed.

Lemma joinComma_pending init t : joinComma (init ++ [t]) = pending init ++ t.
Proof.
  induction init as [|t' init IH]; [done|].
  rewrite <- app_comm_cons. unfold pending in *. cbn [flat_map].
  destruct (init ++ [t]) as [|x l] eqn:E; [by destruct init|].
  rewrite joinComma_cons, IH. by rewrite <- !app_assoc.
Qed.

Lemma pending_snoc init t : pending (init ++ [t]) = pending init ++ t ++ [","].
Proof. unfold pending. rewrite flat_map_app. simpl. by rewrite app_nil_r. Qed.

Lemma accumulate_runs_from stb : ∀ init n i vsb,
  n = i + length stb →
  Forall noAt init →
  stb ≠ [] ∨ init = [] →
  ∃ vs, accumulate n i stb (pending init) vsb = vsb ++ vs ∧ Runs (init ++ stb) vs.
Proof.
  induction stb as [|t stb IH]; intros init n i vsb Hn Hinit Hne.
  - destruct Hne as [?| ->]; [done|]. exists []. simpl. rewrite app_nil_r.
    split; [done|]. constructor.
  - simpl. simpl in Hn.
    destruct stb as [|t2 stb].
    + simpl in Hn. assert (Nat.eqb i (n - 1) = true) as -> by (apply Nat.eqb_eq; lia).
      rewrite orb_true_r. cbn [negb andb].
      exists [pending init ++ t]. split; [done|].
      rewrite <- joinComma_pending. by constructor.
    + simpl in Hn. assert (Nat.eqb i (n - 1) = false) as -> by (apply Nat.eqb_neq; lia).
      rewrite orb_false_r. cbn [negb andb].
      destruct (hasAt t) eqn:Hat; cbn [negb].
      * destruct (IH [] n (S i) (vsb ++ [pending init ++ t])) as (vs & Hacc & Hruns);
          [simpl; lia|done|by left|].
        exists ((pending init ++ t) :: vs). split.
        { change (pending []) with (@nil token) in Hacc. rewrite Hacc.
          by rewrite <- app_assoc. }
        rewrite <- joinComma_pending. by constructor.
      * destruct (IH (init ++ [t]) n (S i) vsb) as (vs & Hacc & Hruns);
          [simpl; lia|by apply Forall_app; split; [|constructor]|by left|].
        exists vs. split.
        { rewrite pending_snoc, app_assoc in Hacc. exact Hacc. }
        by rewrite <- app_assoc in Hruns.
Qed.

Lemma accumulate_runs stb : Runs stb (accumulate (length stb) 0 stb [] []).
Proof.
  destruct (accumulate_runs_from stb [] (length stb) 0 []) as (vs & Hacc & Hruns);
    [done|done|by right|].
  change (pending []) with (@nil token) in Hacc. by rewrite Hacc.
Qed.

Context `{!Collaborators}.

Lemma parseRuns_ok vsb : ∀ al al',
  parseRuns vsb al = (al', None) →
  ∃ new, al' = al ++ new ∧ Forall2 (λ run a, parseAddress run = Ok a) vsb new.
Proof.
  induction vsb as [|ts vsb IH]; intros al al'; simpl.
  - intros [= <-]. exists []. by rewrite app_nil_r.
  - destruct (parseAddress ts) as [a|e] eqn:Ha; [|done].
    intros (new & -> & Hall)%IH. exists (a :: new).
    rewrite <- app_assoc. split; [done|]. by constructor.
Qed.

End AddressListFacts.

(** C6. Whatever the lexer and the mailbox parser are: the token stream is
    cut at its comma tokens into pieces free of commas, and the pieces are
    gathered into runs ([Runs]: a run is closed by a piece with an [@] or by
    the last piece, and the commas inside a run are put back); the runs are
    parsed in order, and when all parse there is exactly one Address for
    each run. With the lexer and the mailbox parser of the spec, the example
    of the spec parses to two addresses, [Doe, John <john@x.com>] and
    [jane@y.com]. *)
Theorem parseAddressList_runs :
  (∀ (C : Collaborators) (s : string) (ts : list token),
     tokenize (match decodeRFC2047 s with Ok dd => dd | Err _ => s end) = Ok ts →
     Forall (λ piece, "," ∉ piece) (split ts ",")
     ∧ ∃ vsb,
         Runs (split ts ",") vsb
         ∧ parseAddressList s = parseRuns vsb []
         ∧ ∀ al, parseAddressList s = (al, None) →
                 Forall2 (λ run a, parseAddress run = Ok a) vsb al)
  ∧ @parseAddressList refcollab doe_and_jane =
      ([Some (Ref.MailboxAddress (Ref.mkMailbox "Doe, John" "john" "x.com"));
        Some (Ref.MailboxAddress (Ref.mkMailbox "" "jane" "y.com"))], None).
Proof.
  split; [|compute_done].
  intros C s ts Hts. split.
  { rewrite split_pieces. apply pieces_free. by intros ?%elem_of_nil. }
  exists (accumulate (length (split ts ",")) 0 (split ts ",") [] []).
  assert (parseAddressList s
          = parseRuns (accumulate (length (split ts ",")) 0 (split ts ",") [] []) []) as Heq.
  { unfold parseAddressList. by rewrite Hts. }
  split; [apply accumulate_runs|]. split; [done|].
  intros al Hal. rewrite Heq in Hal.
  by apply parseRuns_ok in Hal as (new & -> & Hall).
Qed.

(** * Further properties

    ** The pieces of a token stream *)

Lemma pieces_nil s ts cur : pieces s ts cur = [] → ts = [] ∧ cur = [].
Proof.
  revert cur. induction ts as [|t ts IH]; intros cur; simpl.
  - by destruct cur.
  - destruct (String.eqb t s); [done|]. intros [_ ?]%IH. by destruct cur.
Qed.

Lemma joinWith_cons s t x pieces :
  joinWith s (t :: x :: pieces) = t ++ s :: joinWith s (x :: pieces).
Proof. done. Qed.

Lemma joinComma_joinWith pieces : joinComma pieces = joinWith "," pieces.
Proof.
  induction pieces as [|t [|x pieces] IH]; [done..|].
  by rewrite joinComma_cons, joinWith_cons, IH.
Qed.

Lemma pieces_join s ts : ∀ cur,
  s ∉ cur →
  joinWith s (pieces s ts cur)
    ++ (if bool_decide (last (cur ++ ts) = Some s) then [s] else [])
  = cur ++ ts.
Proof.
  induction ts as [|t ts IH]; intros cur Hcur.
  - simpl. rewrite app_nil_r. rewrite bool_decide_eq_false_2.
    + destruct cur; simpl; by rewrite ?app_nil_r.
    + intros Hl. apply last_Some in Hl as [l' ->]. apply Hcur. set_solver.
  - cbn [pieces]. destruct (String.eqb_spec t s) as [->|Hne].
    + specialize (IH [] (not_elem_of_nil _)). rewrite app_nil_l in IH.
      rewrite last_app_cons.
      destruct (pieces s ts []) as [|x l] eqn:E.
      * apply pieces_nil in E as [-> _]. simpl.
        by rewrite bool_decide_eq_true_2.
      * rewrite joinWith_cons, <- app_assoc. simpl. f_equal. f_equal.
        rewrite last_cons. destruct (last ts) as [y|] eqn:El; [done|].
        apply last_None in El as ->. done.
    + specialize (IH (cur ++ [t])). rewrite <- app_assoc in IH. apply IH.
      intros [?|?%list_elem_of_singleton]%elem_of_app; by subst.
Qed.

(** X1. [split] loses nothing but a separator at the very end: the pieces,
    put back together with the separator between them, are the token
    stream, less its last token when that is the separator. *)
Theorem split_join ts s :
  joinWith s (split ts s) ++ (if bool_decide (last ts = Some s) then [s] else []) = ts.
Proof.
  rewrite split_pieces. apply (pieces_join s ts []). apply not_elem_of_nil.
Qed.

Lemma pieces_length s ts : ∀ cur,
  length (pieces s ts cur) =
  length (filter (λ t, t = s) ts) +
  match last ts with
  | Some t => if bool_decide (t = s) then 0 else 1
  | None => if bool_decide (cur = []) then 0 else 1
  end.
Proof.
  induction ts as [|t ts IH]; intros cur.
  - cbn [pieces last]. rewrite filter_nil. by destruct cur.
  - cbn [pieces]. rewrite last_cons. destruct (String.eqb_spec t s) as [->|Hne].
    + rewrite filter_cons_True by done. cbn [length]. rewrite (IH []).
      destruct (last ts); [done|]. by rewrite !bool_decide_eq_true_2.
    + rewrite filter_cons_False by done. rewrite (IH (cur ++ [t])).
      destruct (last ts); [done|]. rewrite !bool_decide_eq_false_2; [done..|].
      by intros [? ?]%app_eq_nil.
Qed.

(** X2. [split] makes one piece for each separator of the stream, and one
    more when the stream ends with a token that is not the separator: a
    separator at the start makes an empty first piece, a separator at the end
    makes no piece behind it, and an empty stream has no piece. *)
Theorem split_length ts s :
  length (split ts s) =
  length (filter (λ t, t = s) ts) +
  match last ts with
  | Some t => if bool_decide (t = s) then 0 else 1
  | None => 0
  end.
Proof. by rewrite split_pieces, pieces_length. Qed.

(** ** The address list *)

Lemma joinWith_app s a b :
  a ≠ [] → b ≠ [] → joinWith s (a ++ b) = joinWith s a ++ s :: joinWith s b.
Proof.
  intros Ha Hb. induction a as [|t [|x a] IH]; [done| |].
  - simpl. by destruct b.
  - rewrite <- !app_comm_cons, !joinWith_cons, <- app_assoc. simpl.
    f_equal. f_equal. by apply IH.
Qed.

Lemma Runs_nonempty stb vsb : Runs stb vsb → stb ≠ [] → vsb ≠ [].
Proof. by destruct 1. Qed.

Lemma Runs_join stb vsb : Runs stb vsb → joinWith "," vsb = joinWith "," stb.
Proof.
  induction 1 as [|init t Hinit|init t stb vsb Hinit Hat Hne Hruns IH].
  - done.
  - cbn [joinWith]. apply joinComma_joinWith.
  - pose proof (Runs_nonempty _ _ Hruns Hne) as Hvsb.
    destruct vsb as [|run vsb]; [done|]. rewrite joinWith_cons, IH.
    rewrite joinComma_joinWith.
    rewrite (cons_middle t init stb), app_assoc.
    rewrite (joinWith_app _ (init ++ [t]) stb); [done|by intros [? ?]%app_eq_nil|done].
Qed.

Lemma accumulate_each stb : ∀ n i vsb,
  Forall (λ piece, hasAt piece = true) stb →
  accumulate n i stb [] vsb = vsb ++ stb.
Proof.
  induction stb as [|t stb IH]; intros n i vsb Hall; simpl.
  - by rewrite app_nil_r.
  - apply Forall_cons in Hall as [-> Hall]. rewrite andb_false_r. simpl.
    rewrite IH by done. by rewrite <- app_assoc.
Qed.

Section AddressListMore.
Context `{!Collaborators}.

Lemma parseRuns_err vsb : ∀ al al' e,
  parseRuns vsb al = (al', Some e) →
  ∃ vsb1 run vsb2 new,
    vsb = vsb1 ++ run :: vsb2 ∧ al' = al ++ new
    ∧ Forall2 (λ run a, parseAddress run = Ok a) vsb1 new
    ∧ parseAddress run = Err e.
Proof.
  induction vsb as [|ts vsb IH]; intros al al' e; simpl; [done|].
  destruct (parseAddress ts) as [a|e'] eqn:Ha.
  - intros (vsb1 & run & vsb2 & new & -> & -> & Hall & Herr)%IH.
    exists (ts :: vsb1), run, vsb2, (a :: new). rewrite <- app_assoc.
    split; [done|]. split; [done|]. split; [by constructor|done].
  - intros [= <- <-]. exists [], ts, vsb, []. by rewrite app_nil_r.
Qed.

(** X3. The runs that [parseAddressList] hands to the mailbox parser, put
    back together with commas between them, are the token stream of the
    lexer, less a comma at its very end: the cutting and the grouping lose
    and reorder nothing. *)
Theorem parseAddressList_keeps_tokens s ts :
  tokenize (match decodeRFC2047 s with Ok dd => dd | Err _ => s end) = Ok ts →
  ∃ vsb,
    parseAddressList s = parseRuns vsb []
    ∧ joinWith "," vsb ++ (if bool_decide (last ts = Some ",") then [","] else []) = ts.
Proof.
  intros Hts. exists (accumulate (length (split ts ",")) 0 (split ts ",") [] []).
  split; [unfold parseAddressList; by rewrite Hts|].
  rewrite (Runs_join _ _ (accumulate_runs (split ts ","))), split_pieces.
  apply (pieces_join "," ts []), not_elem_of_nil.
Qed.

(** X4. When a run does not parse, [parseAddressList] returns the error of
    that run together with the addresses of the runs before it, and the
    runs behind it are not parsed. *)
Theorem parseAddressList_stops_at_first_failure s ts al e :
  tokenize (match decodeRFC2047 s with Ok dd => dd | Err _ => s end) = Ok ts →
  parseAddressList s = (al, Some e) →
  ∃ vsb1 run vsb2,
    Runs (split ts ",") (vsb1 ++ run :: vsb2)
    ∧ Forall2 (λ run a, parseAddress run = Ok a) vsb1 al
    ∧ parseAddress run = Err e.
Proof.
  intros Hts. unfold parseAddressList. rewrite Hts.
  intros (vsb1 & run & vsb2 & new & Hvsb & -> & Hall & Herr)%parseRuns_err.
  exists vsb1, run, vsb2. rewrite <- Hvsb. split; [apply accumulate_runs|done].
Qed.

(** X5. In a list each of whose pieces between commas holds an [@], every
    piece is a run of its own: the addresses are parsed piece by piece. *)
Theorem parseAddressList_piecewise s ts :
  tokenize (match decodeRFC2047 s with Ok dd => dd | Err _ => s end) = Ok ts →
  Forall (λ piece, hasAt piece = true) (split ts ",") →
  parseAddressList s = parseRuns (split ts ",") [].
Proof.
  intros Hts Hall. unfold parseAddressList. rewrite Hts.
  by rewrite accumulate_each.
Qed.

End AddressListMore.

(** ** The decomposer *)

Section DecomposerMore.
Context `{!GoStd}.
Implicit Types (rec : string → string → Header → list Part * option error).

Lemma elem_of_partsOf rec seg p :
  p ∈ partsOf rec seg →
  ∃ ctv vs, seg.1 !! "Content-Type" = Some (ctv :: vs)
    ∧ (p ∈ (rec ctv seg.2 seg.1).1 ∨ p = fallbackPart ctv seg.2 seg.1).
Proof.
  unfold partsOf.
  destruct (seg.1 !! "Content-Type") as [[|ctv vs]|];
    [by intros ?%elem_of_nil| |by intros ?%elem_of_nil].
  intros Hp. exists ctv, vs. split; [done|].
  destruct (rec ctv seg.2 seg.1) as [subparts [e|]]; simpl.
  - right. by apply list_elem_of_singleton in Hp.
  - by left.
Qed.

Lemma parseBody_rec_data_length fuel : ∀ ct body ph,
  Forall (λ p, (String.length (Part.Data p) ≤ String.length body)%nat)
    (parseBody_rec fuel ct body ph).1.
Proof.
  induction fuel as [|fuel IH]; intros ct body ph; simpl; [constructor|].
  destruct (mime_ParseMediaType ct) as [[mt ps]|e]; [|constructor].
  destruct (ps !! "boundary") as [boundary|].
  - pose proof (multipart_shrinks body boundary) as Hshrink.
    destruct (multipart_NewReader body boundary) as [segs err]. simpl in *.
    rewrite nextParts_flat. simpl. apply Forall_forall. intros p Hp.
    apply list_elem_of_In, in_flat_map in Hp
      as ([h data] & Hseg%list_elem_of_In & Hp%list_elem_of_In).
    specialize (Hshrink h data Hseg).
    apply elem_of_partsOf in Hp as (ctv & vs & _ & [Hp| ->]); simpl in *.
    + specialize (IH ctv data h). rewrite Forall_forall in IH.
      specialize (IH p Hp). simpl in IH. lia.
    + lia.
  - destruct (strings_HasPrefix mt "multipart"); [constructor|].
    destruct (mail_ReadMessage (CRLF +:+ body)) as [[mHeader rest]|e]; [|constructor].
    simpl. by repeat constructor.
Qed.

(** X6. No part holds more bytes than the body it was taken from. *)
Theorem parseBody_data_length ct body ph :
  Forall (λ p, (String.length (Part.Data p) ≤ String.length body)%nat) (parseBody ct body ph).1.
Proof. apply parseBody_rec_data_length. Qed.

(** X7. The inherited headers matter to a leaf only: under a content type
    with a boundary parameter the decomposition does not depend on them. *)
Theorem parseBody_multipart_ignores_inherited ct body ph ph' mt ps boundary :
  mime_ParseMediaType ct = Ok (mt, ps) →
  ps !! "boundary" = Some boundary →
  parseBody ct body ph = parseBody ct body ph'.
Proof. intros Hct Hb. by rewrite !parseBody_eq, Hct, Hb. Qed.

Lemma parseBody_rec_typed fuel : ∀ ct body ph vs,
  ph !! "Content-Type" = Some (ct :: vs) →
  Forall typedByOwnHeader (parseBody_rec fuel ct body ph).1.
Proof.
  induction fuel as [|fuel IH]; intros ct body ph vs Hph; simpl; [constructor|].
  destruct (mime_ParseMediaType ct) as [[mt ps]|e] eqn:Hct; [|constructor].
  destruct (ps !! "boundary") as [boundary|].
  - destruct (multipart_NewReader body boundary) as [segs err]. simpl.
    rewrite nextParts_flat. simpl. apply Forall_forall. intros p Hp.
    apply list_elem_of_In, in_flat_map in Hp as ([h data] & _ & Hp%list_elem_of_In).
    apply elem_of_partsOf in Hp as (ctv & vs' & Hh & [Hp| ->]); simpl in *.
    + specialize (IH ctv data h vs' Hh). rewrite Forall_forall in IH. by apply IH.
    + exists ctv, vs'. split; [done|]. by right.
  - destruct (strings_HasPrefix mt "multipart"); [constructor|].
    destruct (mail_ReadMessage (CRLF +:+ body)) as [[mHeader rest]|e]; [|constructor].
    simpl. repeat constructor. exists ct, vs. simpl. split.
    + by rewrite mergeHeaders_lookup, Hph.
    + left. by exists ps.
Qed.

(** X8. Every part of the decomposition of a multipart body carries a
    Content-Type header, and its type and charset are those of the first
    value of that header. *)
Theorem parseBody_parts_typed_by_own_header ct body ph mt ps boundary :
  mime_ParseMediaType ct = Ok (mt, ps) →
  ps !! "boundary" = Some boundary →
  Forall typedByOwnHeader (parseBody ct body ph).1.
Proof.
  intros Hct Hb. rewrite parseBody_eq, Hct, Hb.
  destruct (multipart_NewReader body boundary) as [segs err]. simpl.
  rewrite nextParts_flat. simpl. apply Forall_forall. intros p Hp.
  apply list_elem_of_In, in_flat_map in Hp as ([h data] & _ & Hp%list_elem_of_In).
  apply elem_of_partsOf in Hp as (ctv & vs' & Hh & [Hp| ->]); simpl in *.
  - pose proof (parseBody_rec_typed (S (String.length data)) ctv data h vs' Hh) as Hall.
    rewrite Forall_forall in Hall. by apply Hall.
  - exists ctv, vs'. split; [done|]. by right.
Qed.

End DecomposerMore.

(** ** The transfer decoding *)

Lemma valued_lookup (h : Header) k : valued h → h !! k ≠ Some [].
Proof. intros Hv Hk. by apply (Hv k []). Qed.

Section TransferDecodingMore.
Context `{!GoStd} `{!Collaborators}.

Lemma decodeContentTransferEncoding_returns msgHeaders partHeaders toDecode :
  valued msgHeaders → valued partHeaders →
  ∃ out, decodeContentTransferEncoding msgHeaders partHeaders toDecode = Returned out.
Proof.
  intros Hm Hp. unfold decodeContentTransferEncoding.
  pose proof (valued_lookup _ "Content-Transfer-Encoding" Hm).
  pose proof (valued_lookup _ "Content-Transfer-Encoding" Hp).
  destruct (partHeaders !! "Content-Transfer-Encoding") as [[|enc vs]|]; [done| |].
  - simpl. destruct (String.eqb _ "base64").
    + destruct (base64_DecodeString toDecode) as [decoded [e|]]; by eexists.
    + destruct (String.eqb _ "quoted-printable"); by eexists.
  - destruct (msgHeaders !! "Content-Transfer-Encoding") as [[|enc vs]|]; [done| |];
      simpl; (destruct (String.eqb _ "base64");
        [destruct (base64_DecodeString toDecode) as [decoded [e|]]; by eexists
        |destruct (String.eqb _ "quoted-printable"); by eexists]).
Qed.


End TransferDecodingMore.

(** ** The loop over the headers *)

Lemma foldl_last_wins {A B} (p : B → Prop) `{!∀ x, Decision (p x)} (g : B → A) l : ∀ a0,
  foldl (λ a x, if decide (p x) then g x else a) a0 l = default a0 (g <$> last (filter p l)).
Proof.
  induction l as [|x l IH]; intros a0; [done|]. cbn [foldl]. rewrite IH.
  destruct (decide (p x)).
  - rewrite filter_cons_True by done. rewrite last_cons. by destruct (last (filter p l)).
  - by rewrite filter_cons_False.
Qed.

Lemma foldl_accumulate {A B} (p : B → Prop) `{!∀ x, Decision (p x)} (g : B → list A) l :
  ∀ a0,
  foldl (λ a x, if decide (p x) then a ++ g x else a) a0 l = a0 ++ flat_map g (filter p l).
Proof.
  induction l as [|x l IH]; intros a0; cbn [foldl].
  - by rewrite app_nil_r.
  - rewrite IH. destruct (decide (p x)).
    + rewrite filter_cons_True by done. simpl. by rewrite app_assoc.
    + by rewrite filter_cons_False.
Qed.

Lemma last_map {A B} (f : A → B) l : last (map f l) = f <$> last l.
Proof. induction l as [|x [|y l] IH]; [done..|]. exact IH. Qed.

Lemma flat_map_map {A B C} (f : A → B) (g : B → list C) l :
  flat_map g (map f l) = flat_map (λ x, g (f x)) l.
Proof. induction l as [|x l IH]; [done|]. simpl. by rewrite IH. Qed.

Lemma flat_map_singleton {A B} (f : A → B) l : flat_map (λ x, [f x]) l = map f l.
Proof. induction l as [|x l IH]; [done|]. simpl. by rewrite IH. Qed.

Lemma trimRight_keeps cutset b w :
  in_cutset cutset b = false → trimRight cutset (w +:+ String b "") = w +:+ String b "".
Proof.
  intros Hb. induction w as [|c w IH].
  - change (trimRight cutset (String b "") = String b ""). simpl. by rewrite Hb.
  - change (trimRight cutset (String c (w +:+ String b "")) = String c (w +:+ String b "")).
    cbn [trimRight]. rewrite IH. by destruct w.
Qed.

Lemma strings_Trim_keeps cutset a w b :
  in_cutset cutset a = false → in_cutset cutset b = false →
  strings_Trim (String a (w +:+ String b "")) cutset = String a (w +:+ String b "").
Proof.
  intros Ha Hb. unfold strings_Trim.
  change (String a (w +:+ String b "")) with (String a w +:+ String b "").
  rewrite trimRight_keeps by done.
  change (String a w +:+ String b "") with (String a (w +:+ String b "")).
  simpl. by rewrite Ha.
Qed.

Lemma in_cutset_angle (c : ascii) :
  c ≠ "<"%char → c ≠ ">"%char → in_cutset "<>" c = false.
Proof.
  intros H1 H2. unfold in_cutset. simpl.
  by destruct (ascii_dec c "<"), (ascii_dec c ">").
Qed.

Section HeadersMore.
Context `{!GoStd} `{!Collaborators}.

(** The cases of the switch of [handleHeader]. *)
Ltac header_cases :=
  unfold handleHeader;
  repeat match goal with
  | |- context [String.eqb ?a ?b] => destruct (String.eqb_spec a b)
  | |- context [parseAddressList ?v] => destruct (parseAddressList v) as [? [?|]]
  | |- context [ParseAddress ?v] => destruct (ParseAddress v) as [? [?|]]
  | |- context [Decode ?v] => destruct (Decode v) as [? [?|]]
  end.

Ltac header_field := header_cases; simpl; repeat case_decide; try done; congruence.

Lemma foldl_handleHeader_field {A} (f : Message → A) (upd : RawHeader → A → A) :
  (∀ msg errors rh, f (handleHeader (msg, errors) rh).1 = upd rh (f msg)) →
  ∀ l st, f (foldl handleHeader st l).1 = foldl (λ a rh, upd rh a) (f st.1) l.
Proof.
  intros Hupd. induction l as [|rh l IH]; intros [msg errors]; [done|].
  cbn [foldl]. rewrite IH. by rewrite Hupd.
Qed.

Lemma handleHeaders_fst r :
  (handleHeaders r).1 =
  defaultSender (foldl handleHeader (Message.zero, []) (RawMessage.RawHeaders r)).1.
Proof. unfold handleHeaders. by destruct (foldl _ _ _). Qed.

Lemma handleHeaders_snd r :
  (handleHeaders r).2 = (foldl handleHeader (Message.zero, []) (RawMessage.RawHeaders r)).2.
Proof. unfold handleHeaders. by destruct (foldl _ _ _). Qed.

(** [defaultSender] changes the sender only. *)
Lemma defaultSender_frame {A} (f : Message → A) msg :
  (∀ a m, f (Message.withSender a m) = f m) → f (defaultSender msg) = f msg.
Proof.
  intros Hf. unfold defaultSender. destruct (Message.Sender msg); [done|].
  by destruct (Message.From msg).
Qed.

(** A field that the loop over the headers updates by [upd]. *)
Lemma handleHeaders_field {A} (f : Message → A) (upd : RawHeader → A → A) r :
  (∀ a m, f (Message.withSender a m) = f m) →
  (∀ msg errors rh, f (handleHeader (msg, errors) rh).1 = upd rh (f msg)) →
  f (handleHeaders r).1 = foldl (λ a rh, upd rh a) (f Message.zero) (RawMessage.RawHeaders r).
Proof.
  intros Hs Hupd. rewrite handleHeaders_fst, defaultSender_frame by done.
  by rewrite (foldl_handleHeader_field f upd).
Qed.

Lemma handleHeader_ParsedHeaders msg errors rh :
  Message.ParsedHeaders (handleHeader (msg, errors) rh).1 =
  <[Key rh := default [] (Message.ParsedHeaders msg !! Key rh) ++ [Value rh]]>
    (Message.ParsedHeaders msg).
Proof. header_cases; reflexivity. Qed.

Lemma foldl_ParsedHeaders k l : ∀ (ph : Header),
  (∀ k, ph !! k ≠ Some []) →
  foldl (λ ph rh, <[Key rh := default [] (ph !! Key rh) ++ [Value rh]]> ph) ph l !! k =
  match default [] (ph !! k) ++ map Value (filter (λ rh, Key rh = k) l) with
  | [] => None
  | vs => Some vs
  end.
Proof.
  induction l as [|rh l IH]; intros ph Hph.
  - simpl. rewrite app_nil_r. specialize (Hph k). by destruct (ph !! k) as [[|v vs]|].
  - cbn [foldl]. rewrite IH.
    + destruct (decide (Key rh = k)) as [<-|Hne].
      * rewrite lookup_insert_eq, filter_cons_True by done. simpl. by rewrite <- app_assoc.
      * by rewrite lookup_insert_ne, filter_cons_False.
    + intros k'. destruct (decide (Key rh = k')) as [<-|Hne].
      * rewrite lookup_insert_eq. intros [= Heq]. by apply app_eq_nil in Heq as [_ ?].
      * rewrite lookup_insert_ne by done. apply Hph.
Qed.

Lemma handleHeaders_ParsedHeaders_fold r :
  Message.ParsedHeaders (handleHeaders r).1 =
  foldl (λ ph rh, <[Key rh := default [] (ph !! Key rh) ++ [Value rh]]> ph) ∅
    (RawMessage.RawHeaders r).
Proof.
  by rewrite (handleHeaders_field Message.ParsedHeaders
                (λ rh ph, <[Key rh := default [] (ph !! Key rh) ++ [Value rh]]> ph));
    [|done|apply handleHeader_ParsedHeaders].
Qed.

(** X10. The parsed headers hold, under each header name as the message
    spells it, the values of all the headers of that name, in the order of
    the message; a name that no header has is not a key, and no key has an
    empty list of values. *)
Theorem handleHeaders_ParsedHeaders r k :
  Message.ParsedHeaders (handleHeaders r).1 !! k =
  match map Value (filter (λ rh, Key rh = k) (RawMessage.RawHeaders r)) with
  | [] => None
  | vs => Some vs
  end.
Proof.
  rewrite handleHeaders_ParsedHeaders_fold.
  rewrite foldl_ParsedHeaders; [|intros k'; by rewrite lookup_empty].
  by rewrite lookup_empty.
Qed.

Lemma handleHeaders_valued r : valued (Message.ParsedHeaders (handleHeaders r).1).
Proof.
  intros k vs. rewrite handleHeaders_ParsedHeaders_fold.
  rewrite foldl_ParsedHeaders; [|intros k'; by rewrite lookup_empty].
  rewrite lookup_empty. simpl.
  destruct (map Value _); [done|]. by intros [= <-].
Qed.

(** A field that holds what the last header of a name gives. *)
Lemma handleHeaders_last {A} (f : Message → A) (name : string) (g : string → A) r :
  (∀ a m, f (Message.withSender a m) = f m) →
  (∀ msg errors rh,
     f (handleHeader (msg, errors) rh).1 =
     if decide (strings_ToLower (Key rh) = name) then g (Value rh) else f msg) →
  f (handleHeaders r).1 = default (f Message.zero) (g <$> last (valuesOf name r)).
Proof.
  intros Hs Hupd.
  rewrite (handleHeaders_field f
             (λ rh a, if decide (strings_ToLower (Key rh) = name) then g (Value rh) else a))
    by done.
  rewrite (foldl_last_wins (λ rh, strings_ToLower (Key rh) = name) (λ rh, g (Value rh))).
  unfold valuesOf. rewrite last_map. by destruct (last _).
Qed.

(** A field that gathers what every header of a name gives. *)
Lemma handleHeaders_all {A} (f : Message → list A) (name : string) (g : string → list A) r :
  (∀ a m, f (Message.withSender a m) = f m) →
  f Message.zero = [] →
  (∀ msg errors rh,
     f (handleHeader (msg, errors) rh).1 =
     if decide (strings_ToLower (Key rh) = name) then f msg ++ g (Value rh) else f msg) →
  f (handleHeaders r).1 = flat_map g (valuesOf name r).
Proof.
  intros Hs Hz Hupd.
  rewrite (handleHeaders_field f
             (λ rh a, if decide (strings_ToLower (Key rh) = name) then a ++ g (Value rh) else a))
    by done.
  rewrite (foldl_accumulate (λ rh, strings_ToLower (Key rh) = name) (λ rh, g (Value rh))).
  rewrite Hz. unfold valuesOf. by rewrite flat_map_map.
Qed.

Lemma handleHeaders_ContentType r :
  Message.ContentType (handleHeaders r).1 = default "" (last (valuesOf "content-type" r)).
Proof.
  rewrite (handleHeaders_last Message.ContentType "content-type" id); [|done|].
  - by destruct (last _).
  - intros msg errors rh. header_field.
Qed.

Lemma handleHeaders_MessageID r :
  Message.MessageID (handleHeaders r).1
  = default "" ((λ v, strings_Trim v "<>") <$> last (valuesOf "message-id" r)).
Proof.
  apply (handleHeaders_last Message.MessageID "message-id" (λ v, strings_Trim v "<>")); [done|].
  intros msg errors rh. header_field.
Qed.

(** X11. The content type, the message id, the subject and the date of the
    message are those of the last header of their name; the headers of the
    same name before it do not count. *)
Theorem handleHeaders_last_header_wins r :
  let msg := (handleHeaders r).1 in
  Message.ContentType msg = default "" (last (valuesOf "content-type" r))
  ∧ Message.MessageID msg
    = default "" ((λ v, strings_Trim v "<>") <$> last (valuesOf "message-id" r))
  ∧ Message.Subject msg = default "" ((λ v, (Decode v).1) <$> last (valuesOf "subject" r))
  ∧ Message.Date msg = default Time_zero (ParseDate <$> last (valuesOf "date" r)).
Proof.
  split; [apply handleHeaders_ContentType|]. split; [apply handleHeaders_MessageID|]. split.
  - apply (handleHeaders_last Message.Subject "subject" (λ v, (Decode v).1)); [done|].
    intros msg errors rh. header_field.
  - apply (handleHeaders_last Message.Date "date" ParseDate); [done|].
    intros msg errors rh. header_field.
Qed.

Lemma handleHeaders_From r :
  Message.From (handleHeaders r).1
  = default [] ((λ v, (parseAddressList v).1) <$> last (valuesOf "from" r)).
Proof.
  apply (handleHeaders_last Message.From "from" (λ v, (parseAddressList v).1)); [done|].
  intros msg errors rh. header_field.
Qed.

(** X12. Each of the five address lists is the list of the last header of
    its name: the addresses of an earlier header of the same name are
    dropped, not joined. *)
Theorem handleHeaders_address_lists r :
  let msg := (handleHeaders r).1 in
  let addresses name :=
    default [] ((λ v, (parseAddressList v).1) <$> last (valuesOf name r)) in
  Message.From msg = addresses "from"
  ∧ Message.ReplyTo msg = addresses "reply-to"
  ∧ Message.To msg = addresses "to"
  ∧ Message.Cc msg = addresses "cc"
  ∧ Message.Bcc msg = addresses "bcc".
Proof.
  split; [apply handleHeaders_From|]. repeat split.
  - apply (handleHeaders_last Message.ReplyTo "reply-to" (λ v, (parseAddressList v).1)); [done|].
    intros msg errors rh. header_field.
  - apply (handleHeaders_last Message.To "to" (λ v, (parseAddressList v).1)); [done|].
    intros msg errors rh. header_field.
  - apply (handleHeaders_last Message.Cc "cc" (λ v, (parseAddressList v).1)); [done|].
    intros msg errors rh. header_field.
  - apply (handleHeaders_last Message.Bcc "bcc" (λ v, (parseAddressList v).1)); [done|].
    intros msg errors rh. header_field.
Qed.

(** X13. The comments, the keywords and the message ids of In-Reply-To and
    References are gathered over all the headers of their name, in the
    order of the message. *)
Theorem handleHeaders_lists_accumulate r :
  let msg := (handleHeaders r).1 in
  let ids v := map (λ id, strings_Trim id "<> ") (strings_Fields v) in
  Message.Comments msg = valuesOf "comments" r
  ∧ Message.Keywords msg
    = flat_map (λ v, map strings_TrimSpace (strings_Split1 v ",")) (valuesOf "keywords" r)
  ∧ Message.InReply msg = flat_map ids (valuesOf "in-reply-to" r)
  ∧ Message.References msg = flat_map ids (valuesOf "references" r).
Proof.
  repeat split.
  - rewrite (handleHeaders_all Message.Comments "comments" (λ v, [v])); [|done|done|].
    + by rewrite flat_map_singleton, map_id.
    + intros msg errors rh. header_field.
  - apply (handleHeaders_all Message.Keywords "keywords"
             (λ v, map strings_TrimSpace (strings_Split1 v ","))); [done|done|].
    intros msg errors rh. header_field.
  - apply (handleHeaders_all Message.InReply "in-reply-to"
             (λ v, map (λ id, strings_Trim id "<> ") (strings_Fields v))); [done|done|].
    intros msg errors rh. header_field.
  - apply (handleHeaders_all Message.References "references"
             (λ v, map (λ id, strings_Trim id "<> ") (strings_Fields v))); [done|done|].
    intros msg errors rh. header_field.
Qed.

Lemma foldl_handleHeader_Sender l : ∀ st,
  Message.Sender (foldl handleHeader st l).1 =
  default (Message.Sender st.1)
    ((λ rh, (ParseAddress (Value rh)).1)
       <$> last (filter (λ rh, strings_ToLower (Key rh) = "sender") l)).
Proof.
  intros st.
  rewrite (foldl_handleHeader_field Message.Sender
             (λ rh a, if decide (strings_ToLower (Key rh) = "sender")
                      then (ParseAddress (Value rh)).1 else a)).
  - apply (foldl_last_wins (λ rh, strings_ToLower (Key rh) = "sender")
             (λ rh, (ParseAddress (Value rh)).1)).
  - intros msg errors rh. header_field.
Qed.

(** X14. The sender is the address of the last Sender header; when there is
    no Sender header, or when that header gives no address, it is the first
    address of the From list, if there is one. *)
Theorem handleHeaders_Sender r :
  let msg := (handleHeaders r).1 in
  Message.Sender msg =
    match default None ((λ v, (ParseAddress v).1) <$> last (valuesOf "sender" r)) with
    | Some a => Some a
    | None => default None (head (Message.From msg))
    end.
Proof.
  simpl. rewrite handleHeaders_fst.
  rewrite (defaultSender_frame Message.From) by done.
  pose proof (foldl_handleHeader_Sender (RawMessage.RawHeaders r) (Message.zero, [])) as Hs.
  simpl in Hs. unfold valuesOf. rewrite last_map.
  destruct (foldl handleHeader _ _) as [msg errors]. simpl in *.
  destruct (last (filter _ _)) as [rh|]; simpl in *.
  - unfold defaultSender. rewrite Hs.
    destruct (ParseAddress (Value rh)).1 eqn:E; [by simpl|].
    by destruct (Message.From msg).
  - unfold defaultSender. rewrite Hs. by destruct (Message.From msg).
Qed.

Lemma handleHeader_errors msg errors rh :
  ∃ new, (handleHeader (msg, errors) rh).2 = errors ++ new
         ∧ (length new ≤ 1)%nat
         ∧ Forall (λ e, ∃ e0, e = errors_New ("header parser: " +:+ Error e0)) new.
Proof.
  header_cases; simpl;
    first [ exists []; rewrite app_nil_r; split; [done|]; split; [simpl; lia|constructor]
          | eexists [_]; split; [done|]; split; [simpl; lia|];
            repeat constructor; eexists; unfold fmt_Errorf; by rewrite string_app_empty_r ].
Qed.

Lemma foldl_handleHeader_errors l : ∀ st,
  ∃ new, (foldl handleHeader st l).2 = st.2 ++ new
         ∧ (length new ≤ length l)%nat
         ∧ Forall (λ e, ∃ e0, e = errors_New ("header parser: " +:+ Error e0)) new.
Proof.
  induction l as [|rh l IH]; intros [msg errors].
  - exists []. simpl. rewrite app_nil_r. split; [done|]. split; [lia|constructor].
  - cbn [foldl]. destruct (handleHeader_errors msg errors rh) as (new1 & H1 & Hl1 & Hall1).
    destruct (IH (handleHeader (msg, errors) rh)) as (new2 & H2 & Hl2 & Hall2).
    exists (new1 ++ new2). rewrite H2, H1, <- app_assoc. split; [done|]. split.
    + rewrite length_app. simpl. lia.
    + by apply Forall_app.
Qed.

(** X15. A header gives at most one error, and every error of the loop over
    the headers is a header parser error. *)
Theorem handleHeaders_errors r :
  (length (handleHeaders r).2 ≤ length (RawMessage.RawHeaders r))%nat
  ∧ Forall (λ e, ∃ e0, e = errors_New ("header parser: " +:+ Error e0)) (handleHeaders r).2.
Proof.
  rewrite handleHeaders_snd.
  destruct (foldl_handleHeader_errors (RawMessage.RawHeaders r) (Message.zero, []))
    as (new & -> & Hl & Hall).
  done.
Qed.

(** X16. The message id loses the angle brackets at its two ends and nothing
    else: a value that starts and ends with other bytes, white space
    included, is kept as it is. *)
Theorem handleHeaders_MessageID_untrimmed r a w b :
  last (valuesOf "message-id" r) = Some (String a (w +:+ String b "")) →
  a ≠ "<"%char → a ≠ ">"%char → b ≠ "<"%char → b ≠ ">"%char →
  Message.MessageID (handleHeaders r).1 = String a (w +:+ String b "").
Proof.
  intros Hlast Ha1 Ha2 Hb1 Hb2. rewrite handleHeaders_MessageID, Hlast. simpl.
  apply strings_Trim_keeps; by apply in_cutset_angle.
Qed.

Lemma handleHeaders_body_fields r :
  let msg := (handleHeaders r).1 in
  Message.Text msg = "" ∧ Message.Html msg = ""
  ∧ Message.Attachments msg = [] ∧ Message.Parts msg = [].
Proof.
  simpl. repeat split.
  - rewrite (handleHeaders_field Message.Text (λ _ a, a)); [|done|].
    + by induction (RawMessage.RawHeaders r).
    + intros msg errors rh. header_field.
  - rewrite (handleHeaders_field Message.Html (λ _ a, a)); [|done|].
    + by induction (RawMessage.RawHeaders r).
    + intros msg errors rh. header_field.
  - rewrite (handleHeaders_field Message.Attachments (λ _ a, a)); [|done|].
    + by induction (RawMessage.RawHeaders r).
    + intros msg errors rh. header_field.
  - rewrite (handleHeaders_field Message.Parts (λ _ a, a)); [|done|].
    + by induction (RawMessage.RawHeaders r).
    + intros msg errors rh. header_field.
Qed.

(** [handleMessage] when the headers give no content type. *)
Lemma handleMessage_no_content_type r :
  default "" (last (valuesOf "content-type" r)) = "" →
  handleMessage r
  = Returned (Message.withText (RawMessage.Body r) (handleHeaders r).1, (handleHeaders r).2).
Proof.
  intros Hct. rewrite <- handleHeaders_ContentType in Hct.
  unfold handleMessage. destruct (handleHeaders r) as [msg errors]. simpl in *.
  by rewrite Hct.
Qed.

(** X17. A message with no Content-Type header, or whose last Content-Type
    header is empty, is not decomposed: [handleMessage] returns, with the
    errors of the headers; the text of the message is its raw body, and
    there is no part, no HTML and no attachment. *)
Theorem handleMessage_without_content_type r :
  default "" (last (valuesOf "content-type" r)) = "" →
  ∃ msg,
    handleMessage r = Returned (msg, (handleHeaders r).2)
    ∧ Message.Text msg = RawMessage.Body r
    ∧ Message.Parts msg = [] ∧ Message.Html msg = "" ∧ Message.Attachments msg = [].
Proof.
  intros Hct. rewrite (handleMessage_no_content_type r Hct).
  destruct (handleHeaders_body_fields r) as (_ & Hh & Ha & Hp).
  eexists. split; [done|]. by simpl.
Qed.

End HeadersMore.

(** ** The loop over the parts *)

Section PartsMore.
Context `{!GoStd} `{!Collaborators}.

Ltac part_cases :=
  unfold handlePart, handleText, handleOther;
  repeat (simpl; match goal with
  | |- context [strings_Contains ?a ?b] => destruct (strings_Contains a b) eqn:?
  | |- context [decodeContentTransferEncoding ?a ?b ?c] =>
      destruct (decodeContentTransferEncoding a b c) as [[? [?|]]|] eqn:?
  | |- context [UTF8 ?a ?b] => destruct (UTF8 a b) eqn:?
  | |- context [Part.Headers ?p !! "Content-Disposition"] =>
      destruct (Part.Headers p !! "Content-Disposition") as [[|? ?]|] eqn:?
  | |- context [regexp_FindStringSubmatch ?a ?b] =>
      destruct (regexp_FindStringSubmatch a b) as [|? [|? ?]] eqn:?
  | |- context [Decode ?a] => destruct (Decode a) as [? [?|]] eqn:?
  end); unfold mret, outcome_ret.

(** What one turn of the loop over the parts changes. *)
Lemma handlePart_frame {A} (f : Message → A) k part msg errors parts msg' errors' parts' :
  (∀ v m, f (Message.withText v m) = f m) →
  (∀ v m, f (Message.withHtml v m) = f m) →
  (∀ v m, f (Message.withAttachments v m) = f m) →
  handlePart k part (msg, errors, parts) = Returned (msg', errors', parts') →
  f msg' = f msg.
Proof.
  intros Ht Hh Ha. part_cases; intros ?; simplify_eq; by rewrite ?Ht, ?Hh, ?Ha.
Qed.

Lemma handlePart_errors k part msg errors parts msg' errors' parts' :
  handlePart k part (msg, errors, parts) = Returned (msg', errors', parts') →
  errors `prefix_of` errors'.
Proof.
  part_cases; intros ?; simplify_eq;
    first [ done | by apply prefix_app_r | by do 2 apply prefix_app_r ].
Qed.

Lemma handlePart_parts k part msg errors parts msg' errors' parts' :
  handlePart k part (msg, errors, parts) = Returned (msg', errors', parts') →
  parts' = parts ∨ (isText part = true ∧ ∃ data, parts' = alter (Part.withData data) k parts).
Proof.
  unfold isText.
  part_cases; intros ?; simplify_eq; first [ by left | right; split; [done|by eexists] ].
Qed.

Lemma handlePart_parts_text k part msg errors parts msg' errors' parts' d e :
  handlePart k part (msg, errors, parts) = Returned (msg', errors', parts') →
  isText part = true →
  decodeContentTransferEncoding (Message.ParsedHeaders msg) (Part.Headers part) (Part.Data part)
    = Returned (d, e) →
  parts' = match UTF8 (Part.Charset part) d with
           | Ok data => alter (Part.withData data) k parts
           | Err _ => parts
           end.
Proof.
  unfold isText, handlePart, handleText. intros Hp Htext Hd. rewrite Hd in Hp. simpl in Hp.
  destruct (strings_Contains (Part.Type_ part) "text/plain");
    [|destruct (strings_Contains (Part.Type_ part) "text/html"); [|done]];
    destruct (UTF8 (Part.Charset part) d); by injection Hp as <- <- <-.
Qed.

Lemma handlePart_Attachments k part msg errors parts msg' errors' parts' :
  handlePart k part (msg, errors, parts) = Returned (msg', errors', parts') →
  (length (Message.Attachments msg')
   ≤ length (Message.Attachments msg) + (if isAttachment part then 1 else 0))%nat.
Proof.
  unfold isAttachment, isText.
  part_cases; intros ?; simplify_eq; simpl; rewrite ?length_app; simpl; lia.
Qed.

Lemma handlePart_Html k part msg errors parts msg' errors' parts' :
  handlePart k part (msg, errors, parts) = Returned (msg', errors', parts') →
  if isHtml part
  then normalizedText (Message.ParsedHeaders msg) part = Returned (Message.Html msg')
  else Message.Html msg' = Message.Html msg.
Proof.
  unfold isHtml, normalizedText.
  part_cases; intros ?; by simplify_eq.
Qed.

Lemma handlePart_returns k part msg errors parts :
  valued (Message.ParsedHeaders msg) → valued (Part.Headers part) →
  ∃ st', handlePart k part (msg, errors, parts) = Returned st'.
Proof.
  intros Hm Hp.
  destruct (decodeContentTransferEncoding_returns
              (Message.ParsedHeaders msg) (Part.Headers part) (Part.Data part) Hm Hp)
    as [[d e] Hd].
  pose proof (valued_lookup _ "Content-Disposition" Hp) as Hcd.
  unfold handlePart, handleText, handleOther. rewrite Hd. simpl.
  repeat (simpl; match goal with
  | |- context [strings_Contains ?a ?b] => destruct (strings_Contains a b) eqn:?
  | |- context [UTF8 ?a ?b] => destruct (UTF8 a b) eqn:?
  | |- context [Part.Headers ?p !! "Content-Disposition"] =>
      destruct (Part.Headers p !! "Content-Disposition") as [[|? ?]|] eqn:?
  | |- context [regexp_FindStringSubmatch ?a ?b] =>
      destruct (regexp_FindStringSubmatch a b) as [|? [|? ?]] eqn:?
  | |- context [Decode ?a] => destruct (Decode a) as [? [?|]] eqn:?
  end); unfold mret, outcome_ret; try done; by eexists.
Qed.

Lemma map_alter_withData {A} (f : Part → A) data k parts :
  (∀ p, f (Part.withData data p) = f p) →
  map f (alter (Part.withData data) k parts) = map f parts.
Proof.
  intros Hf. revert k. induction parts as [|p parts IH]; intros [|k]; simpl; [done..| |].
  - by rewrite Hf.
  - f_equal. apply IH.
Qed.

(** The loop over the parts. *)
Lemma rangeParts_cons k part ps st st'' :
  rangeParts k (part :: ps) st = Returned st'' →
  ∃ st', handlePart k part st = Returned st' ∧ rangeParts (S k) ps st' = Returned st''.
Proof.
  simpl. destruct (handlePart k part st) as [st'|]; [|done]. simpl. by exists st'.
Qed.

Lemma rangeParts_frame {A} (f : Message → A) ps : ∀ k msg errors parts msg' errors' parts',
  (∀ v m, f (Message.withText v m) = f m) →
  (∀ v m, f (Message.withHtml v m) = f m) →
  (∀ v m, f (Message.withAttachments v m) = f m) →
  rangeParts k ps (msg, errors, parts) = Returned (msg', errors', parts') →
  f msg' = f msg.
Proof.
  induction ps as [|part ps IH]; intros k msg errors parts msg' errors' parts' Ht Hh Ha.
  - by intros [= <- <- <-].
  - intros ([[msg1 errors1] parts1] & H1 & H2)%rangeParts_cons.
    rewrite (IH _ _ _ _ _ _ _ Ht Hh Ha H2). by apply (handlePart_frame f) in H1.
Qed.

Lemma rangeParts_errors ps : ∀ k msg errors parts msg' errors' parts',
  rangeParts k ps (msg, errors, parts) = Returned (msg', errors', parts') →
  errors `prefix_of` errors'.
Proof.
  induction ps as [|part ps IH]; intros k msg errors parts msg' errors' parts'.
  - by intros [= <- <- <-].
  - intros ([[msg1 errors1] parts1] & H1 & H2)%rangeParts_cons.
    etrans; [by eapply handlePart_errors|by eapply IH].
Qed.

Lemma rangeParts_parts ps : ∀ k msg errors parts msg' errors' parts',
  rangeParts k ps (msg, errors, parts) = Returned (msg', errors', parts') →
  map Part.Type_ parts' = map Part.Type_ parts
  ∧ map Part.Charset parts' = map Part.Charset parts
  ∧ map Part.Headers parts' = map Part.Headers parts
  ∧ ∀ i, (i < k ∨ k + length ps ≤ i
          ∨ ∃ p, ps !! (i - k) = Some p ∧ isText p = false)%nat →
         parts' !! i = parts !! i.
Proof.
  induction ps as [|part ps IH]; intros k msg errors parts msg' errors' parts'.
  - by intros [= <- <- <-].
  - intros ([[msg1 errors1] parts1] & H1 & H2)%rangeParts_cons.
    apply IH in H2 as (Hty & Hcs & Hhs & Hsame).
    apply handlePart_parts in H1 as [->|[Htext [data ->]]].
    + repeat split; [done..|]. intros i Hi. apply Hsame.
      destruct Hi as [Hi|[Hi|(p & Hp & Hnt)]]; [left; lia|right; left; simpl in Hi; lia|].
      destruct (decide (i ≤ k)%nat) as [Hle|Hgt]; [left; lia|].
      right. right. exists p. split; [|done].
      replace (i - k)%nat with (S (i - S k)) in Hp by lia. done.
    + rewrite Hty, Hcs, Hhs.
      rewrite !map_alter_withData by done. repeat split; [done..|].
      intros i Hi.
      assert (i ≠ k) as Hne.
      { intros ->. destruct Hi as [Hi|[Hi|(p & Hp & Hnt)]]; [lia|simpl in Hi; lia|].
        rewrite Nat.sub_diag in Hp. simpl in Hp. congruence. }
      rewrite Hsame.
      * by rewrite list_lookup_alter_ne.
      * destruct Hi as [Hi|[Hi|(p & Hp & Hnt)]]; [left; lia|right; left; simpl in Hi; lia|].
        destruct (decide (i ≤ k)%nat) as [Hle|Hgt]; [left; lia|].
        right. right. exists p. split; [|done].
        replace (i - k)%nat with (S (i - S k)) in Hp by lia. done.
Qed.

Lemma rangeParts_text ps : ∀ k msg errors parts msg' errors' parts' i p d e,
  rangeParts k ps (msg, errors, parts) = Returned (msg', errors', parts') →
  (k ≤ i)%nat → ps !! (i - k)%nat = Some p → parts !! i = Some p →
  isText p = true →
  decodeContentTransferEncoding (Message.ParsedHeaders msg) (Part.Headers p) (Part.Data p)
    = Returned (d, e) →
  parts' !! i = Some match UTF8 (Part.Charset p) d with
                     | Ok data => Part.withData data p
                     | Err _ => p
                     end.
Proof.
  induction ps as [|part ps IH];
    intros k msg errors parts msg' errors' parts' i p d e Hr Hki Hps Hparts Htext Hd;
    [done|].
  apply rangeParts_cons in Hr as ([[msg1 errors1] parts1] & H1 & H2).
  pose proof (handlePart_frame Message.ParsedHeaders _ _ _ _ _ _ _ _
                ltac:(done) ltac:(done) ltac:(done) H1) as Hph.
  destruct (decide (i = k)) as [->|Hne].
  - rewrite Nat.sub_diag in Hps. injection Hps as ->.
    pose proof (handlePart_parts_text _ _ _ _ _ _ _ _ _ _ H1 Htext Hd) as ->.
    apply rangeParts_parts in H2 as (_ & _ & _ & Hsame).
    rewrite Hsame by (left; lia).
    destruct (UTF8 (Part.Charset p) d); [|done].
    by rewrite list_lookup_alter_eq, Hparts.
  - apply (IH (S k) msg1 errors1 parts1 msg' errors' parts' i p d e H2); [lia| | |done|].
    + replace (i - k)%nat with (S (i - S k)) in Hps by lia. done.
    + apply handlePart_parts in H1 as [->|[_ [data ->]]]; [done|].
      by rewrite list_lookup_alter_ne.
    + by rewrite Hph.
Qed.

Lemma rangeParts_Attachments ps : ∀ k msg errors parts msg' errors' parts',
  rangeParts k ps (msg, errors, parts) = Returned (msg', errors', parts') →
  (length (Message.Attachments msg')
   ≤ length (Message.Attachments msg) + length (filter (λ p, isAttachment p = true) ps))%nat.
Proof.
  induction ps as [|part ps IH]; intros k msg errors parts msg' errors' parts'.
  - intros [= <- <- <-]. simpl. lia.
  - intros ([[msg1 errors1] parts1] & H1 & H2)%rangeParts_cons.
    apply IH in H2. apply handlePart_Attachments in H1.
    destruct (isAttachment part) eqn:E.
    + rewrite filter_cons_True by done. simpl. lia.
    + rewrite filter_cons_False by (by rewrite E). lia.
Qed.

Lemma rangeParts_Html ps : ∀ k msg errors parts msg' errors' parts',
  rangeParts k ps (msg, errors, parts) = Returned (msg', errors', parts') →
  match last (filter (λ p, isHtml p = true) ps) with
  | Some p => normalizedText (Message.ParsedHeaders msg) p = Returned (Message.Html msg')
  | None => Message.Html msg' = Message.Html msg
  end.
Proof.
  induction ps as [|part ps IH]; intros k msg errors parts msg' errors' parts'.
  - by intros [= <- <- <-].
  - intros ([[msg1 errors1] parts1] & H1 & H2)%rangeParts_cons.
    pose proof (handlePart_frame Message.ParsedHeaders _ _ _ _ _ _ _ _
                  ltac:(done) ltac:(done) ltac:(done) H1) as Hph.
    pose proof (rangeParts_frame Message.Html ps) as Hfr.
    apply IH in H2. rewrite Hph in H2. apply handlePart_Html in H1.
    destruct (isHtml part) eqn:E.
    + rewrite filter_cons_True by done. rewrite last_cons.
      destruct (last (filter _ ps)); [done|]. by rewrite H2.
    + rewrite filter_cons_False by (by rewrite E).
      destruct (last (filter _ ps)); [done|]. by rewrite H2.
Qed.

Lemma rangeParts_returns ps : ∀ k msg errors parts,
  valued (Message.ParsedHeaders msg) →
  Forall (λ p, valued (Part.Headers p)) ps →
  ∃ st', rangeParts k ps (msg, errors, parts) = Returned st'.
Proof.
  induction ps as [|part ps IH]; intros k msg errors parts Hm Hps.
  - by eexists.
  - apply Forall_cons in Hps as [Hp Hps].
    destruct (handlePart_returns k part msg errors parts Hm Hp) as [[[msg1 errors1] parts1] H1].
    simpl. rewrite H1. simpl. apply IH; [|done].
    by rewrite (handlePart_frame Message.ParsedHeaders _ _ _ _ _ _ _ _
                  ltac:(done) ltac:(done) ltac:(done) H1).
Qed.

(** [handleMessage] on a body that is decomposed. *)
Lemma handleMessage_decomposed r parts m errs :
  decomposed r parts →
  handleMessage r = Returned (m, errs) →
  ∃ msg' parts' parts0,
    rangeParts 0 parts ((handleHeaders r).1, (handleHeaders r).2, parts)
      = Returned (msg', errs, parts')
    ∧ head parts' = Some parts0
    ∧ m = Message.withText (Part.Data parts0)
            (Message.withContentType (Part.Type_ parts0) (Message.withParts parts' msg')).
Proof.
  intros [Hct Hp]. rewrite (handleMessage_body _ Hct), Hp.
  destruct (rangeParts _ _ _) as [[[msg' errors'] parts']|]; [|done]. simpl.
  destruct parts' as [|parts0 parts']; [done|]. simpl. intros [= <- <-].
  by exists msg', (parts0 :: parts'), parts0.
Qed.

(** X18. The assembler keeps the list of parts of the decomposer: the parts
    of the message have the types, the charsets and the headers of the
    parts decomposed, in the same order, and a part that is neither
    text/plain nor text/html is kept as it is, data included. *)
Theorem handleMessage_keeps_parts r parts m errs :
  decomposed r parts →
  handleMessage r = Returned (m, errs) →
  map Part.Type_ (Message.Parts m) = map Part.Type_ parts
  ∧ map Part.Charset (Message.Parts m) = map Part.Charset parts
  ∧ map Part.Headers (Message.Parts m) = map Part.Headers parts
  ∧ ∀ i p, parts !! i = Some p → isText p = false → Message.Parts m !! i = Some p.
Proof.
  intros Hd (msg' & parts' & parts0 & Hr & _ & ->)%(handleMessage_decomposed _ _ _ _ Hd).
  apply rangeParts_parts in Hr as (Hty & Hcs & Hhs & Hsame). simpl.
  repeat split; [done..|]. intros i p Hp Hnt. rewrite Hsame; [done|].
  right. right. exists p. by rewrite Nat.sub_0_r.
Qed.

(** X19. In the parts of the message, the data of a part that is text/plain
    or text/html is the charset-normalized form of its transfer-decoded
    data when the normalization succeeds; when it fails the part keeps its
    raw data, which is not transfer-decoded. *)
Theorem handleMessage_text_part_data r parts m errs i p d e :
  decomposed r parts →
  handleMessage r = Returned (m, errs) →
  parts !! i = Some p →
  isText p = true →
  decodeContentTransferEncoding
    (Message.ParsedHeaders (handleHeaders r).1) (Part.Headers p) (Part.Data p)
    = Returned (d, e) →
  Message.Parts m !! i = Some match UTF8 (Part.Charset p) d with
                              | Ok data => Part.withData data p
                              | Err _ => p
                              end.
Proof.
  intros Hd (msg' & parts' & parts0 & Hr & _ & ->)%(handleMessage_decomposed _ _ _ _ Hd).
  intros Hp Htext Hdec. simpl.
  apply (rangeParts_text parts 0 _ _ parts msg' errs parts' i p d e Hr); [lia| |done..].
  by rewrite Nat.sub_0_r.
Qed.

(** X20. The content type and the text of a message that is decomposed are
    those of its first part: the content type is the type of the first
    part, not the value of the Content-Type header, and the text is the
    data of the first of the parts of the message, whatever its type, so
    that it is the raw data of a first part that is neither text/plain nor
    text/html. *)
Theorem handleMessage_first_part r parts m errs :
  decomposed r parts →
  handleMessage r = Returned (m, errs) →
  Part.Type_ <$> head parts = Some (Message.ContentType m)
  ∧ Part.Data <$> head (Message.Parts m) = Some (Message.Text m)
  ∧ ∀ p, head parts = Some p → isText p = false → Message.Text m = Part.Data p.
Proof.
  intros Hd (msg' & parts' & parts0 & Hr & Hhead & ->)%(handleMessage_decomposed _ _ _ _ Hd).
  apply rangeParts_parts in Hr as (Hty & _ & _ & Hsame). simpl. rewrite Hhead.
  split; [|split; [done|]].
  - destruct parts' as [|p' parts']; [done|]. injection Hhead as ->.
    destruct parts as [|p parts]; [done|]. simpl in *. by injection Hty as <- _.
  - intros p Hp Hnt.
    specialize (Hsame 0). rewrite <- !head_lookup, Hhead, Hp in Hsame.
    assert (Some parts0 = Some p) as [= ->]; [|done].
    apply Hsame. right. right. by exists p.
Qed.

(** X21. [handleMessage] never drops an error: the errors of the headers
    are the first errors of the list it returns. *)
Theorem handleMessage_keeps_header_errors r m errs :
  handleMessage r = Returned (m, errs) →
  (handleHeaders r).2 `prefix_of` errs.
Proof.
  unfold handleMessage. destruct (handleHeaders r) as [msg errors]. simpl.
  destruct (negb _); [|by intros [= <- <-]].
  destruct (parseBody _ _ _) as [parts [e|]].
  - intros [= <- <-]. by apply prefix_app_r.
  - destruct (rangeParts _ _ _) as [[[msg' errors'] parts']|] eqn:Hr; [|done]. simpl.
    destruct (index0 parts'); [|done]. simpl. intros [= <- <-].
    by eapply rangeParts_errors.
Qed.

(** X22. Only a part that is neither text/plain nor text/html and whose
    Content-Disposition holds "attachment" can become an attachment: there
    are at most as many attachments as such parts. *)
Theorem handleMessage_attachments r parts m errs :
  decomposed r parts →
  handleMessage r = Returned (m, errs) →
  (length (Message.Attachments m) ≤ length (filter (λ p, isAttachment p = true) parts))%nat.
Proof.
  intros Hd (msg' & parts' & parts0 & Hr & _ & ->)%(handleMessage_decomposed _ _ _ _ Hd).
  apply rangeParts_Attachments in Hr. simpl in *.
  destruct (handleHeaders_body_fields r) as (_ & _ & Ha & _). simpl in Ha.
  rewrite Ha in Hr. done.
Qed.

(** X23. The HTML of the message is the text of the last text/html part;
    without such a part it is empty. *)
Theorem handleMessage_Html_is_last_html_part r parts m errs :
  decomposed r parts →
  handleMessage r = Returned (m, errs) →
  match last (filter (λ p, isHtml p = true) parts) with
  | Some p =>
      normalizedText (Message.ParsedHeaders (handleHeaders r).1) p
      = Returned (Message.Html m)
  | None => Message.Html m = ""
  end.
Proof.
  intros Hd (msg' & parts' & parts0 & Hr & _ & ->)%(handleMessage_decomposed _ _ _ _ Hd).
  apply rangeParts_Html in Hr. simpl in *.
  destruct (handleHeaders_body_fields r) as (_ & Hh & _ & _). simpl in Hh.
  rewrite Hh in Hr. done.
Qed.

(** X24. For a decomposed body in whose parts no header name has an empty
    list of values, [handleMessage] returns exactly when there is at least
    one part: the only panic left is the one of a body without parts. *)
Theorem handleMessage_returns r parts :
  decomposed r parts →
  Forall (λ p, valued (Part.Headers p)) parts →
  (∃ m errs, handleMessage r = Returned (m, errs)) ↔ parts ≠ [].
Proof.
  intros [Hct Hp] Hval. split.
  - intros (m & errs & Hm) ->. by rewrite (handleMessage_no_parts_panics r Hct Hp) in Hm.
  - intros Hne. rewrite (handleMessage_body _ Hct), Hp.
    destruct (rangeParts_returns parts 0 (handleHeaders r).1 (handleHeaders r).2 parts
                (handleHeaders_valued r) Hval) as [[[msg' errors'] parts'] Hr].
    rewrite Hr. simpl.
    pose proof (rangeParts_parts _ _ _ _ _ _ _ _ Hr) as (Hty & _).
    destruct parts' as [|p' parts']; [by destruct parts|]. simpl. by eexists _, _.
Qed.

(** X25. The processing of the body leaves the fields of the headers as the
    loop over the headers has set them. *)
Theorem handleMessage_keeps_header_fields r m errs :
  handleMessage r = Returned (m, errs) →
  let msg := (handleHeaders r).1 in
  Message.ParsedHeaders m = Message.ParsedHeaders msg
  ∧ Message.MessageID m = Message.MessageID msg
  ∧ Message.Date m = Message.Date msg
  ∧ Message.Sender m = Message.Sender msg
  ∧ Message.From m = Message.From msg
  ∧ Message.ReplyTo m = Message.ReplyTo msg
  ∧ Message.To m = Message.To msg
  ∧ Message.Cc m = Message.Cc msg
  ∧ Message.Bcc m = Message.Bcc msg
  ∧ Message.Subject m = Message.Subject msg
  ∧ Message.Comments m = Message.Comments msg
  ∧ Message.Keywords m = Message.Keywords msg
  ∧ Message.InReply m = Message.InReply msg
  ∧ Message.References m = Message.References msg.
Proof.
  intros Hm msg.
  assert (∀ A (f : Message → A),
            (∀ v m, f (Message.withText v m) = f m) →
            (∀ v m, f (Message.withHtml v m) = f m) →
            (∀ v m, f (Message.withAttachments v m) = f m) →
            (∀ v m, f (Message.withParts v m) = f m) →
            (∀ v m, f (Message.withContentType v m) = f m) →
            f m = f msg) as Hframe.
  { intros A f Ht Hh Ha Hp Hc. revert Hm. subst msg. unfold handleMessage.
    destruct (handleHeaders r) as [msg errors]. simpl.
    destruct (negb _); [|intros [= <- <-]; apply Ht].
    destruct (parseBody _ _ _) as [parts [e|]]; [intros [= <- <-]; apply Ht|].
    destruct (rangeParts _ _ _) as [[[msg' errors'] parts']|] eqn:Hr; [|done]. simpl.
    destruct (index0 parts'); [|done]. simpl. intros [= <- <-].
    rewrite Ht, Hc, Hp. by eapply rangeParts_frame. }
  repeat split; by apply Hframe.
Qed.

End PartsMore.

(** ** The header block *)

Section StringFacts.
Local Open Scope nat_scope.
Implicit Types (s t u : string) (c d : ascii).

Lemma app_String c s t : String c s +:+ t = String c (s +:+ t).
Proof. done. Qed.

Lemma app_empty_l s : "" +:+ s = s.
Proof. done. Qed.

Lemma string_app_assoc s t u : (s +:+ t) +:+ u = s +:+ (t +:+ u).
Proof. induction s as [|c s IH]; [done|]. by rewrite !app_String, IH. Qed.

Lemma string_length_app s t : String.length (s +:+ t) = String.length s + String.length t.
Proof. induction s as [|c s IH]; [done|]. rewrite app_String. simpl. by rewrite IH. Qed.

Lemma string_app_inj_length s t s' t' :
  s +:+ t = s' +:+ t' → String.length s = String.length s' → s = s' ∧ t = t'.
Proof.
  revert s'. induction s as [|c s IH]; intros [|c' s']; try done.
  rewrite !app_String. intros [= -> Heq] [= Hlen].
  by destruct (IH s' Heq Hlen) as [-> ->].
Qed.

Lemma string_snoc_inj s c t d :
  s +:+ String c "" = t +:+ String d "" → s = t ∧ c = d.
Proof.
  intros Heq. assert (String.length s = String.length t) as Hlen.
  { apply (f_equal String.length) in Heq. rewrite !string_length_app in Heq. simpl in Heq. lia. }
  destruct (string_app_inj_length _ _ _ _ Heq Hlen) as [-> [= ->]]. done.
Qed.

Lemma prefix_app s t : String.prefix s (s +:+ t) = true.
Proof.
  induction s as [|c s IH]; [by destruct t|]. rewrite app_String. simpl.
  by destruct (ascii_dec c c).
Qed.

Lemma prefix_inv s t : String.prefix s t = true → ∃ u, t = s +:+ u.
Proof.
  revert t. induction s as [|c s IH]; intros t; [by exists t|].
  destruct t as [|d t]; [done|]. simpl. destruct (ascii_dec c d) as [->|]; [|done].
  intros [u ->]%IH. by exists u.
Qed.

Lemma string_drop_app s t : string_drop (String.length s) (s +:+ t) = t.
Proof. induction s as [|c s IH]; [by destruct t|]. by rewrite app_String. Qed.

Lemma bytes_HasSuffix_app s t : bytes_HasSuffix (s +:+ t) t = true.
Proof.
  induction s as [|c s IH].
  - rewrite app_empty_l. destruct t; cbn [bytes_HasSuffix]; by rewrite String.eqb_refl.
  - rewrite app_String. cbn [bytes_HasSuffix]. rewrite IH. apply orb_true_r.
Qed.

Lemma bytes_HasSuffix_inv s t : bytes_HasSuffix s t = true → ∃ u, s = u +:+ t.
Proof.
  induction s as [|c s IH].
  - cbn [bytes_HasSuffix]. rewrite orb_false_r. intros ->%String.eqb_eq. by exists "".
  - cbn [bytes_HasSuffix]. intros [->%String.eqb_eq|[u ->]%IH]%orb_true_iff.
    + by exists "".
    + by exists (String c u).
Qed.

Lemma bytes_TrimSuffix_app s t : bytes_TrimSuffix (s +:+ t) t = s.
Proof.
  induction s as [|c s IH].
  - rewrite app_empty_l. destruct t; cbn [bytes_TrimSuffix]; by rewrite String.eqb_refl.
  - rewrite app_String. cbn [bytes_TrimSuffix].
    destruct (String.eqb_spec (String c (s +:+ t)) t) as [Heq|_].
    + apply (f_equal String.length) in Heq. simpl in Heq.
      rewrite string_length_app in Heq. lia.
    + by rewrite bytes_HasSuffix_app, IH.
Qed.

Lemma bytes_TrimSuffix_no s t : bytes_HasSuffix s t = false → bytes_TrimSuffix s t = s.
Proof.
  destruct s as [|c s]; cbn [bytes_HasSuffix bytes_TrimSuffix].
  - rewrite orb_false_r. by intros ->.
  - intros [-> ->]%orb_false_iff. done.
Qed.

Lemma bytes_HasSuffix_snoc s c t d :
  bytes_HasSuffix (s +:+ String c "") (t +:+ String d "")
  = Ascii.eqb c d && bytes_HasSuffix s t.
Proof.
  apply eq_true_iff_eq. rewrite andb_true_iff. split.
  - intros [u Heq]%bytes_HasSuffix_inv. rewrite <- string_app_assoc in Heq.
    apply string_snoc_inj in Heq as [-> ->]. split; [apply Ascii.eqb_refl|].
    apply bytes_HasSuffix_app.
  - intros [->%Ascii.eqb_eq [u ->]%bytes_HasSuffix_inv].
    rewrite string_app_assoc. apply bytes_HasSuffix_app.
Qed.

Lemma bytes_HasSuffix_empty s : bytes_HasSuffix s "" = true.
Proof. rewrite <- (string_app_empty_r s). apply bytes_HasSuffix_app. Qed.

Lemma bytes_TrimSuffix_empty s : bytes_TrimSuffix s "" = s.
Proof. rewrite <- (string_app_empty_r s) at 1. apply bytes_TrimSuffix_app. Qed.

Lemma bytes_TrimSuffix_snoc s c t d :
  bytes_TrimSuffix (s +:+ String c "") (t +:+ String d "")
  = if Ascii.eqb c d && bytes_HasSuffix s t then bytes_TrimSuffix s t
    else s +:+ String c "".
Proof.
  destruct (Ascii.eqb c d && bytes_HasSuffix s t) eqn:E.
  - apply andb_true_iff in E as [->%Ascii.eqb_eq [u ->]%bytes_HasSuffix_inv].
    by rewrite string_app_assoc, !bytes_TrimSuffix_app.
  - apply bytes_TrimSuffix_no. by rewrite bytes_HasSuffix_snoc.
Qed.

(** Where [bytes.Replace] cuts. *)
Lemma bytes_Replace1_Index s old : ∀ n,
  bytes_Index s old = Some n →
  ∃ pre post, s = pre +:+ old +:+ post ∧ String.length pre = n
              ∧ bytes_Replace1 s old = pre +:+ post.
Proof.
  induction s as [|c s IH]; intros n; cbn [bytes_Index bytes_Replace1].
  - destruct old as [|d old]; [|done]. intros [= <-]. by exists "", "".
  - destruct (String.prefix old (String c s)) eqn:E.
    + intros [= <-]. apply prefix_inv in E as [u E]. exists "", u.
      rewrite E, string_drop_app. by rewrite !app_empty_l.
    + destruct (bytes_Index s old) as [m|]; [|done]. intros [= <-].
      destruct (IH m eq_refl) as (pre & post & -> & <- & ->).
      by exists (String c pre), post.
Qed.

Lemma bytes_Replace1_first pre old post :
  bytes_Index (pre +:+ old +:+ post) old = Some (String.length pre) →
  bytes_Replace1 (pre +:+ old +:+ post) old = pre +:+ post.
Proof.
  intros (pre' & post' & Heq & Hlen & ->)%bytes_Replace1_Index.
  symmetry in Hlen.
  apply string_app_inj_length in Heq as [-> Heq]; [|done].
  by apply string_app_inj_length in Heq as [_ ->].
Qed.

Lemma bytes_Replace1_empty s : bytes_Replace1 s "" = s.
Proof. by destruct s. Qed.

End StringFacts.

Section ExtractHeadersMore.

Local Abbreviation CR := ("013"%char).
Local Abbreviation LF := ("010"%char).
Local Notation "s ·· c" := (s +:+ String c "") (at level 25, left associativity).

(** The six suffixes of [extractHeaders], byte by byte. *)
Lemma extractHeaders_trim body data :
  extractHeaders body data =
  foldl bytes_TrimSuffix (bytes_Replace1 data body)
    [""··LF··CR··LF; ""··CR··LF··LF; ""··CR··LF; ""··LF··CR; ""··LF; ""··CR].
Proof. reflexivity. Qed.

Ltac trim :=
  cbn [foldl];
  repeat first
    [ rewrite bytes_TrimSuffix_snoc
    | rewrite bytes_HasSuffix_snoc
    | rewrite bytes_HasSuffix_empty
    | rewrite bytes_TrimSuffix_empty
    | match goal with H : Ascii.eqb _ _ = false |- _ => rewrite H end
    | progress cbn [andb]
    | progress change (Ascii.eqb CR CR) with true
    | progress change (Ascii.eqb LF LF) with true
    | progress change (Ascii.eqb CR LF) with false
    | progress change (Ascii.eqb LF CR) with false ].

Lemma isLineBreak_false c :
  isLineBreak c = false → Ascii.eqb c CR = false ∧ Ascii.eqb c LF = false.
Proof. unfold isLineBreak. by intros [? ?]%orb_false_iff. Qed.

Lemma trim_none s c :
  isLineBreak c = false →
  foldl bytes_TrimSuffix (s··c)
    [""··LF··CR··LF; ""··CR··LF··LF; ""··CR··LF; ""··LF··CR; ""··LF; ""··CR]
  = s··c.
Proof. intros [HcCR HcLF]%isLineBreak_false. by trim. Qed.

Lemma trim_CRLF_CRLF s c :
  isLineBreak c = false →
  foldl bytes_TrimSuffix (s··c··CR··LF··CR··LF)
    [""··LF··CR··LF; ""··CR··LF··LF; ""··CR··LF; ""··LF··CR; ""··LF; ""··CR]
  = s··c.
Proof. intros [HcCR HcLF]%isLineBreak_false. by trim. Qed.

Lemma trim_LF_LF s c :
  isLineBreak c = false →
  foldl bytes_TrimSuffix (s··c··LF··LF)
    [""··LF··CR··LF; ""··CR··LF··LF; ""··CR··LF; ""··LF··CR; ""··LF; ""··CR]
  = s··c··LF.
Proof. intros [HcCR HcLF]%isLineBreak_false. by trim. Qed.

Lemma bytes_Replace1_last pre body :
  body = ""
  ∨ bytes_Index (pre +:+ body) body
    = Some (String.length (pre +:+ body) - String.length body) →
  bytes_Replace1 (pre +:+ body) body = pre.
Proof.
  intros [->|Hi].
  - by rewrite bytes_Replace1_empty, string_app_empty_r.
  - rewrite string_length_app in Hi.
    replace (String.length pre + String.length body - String.length body)
      with (String.length pre) in Hi by lia.
    rewrite <- (string_app_empty_r body) in Hi at 1.
    rewrite <- (string_app_empty_r body) at 1.
    rewrite bytes_Replace1_first by done. apply string_app_empty_r.
Qed.

(** X26. For a message whose header block ends with a byte that is no line
    break and is followed by an empty line, both with CR LF line ends, and
    whose body occurs nowhere before its place at the end, [extractHeaders]
    returns the header block. *)
Theorem extractHeaders_CRLF w c body :
  isLineBreak c = false →
  let headers := w +:+ String c "" in
  let data := headers +:+ CRLF +:+ CRLF +:+ body in
  body = "" ∨ bytes_Index data body = Some (String.length data - String.length body) →
  extractHeaders body data = headers.
Proof.
  intros Hc headers data Hbody. rewrite extractHeaders_trim.
  assert (data = (w··c··CR··LF··CR··LF) +:+ body) as Hdata.
  { subst data headers. by rewrite !string_app_assoc. }
  rewrite Hdata in *. rewrite bytes_Replace1_last by done. by apply trim_CRLF_CRLF.
Qed.

(** X27. With bare LF line ends the header block returned keeps the line
    feed that ends its last line: the suffixes are tried once each, in a
    fixed order, and only one LF of the two is taken off. *)
Theorem extractHeaders_LF w c body :
  isLineBreak c = false →
  let headers := w +:+ String c "" in
  let data := headers +:+ String LF (String LF "") +:+ body in
  body = "" ∨ bytes_Index data body = Some (String.length data - String.length body) →
  extractHeaders body data = headers +:+ String LF "".
Proof.
  intros Hc headers data Hbody. rewrite extractHeaders_trim.
  assert (data = (w··c··LF··LF) +:+ body) as Hdata.
  { subst data headers. by rewrite !string_app_assoc. }
  rewrite Hdata in *. rewrite bytes_Replace1_last by done. by apply trim_LF_LF.
Qed.

(** X28. [extractHeaders] cuts the first occurrence of the body out of the
    message, wherever it is: when the bytes of the body occur before the
    body itself, the cut is made there, and the result keeps the body at its
    end. *)
Theorem extractHeaders_cuts_first_occurrence pre body post c :
  isLineBreak c = false →
  bytes_Index (pre +:+ body +:+ post +:+ String c "") body = Some (String.length pre) →
  extractHeaders body (pre +:+ body +:+ post +:+ String c "") = pre +:+ post +:+ String c "".
Proof.
  intros Hc Hi. rewrite extractHeaders_trim.
  rewrite bytes_Replace1_first by done.
  rewrite <- string_app_assoc. by apply trim_none.
Qed.

Lemma bytes_TrimSuffix_tail s t :
  ∃ tail, s = bytes_TrimSuffix s t +:+ tail ∧ (tail = "" ∨ tail = t).
Proof.
  destruct (bytes_HasSuffix s t) eqn:E.
  - apply bytes_HasSuffix_inv in E as [u ->]. exists t.
    rewrite bytes_TrimSuffix_app. by split; [|right].
  - exists "". rewrite bytes_TrimSuffix_no by done.
    by rewrite string_app_empty_r; split; [|left].
Qed.

Lemma lineBreaks_app s t : lineBreaks (s +:+ t) = lineBreaks s && lineBreaks t.
Proof.
  induction s as [|c s IH]; [done|]. rewrite app_String. cbn [lineBreaks].
  by rewrite IH, andb_assoc.
Qed.

Lemma trim_tail s suffixes :
  Forall (λ t, lineBreaks t = true) suffixes →
  ∃ tail, s = foldl bytes_TrimSuffix s suffixes +:+ tail
          ∧ lineBreaks tail = true
          ∧ (String.length tail ≤ sum_list (map String.length suffixes))%nat.
Proof.
  intros Hall. revert s. induction Hall as [|t suffixes Ht _ IH]; intros s.
  - exists "". by rewrite string_app_empty_r.
  - cbn [foldl]. destruct (bytes_TrimSuffix_tail s t) as (tail1 & Hs & Htail1).
    destruct (IH (bytes_TrimSuffix s t)) as (tail2 & Hs2 & Hlb & Hlen).
    exists (tail2 +:+ tail1). rewrite <- string_app_assoc, <- Hs2, <- Hs.
    split; [done|]. rewrite lineBreaks_app, Hlb, string_length_app. simpl.
    destruct Htail1 as [->| ->]; split; [done|simpl; lia|done|lia].
Qed.

(** X29. Behind the cut of the body, [extractHeaders] takes off the end of
    the message nothing but line breaks, and at most twelve bytes of them. *)
Theorem extractHeaders_tail body data :
  ∃ tail,
    bytes_Replace1 data body = extractHeaders body data +:+ tail
    ∧ lineBreaks tail = true
    ∧ (String.length tail ≤ 12)%nat.
Proof.
  rewrite extractHeaders_trim.
  destruct (trim_tail (bytes_Replace1 data body)
              [""··LF··CR··LF; ""··CR··LF··LF; ""··CR··LF; ""··LF··CR; ""··LF; ""··CR])
    as (tail & Hs & Hlb & Hlen).
  - by repeat constructor.
  - exists tail. split; [done|]. split; [done|]. exact Hlen.
Qed.

End ExtractHeadersMore.

(** ** The whole parse *)

Section ParseMore.
Context `{!GoStd} `{!Collaborators}.

(** X30. [Parse] of a message that the raw splitter accepts and that has
    no Content-Type returns: the text and the body of the message are the
    body of the raw message, its headers are what [extractHeaders] cuts out
    of the bytes parsed, there is no part, and the errors are those of the
    headers. *)
Theorem Parse_without_content_type data raw :
  ParseRaw data = Ok raw →
  default "" (last (valuesOf "content-type" raw)) = "" →
  ∃ msg,
    Parse data = Returned (msg, (handleHeaders raw).2)
    ∧ Message.Text msg = RawMessage.Body raw
    ∧ Message.Body msg = RawMessage.Body raw
    ∧ Message.Headers msg = extractHeaders (RawMessage.Body raw) data
    ∧ Message.Parts msg = [].
Proof.
  intros Hraw Hct. unfold Parse. rewrite Hraw, (handleMessage_no_content_type raw Hct).
  destruct (handleHeaders_body_fields raw) as (_ & _ & _ & Hp).
  eexists. split; [done|]. by simpl.
Qed.

End ParseMore.

(** * Concrete messages

    The package run with the reference library and collaborators. *)

#[local] Existing Instance golib.
#[local] Existing Instance refcollab.

(** C1, on the code. In a message of two text/plain parts, "first" and
    "second", the loop over the parts leaves the last text/plain part,
    "second", in the text field; line 213 then overwrites the field with the
    data of the first part, so that the message returned has the text
    "first". This holds whatever the collaborators are ([normalized] is the
    charset normalization with its fallback), and for the parse of the
    bytes of the message with the reference collaborators. *)
Theorem Parse_text_is_first_part_not_last_plain :
  (∀ C : Collaborators,
     let r := RawMessage.mk [mkRawHeader "Content-Type" "multipart/mixed; boundary=b"]
                two_plain_body in
     let normalized (data : string) :=
       match UTF8 "utf-8" data with Ok d => d | Err _ => data end in
     textAfterLoop r = Returned (normalized "second")
     ∧ (λ '(m, _), Message.Text m) <$> handleMessage r = Returned (normalized "first"))
  ∧ (λ '(m, errors), (Message.Text m, map Part.Type_ (Message.Parts m),
                      map Part.Data (Message.Parts m), errors))
      <$> Parse two_plain_parts
    = Returned ("first", ["text/plain"; "text/plain"], ["first"; "second"], []).
Proof.
  split; [|compute_done].
  intros [AddressVal Time Time_zero tokenize parseAddress ParseAddress decodeRFC2047
            Decode UTF8 ParseDate ParseRaw] r normalized.
  split; vm_compute; by destruct (UTF8 "utf-8" "first"), (UTF8 "utf-8" "second").
Qed.


(** C3, the claim fails. A body nested a hundred levels deep is decomposed
    to its leaf without any error; a hundred nested calls do not reach the
    leaf, so the recursion went deeper than that. *)
Lemma deep_nesting_is_decomposed :
  (λ r, (map (λ p, (Part.Type_ p, Part.Data p)) r.1, r.2))
    (parseBody (nest 100).1 (nest 100).2 ∅) = ([("text/plain", "leaf")], None)
  ∧ parseBody_rec 100 (nest 100).1 (nest 100).2 ∅ = ([], None).
Proof. split; compute_done. Qed.

(** C4, the claim fails. With a multipart Content-Type without boundary the
    parse returns a Message, with the subject parsed and the raw body as
    text, and the failure is an entry of the list of errors. *)
Lemma multipart_without_boundary_is_not_fatal :
  (λ '(m, errors), (Message.Subject m, Message.Text m, Message.Body m, errors))
    <$> Parse multipart_without_boundary
  = Returned ("hi", "hello", "hello",
              [errors_New "body parser: multipart specified without boundary"]).
Proof. compute_done. Qed.


(** With the reference library the body of a leaf has no header of its own,
    since it is read behind a blank line: the headers of the Part are the
    inherited ones. *)
Lemma leaf_headers_are_the_inherited_ones ct body ph mt ps :
  mime_ParseMediaType ct = Ok (mt, ps) →
  ps !! "boundary" = None →
  strings_HasPrefix mt "multipart" = false →
  parseBody ct body ph = ([Part.mk mt (default "" (ps !! "charset")) body ph], None).
Proof.
  intros Hct Hb Hmt. rewrite parseBody_eq, Hct, Hb, Hmt.
  change (mail_ReadMessage (CRLF +:+ body)) with (GoRef.ReadMessage (CRLF +:+ body)).
  rewrite GoRefFacts.ReadMessage_blank_line.
  by rewrite mergeHeaders_union, (right_id_L ∅ (∪)).
Qed.

(** C9, on the code. The only part of the body declares no Content-Type:
    the decomposition succeeds with an empty list of parts, and
    [handleMessage] panics at [parts[0]], whatever the collaborators are;
    so does the parse of the bytes of the message. *)
Theorem Parse_panics_without_typed_part :
  parseBody "multipart/mixed; boundary=b" no_typed_part_body ∅ = ([], None)
  ∧ (∀ C : Collaborators,
       handleMessage
         (RawMessage.mk [mkRawHeader "Content-Type" "multipart/mixed; boundary=b"]
            no_typed_part_body)
       = Panic "runtime error: index out of range [0] with length 0")
  ∧ (λ _, ()) <$> Parse no_typed_part_message
    = Panic "runtime error: index out of range [0] with length 0".
Proof.
  split; [compute_done|]. split; [|compute_done].
  intros C. apply handleMessage_no_parts_panics; compute_done.
Qed.

(** ** Instances of the theorems *)

Lemma parseBody_skips_part_without_content_type_witness :
  let segs1 : list (Header * string) := [({["Content-Type" := ["text/plain"]]}, "one")] in
  let h : Header := {["X-Note" := ["no content type"]]} in
  let segs2 : list (Header * string) :=
    [({["Content-Type" := ["multipart/alternative; charset=latin1"]]}, "raw")] in
  mime_ParseMediaType "multipart/mixed; boundary=b"
    = Ok ("multipart/mixed", {["boundary" := "b"]})
  ∧ ({["boundary" := "b"]} : gmap string string) !! "boundary" = Some "b"
  ∧ multipart_NewReader three_parts_body "b" = (segs1 ++ (h, "skipped") :: segs2, io_EOF)
  ∧ default [] (h !! "Content-Type") = []
  ∧ parseBody "multipart/mixed; boundary=b" three_parts_body ∅
    = (nextParts parseBody (segs1 ++ segs2) [], endOfParts io_EOF)
  ∧ nextParts parseBody (segs1 ++ segs2) []
    = nextParts parseBody segs1 [] ++ nextParts parseBody segs2 [].
Proof.
  intros segs1 h segs2.
  split; [compute_done|]. split; [compute_done|].
  split; [compute_done|]. split; [compute_done|].
  apply (parseBody_skips_part_without_content_type
           "multipart/mixed; boundary=b" three_parts_body ∅
           "multipart/mixed" {["boundary" := "b"]} "b" segs1 h "skipped" segs2 io_EOF);
    compute_done.
Defined.

Lemma parseBody_failed_part_becomes_leaf_witness :
  let segs1 : list (Header * string) :=
    [({["Content-Type" := ["text/plain"]]}, "one");
     ({["X-Note" := ["no content type"]]}, "skipped")] in
  let ctv := "multipart/alternative; charset=latin1" in
  let h : Header := {["Content-Type" := [ctv]]} in
  mime_ParseMediaType "multipart/mixed; boundary=b"
    = Ok ("multipart/mixed", {["boundary" := "b"]})
  ∧ multipart_NewReader three_parts_body "b" = (segs1 ++ (h, "raw") :: [], io_EOF)
  ∧ parseBody ctv "raw" h = ([], Some (errors_New "multipart specified without boundary"))
  ∧ regexp_FindStringSubmatch "(?is)charset=(.*)" ctv = ["charset=latin1"; "latin1"]
  ∧ parseBody "multipart/mixed; boundary=b" three_parts_body ∅
    = (nextParts parseBody segs1 [] ++
       [Part.mk ctv
          match regexp_FindStringSubmatch "(?is)charset=(.*)" ctv with
          | _ :: charset :: _ => charset
          | _ => "UTF-8"
          end "raw" h] ++
       nextParts parseBody [] [],
       endOfParts io_EOF).
Proof.
  intros segs1 ctv h.
  split; [compute_done|]. split; [compute_done|].
  split; [compute_done|]. split; [compute_done|].
  apply (parseBody_failed_part_becomes_leaf
           "multipart/mixed; boundary=b" three_parts_body ∅
           "multipart/mixed" {["boundary" := "b"]} "b" segs1 h "raw" [] io_EOF ctv []
           [] (errors_New "multipart specified without boundary"));
    compute_done.
Defined.



Lemma parseBody_nesting_uncapped_witness :
  let leaf : Part :=
    Part.mk "text/plain" "utf-8" "leaf" {["Content-Type" := ["text/plain; charset=utf-8"]]} in
  nested 2 (nest 2).1 (nest 2).2 ∅ leaf
  ∧ parseBody (nest 2).1 (nest 2).2 ∅ = ([leaf], None)
  ∧ ∀ fuel, String.length (nest 2).2 < fuel →
      parseBody_rec fuel (nest 2).1 (nest 2).2 ∅ = ([leaf], None).
Proof.
  intros leaf.
  assert (nested 2 (nest 2).1 (nest 2).2 ∅ leaf) as Hnested.
  { apply (nested_wrap 1 (nest 2).1 (nest 2).2 ∅ "multipart/mixed" {["boundary" := "b1"]}
             "b1" {["Content-Type" := [(nest 1).1]]} (nest 1).2 io_EOF (nest 1).1 []);
      [compute_done..|].
    apply (nested_wrap 0 (nest 1).1 (nest 1).2 _ "multipart/mixed" {["boundary" := "b0"]}
             "b0" {["Content-Type" := [(nest 0).1]]} (nest 0).2 io_EOF (nest 0).1 []);
      [compute_done..|].
    assert (Part.mk "text/plain" (default "" (({["charset" := "utf-8"]} : gmap string string)
                                                !! "charset")) "leaf"
              (mergeHeaders ∅ {["Content-Type" := [(nest 0).1]]}) = leaf) as <-
      by compute_done.
    apply (nested_leaf (nest 0).1 (nest 0).2 _ "text/plain" {["charset" := "utf-8"]} ∅ "leaf");
      compute_done. }
  split; [exact Hnested|].
  exact (parseBody_nesting_uncapped 2 (nest 2).1 (nest 2).2 ∅ leaf Hnested).
Defined.

Lemma handleMessage_body_failure_is_recorded_witness :
  let r := RawMessage.mk [mkRawHeader "Subject" "hi"; mkRawHeader "Content-Type" "text plain"]
             "hello" in
  let e := errors_New "mime: expected slash after first token" in
  Message.ContentType (handleHeaders r).1 ≠ ""
  ∧ parseBody (Message.ContentType (handleHeaders r).1) (RawMessage.Body r) ∅ = ([], Some e)
  ∧ handleMessage r =
      Returned (Message.withText (RawMessage.Body r) (handleHeaders r).1,
                (handleHeaders r).2 ++ [errors_New ("body parser: " +:+ Error e)]).
Proof.
  intros r e. split; [compute_done|]. split; [compute_done|].
  apply (handleMessage_body_failure_is_recorded r [] e); compute_done.
Defined.

Lemma Parse_multipart_without_boundary_is_recorded_witness :
  let data := lines ["Content-Type: multipart/related; type=x"; ""; "raw body"] in
  let r := RawMessage.mk [mkRawHeader "Content-Type" "multipart/related; type=x"] "raw body" in
  let ps : gmap string string := {["type" := "x"]} in
  let recorded :=
    (handleHeaders r).2 ++ [errors_New "body parser: multipart specified without boundary"] in
  ParseRaw data = Ok r
  ∧ Message.ContentType (handleHeaders r).1 ≠ ""
  ∧ mime_ParseMediaType (Message.ContentType (handleHeaders r).1) = Ok ("multipart/related", ps)
  ∧ ps !! "boundary" = None
  ∧ strings_HasPrefix "multipart/related" "multipart" = true
  ∧ parseBody (Message.ContentType (handleHeaders r).1) (RawMessage.Body r) ∅
    = ([], Some (errors_New "multipart specified without boundary"))
  ∧ handleMessage r
    = Returned (Message.withText (RawMessage.Body r) (handleHeaders r).1, recorded)
  ∧ Parse data =
      Returned (Message.withHeaders (extractHeaders (RawMessage.Body r) data)
                  (Message.withBody (RawMessage.Body r)
                     (Message.withText (RawMessage.Body r) (handleHeaders r).1)),
                recorded).
Proof.
  intros data r ps recorded. split; [compute_done|]. split; [compute_done|].
  split; [compute_done|]. split; [compute_done|]. split; [compute_done|].
  apply (Parse_multipart_without_boundary_is_recorded data r "multipart/related" ps);
    compute_done.
Defined.


Lemma parseAddressList_runs_witness :
  let s := "Doe, John <john@x.com>, jane@y.com" in
  let ts := ["Doe"; ","; "John"; "<"; "john"; "@"; "x.com"; ">"; ","; "jane"; "@"; "y.com"] in
  tokenize (match decodeRFC2047 s with Ok dd => dd | Err _ => s end) = Ok ts
  ∧ Forall (λ piece, "," ∉ piece) (split ts ",")
  ∧ ∃ vsb,
      Runs (split ts ",") vsb
      ∧ parseAddressList s = parseRuns vsb []
      ∧ ∀ al, parseAddressList s = (al, None) →
              Forall2 (λ run a, parseAddress run = Ok a) vsb al.
Proof.
  intros s ts. split; [compute_done|].
  apply (proj1 parseAddressList_runs refcollab s ts). compute_done.
Defined.

(** ** Instances of the further properties *)

Lemma parseAddressList_keeps_tokens_witness :
  let s := "a@x.com, b@y.com," in
  let ts := ["a"; "@"; "x.com"; ","; "b"; "@"; "y.com"; ","] in
  tokenize (match decodeRFC2047 s with Ok dd => dd | Err _ => s end) = Ok ts
  ∧ ∃ vsb,
      parseAddressList s = parseRuns vsb []
      ∧ joinWith "," vsb ++ (if bool_decide (last ts = Some ",") then [","] else []) = ts.
Proof.
  intros s ts.
  assert (tokenize (match decodeRFC2047 s with Ok dd => dd | Err _ => s end) = Ok ts) as Hts
    by compute_done.
  split; [exact Hts|]. exact (parseAddressList_keeps_tokens s ts Hts).
Defined.

Lemma parseAddressList_stops_at_first_failure_witness :
  let s := "a@x.com, b@, c@z.com" in
  let ts := ["a"; "@"; "x.com"; ","; "b"; "@"; ","; "c"; "@"; "z.com"] in
  let al := [Some (Ref.MailboxAddress (Ref.mkMailbox "" "a" "x.com"))] in
  let e := errors_New "invalid address" in
  tokenize (match decodeRFC2047 s with Ok dd => dd | Err _ => s end) = Ok ts
  ∧ parseAddressList s = (al, Some e)
  ∧ ∃ vsb1 run vsb2,
      Runs (split ts ",") (vsb1 ++ run :: vsb2)
      ∧ Forall2 (λ run a, parseAddress run = Ok a) vsb1 al
      ∧ parseAddress run = Err e.
Proof.
  intros s ts al e.
  assert (tokenize (match decodeRFC2047 s with Ok dd => dd | Err _ => s end) = Ok ts) as Hts
    by compute_done.
  assert (parseAddressList s = (al, Some e)) as Hal by compute_done.
  split; [exact Hts|]. split; [exact Hal|].
  exact (parseAddressList_stops_at_first_failure s ts al e Hts Hal).
Defined.

Lemma parseAddressList_piecewise_witness :
  let s := "a@x.com, b@y.com" in
  let ts := ["a"; "@"; "x.com"; ","; "b"; "@"; "y.com"] in
  tokenize (match decodeRFC2047 s with Ok dd => dd | Err _ => s end) = Ok ts
  ∧ Forall (λ piece, hasAt piece = true) (split ts ",")
  ∧ parseAddressList s = parseRuns (split ts ",") [].
Proof.
  intros s ts.
  assert (tokenize (match decodeRFC2047 s with Ok dd => dd | Err _ => s end) = Ok ts) as Hts
    by compute_done.
  assert (Forall (λ piece, hasAt piece = true) (split ts ",")) as Hall by compute_done.
  split; [exact Hts|]. split; [exact Hall|].
  exact (parseAddressList_piecewise s ts Hts Hall).
Defined.

Lemma parseBody_multipart_ignores_inherited_witness :
  let ct := "multipart/mixed; boundary=b" in
  let ps : gmap string string := {["boundary" := "b"]} in
  let ph' : Header := {["X-Tag" := ["inherited"]]} in
  mime_ParseMediaType ct = Ok ("multipart/mixed", ps)
  ∧ ps !! "boundary" = Some "b"
  ∧ parseBody ct two_plain_body ∅ = parseBody ct two_plain_body ph'.
Proof.
  intros ct ps ph'.
  assert (mime_ParseMediaType ct = Ok ("multipart/mixed", ps)) as Hct by compute_done.
  assert (ps !! "boundary" = Some "b") as Hb by compute_done.
  split; [exact Hct|]. split; [exact Hb|].
  exact (parseBody_multipart_ignores_inherited ct two_plain_body ∅ ph' "multipart/mixed" ps "b"
           Hct Hb).
Defined.

Lemma parseBody_parts_typed_by_own_header_witness :
  let ct := "multipart/mixed; boundary=b" in
  let ps : gmap string string := {["boundary" := "b"]} in
  mime_ParseMediaType ct = Ok ("multipart/mixed", ps)
  ∧ ps !! "boundary" = Some "b"
  ∧ Forall typedByOwnHeader (parseBody ct three_parts_body ∅).1.
Proof.
  intros ct ps.
  assert (mime_ParseMediaType ct = Ok ("multipart/mixed", ps)) as Hct by compute_done.
  assert (ps !! "boundary" = Some "b") as Hb by compute_done.
  split; [exact Hct|]. split; [exact Hb|].
  exact (parseBody_parts_typed_by_own_header ct three_parts_body ∅ "multipart/mixed" ps "b"
           Hct Hb).
Defined.


Lemma handleHeaders_MessageID_untrimmed_witness :
  let r := RawMessage.mk [mkRawHeader "Message-ID" " <id@host> "] "" in
  last (valuesOf "message-id" r) = Some (String " " ("<id@host>" +:+ String " " ""))
  ∧ Message.MessageID (handleHeaders r).1 = String " " ("<id@host>" +:+ String " " "").
Proof.
  intros r.
  assert (last (valuesOf "message-id" r) = Some (String " " ("<id@host>" +:+ String " " "")))
    as Hlast by compute_done.
  split; [exact Hlast|].
  apply (handleHeaders_MessageID_untrimmed r " " "<id@host>" " " Hlast); discriminate.
Defined.

Lemma handleMessage_without_content_type_witness :
  let r := RawMessage.mk [mkRawHeader "Subject" "hi"; mkRawHeader "To" "?"] "hello" in
  default "" (last (valuesOf "content-type" r)) = ""
  ∧ ∃ msg,
      handleMessage r = Returned (msg, (handleHeaders r).2)
      ∧ Message.Text msg = RawMessage.Body r
      ∧ Message.Parts msg = [] ∧ Message.Html msg = "" ∧ Message.Attachments msg = [].
Proof.
  intros r.
  assert (default "" (last (valuesOf "content-type" r)) = "") as Hct by compute_done.
  split; [exact Hct|]. exact (handleMessage_without_content_type r Hct).
Defined.

(** [handleMessage] returns for the message [text_html_file]. *)
Lemma text_html_file_returns : (λ _, ()) <$> handleMessage text_html_file = Returned ().
Proof. compute_done. Qed.

Lemma handleMessage_keeps_parts_witness :
  let r := text_html_file in
  let parts := (parseBody "multipart/mixed; boundary=b" text_html_file_body ∅).1 in
  decomposed r parts
  ∧ ∃ m errs,
      handleMessage r = Returned (m, errs)
      ∧ map Part.Type_ (Message.Parts m) = map Part.Type_ parts
      ∧ map Part.Charset (Message.Parts m) = map Part.Charset parts
      ∧ map Part.Headers (Message.Parts m) = map Part.Headers parts
      ∧ ∀ i p, parts !! i = Some p → isText p = false → Message.Parts m !! i = Some p.
Proof.
  intros r parts.
  assert (decomposed r parts) as Hd by (split; compute_done).
  split; [exact Hd|].
  pose proof text_html_file_returns as Hret. fold r in Hret.
  destruct (handleMessage r) as [[m errs]|msg] eqn:Hm; [|discriminate Hret].
  exists m, errs. split; [reflexivity|].
  exact (handleMessage_keeps_parts r parts m errs Hd Hm).
Defined.

Lemma handleMessage_text_part_data_witness :
  let r := text_html_file in
  let parts := (parseBody "multipart/mixed; boundary=b" text_html_file_body ∅).1 in
  let p : Part :=
    Part.mk "text/html" "utf-8" "<p>hello</p>"
      {["Content-Type" := ["text/html; charset=utf-8"]]} in
  decomposed r parts
  ∧ parts !! 1 = Some p
  ∧ isText p = true
  ∧ decodeContentTransferEncoding
      (Message.ParsedHeaders (handleHeaders r).1) (Part.Headers p) (Part.Data p)
    = Returned ("<p>hello</p>", None)
  ∧ ∃ m errs,
      handleMessage r = Returned (m, errs)
      ∧ Message.Parts m !! 1 = Some match UTF8 (Part.Charset p) "<p>hello</p>" with
                                  | Ok data => Part.withData data p
                                  | Err _ => p
                                  end.
Proof.
  intros r parts p.
  assert (decomposed r parts) as Hd by (split; compute_done).
  assert (parts !! 1 = Some p) as Hp by compute_done.
  assert (isText p = true) as Htext by compute_done.
  assert (decodeContentTransferEncoding
            (Message.ParsedHeaders (handleHeaders r).1) (Part.Headers p) (Part.Data p)
          = Returned ("<p>hello</p>", None)) as Hdec by compute_done.
  split; [exact Hd|]. split; [exact Hp|]. split; [exact Htext|]. split; [exact Hdec|].
  pose proof text_html_file_returns as Hret. fold r in Hret.
  destruct (handleMessage r) as [[m errs]|msg] eqn:Hm; [|discriminate Hret].
  exists m, errs. split; [reflexivity|].
  exact (handleMessage_text_part_data r parts m errs 1 p "<p>hello</p>" None Hd Hm Hp Htext Hdec).
Defined.

Lemma handleMessage_first_part_witness :
  let r := text_html_file in
  let parts := (parseBody "multipart/mixed; boundary=b" text_html_file_body ∅).1 in
  decomposed r parts
  ∧ ∃ m errs,
      handleMessage r = Returned (m, errs)
      ∧ Part.Type_ <$> head parts = Some (Message.ContentType m)
      ∧ Part.Data <$> head (Message.Parts m) = Some (Message.Text m)
      ∧ ∀ p, head parts = Some p → isText p = false → Message.Text m = Part.Data p.
Proof.
  intros r parts.
  assert (decomposed r parts) as Hd by (split; compute_done).
  split; [exact Hd|].
  pose proof text_html_file_returns as Hret. fold r in Hret.
  destruct (handleMessage r) as [[m errs]|msg] eqn:Hm; [|discriminate Hret].
  exists m, errs. split; [reflexivity|].
  exact (handleMessage_first_part r parts m errs Hd Hm).
Defined.

Lemma handleMessage_keeps_header_errors_witness :
  let r := text_html_file in
  (handleHeaders r).2 = [errors_New "header parser: invalid address: no @"]
  ∧ ∃ m errs,
      handleMessage r = Returned (m, errs) ∧ (handleHeaders r).2 `prefix_of` errs.
Proof.
  intros r. split; [compute_done|].
  pose proof text_html_file_returns as Hret. fold r in Hret.
  destruct (handleMessage r) as [[m errs]|msg] eqn:Hm; [|discriminate Hret].
  exists m, errs. split; [reflexivity|].
  exact (handleMessage_keeps_header_errors r m errs Hm).
Defined.

Lemma handleMessage_attachments_witness :
  let r := text_html_file in
  let parts := (parseBody "multipart/mixed; boundary=b" text_html_file_body ∅).1 in
  decomposed r parts
  ∧ length (filter (λ p, isAttachment p = true) parts) = 1
  ∧ ∃ m errs,
      handleMessage r = Returned (m, errs)
      ∧ (length (Message.Attachments m)
         ≤ length (filter (λ p, isAttachment p = true) parts))%nat.
Proof.
  intros r parts.
  assert (decomposed r parts) as Hd by (split; compute_done).
  split; [exact Hd|]. split; [compute_done|].
  pose proof text_html_file_returns as Hret. fold r in Hret.
  destruct (handleMessage r) as [[m errs]|msg] eqn:Hm; [|discriminate Hret].
  exists m, errs. split; [reflexivity|].
  exact (handleMessage_attachments r parts m errs Hd Hm).
Defined.

Lemma handleMessage_Html_is_last_html_part_witness :
  let r := text_html_file in
  let parts := (parseBody "multipart/mixed; boundary=b" text_html_file_body ∅).1 in
  decomposed r parts
  ∧ Part.Data <$> last (filter (λ p, isHtml p = true) parts) = Some "<p>hello</p>"
  ∧ ∃ m errs,
      handleMessage r = Returned (m, errs)
      ∧ match last (filter (λ p, isHtml p = true) parts) with
        | Some p =>
            normalizedText (Message.ParsedHeaders (handleHeaders r).1) p
            = Returned (Message.Html m)
        | None => Message.Html m = ""
        end.
Proof.
  intros r parts.
  assert (decomposed r parts) as Hd by (split; compute_done).
  split; [exact Hd|]. split; [compute_done|].
  pose proof text_html_file_returns as Hret. fold r in Hret.
  destruct (handleMessage r) as [[m errs]|msg] eqn:Hm; [|discriminate Hret].
  exists m, errs. split; [reflexivity|].
  exact (handleMessage_Html_is_last_html_part r parts m errs Hd Hm).
Defined.

Lemma handleMessage_returns_witness :
  let r := text_html_file in
  let parts := (parseBody "multipart/mixed; boundary=b" text_html_file_body ∅).1 in
  decomposed r parts
  ∧ Forall (λ p, valued (Part.Headers p)) parts
  ∧ parts ≠ []
  ∧ ((∃ m errs, handleMessage r = Returned (m, errs)) ↔ parts ≠ []).
Proof.
  intros r parts.
  assert (decomposed r parts) as Hd by (split; compute_done).
  assert (Forall (λ p, valued (Part.Headers p)) parts) as Hval by compute_done.
  split; [exact Hd|]. split; [exact Hval|]. split; [compute_done|].
  exact (handleMessage_returns r parts Hd Hval).
Defined.

Lemma handleMessage_keeps_header_fields_witness :
  let r := text_html_file in
  ∃ m errs,
    handleMessage r = Returned (m, errs)
    ∧ let msg := (handleHeaders r).1 in
      Message.ParsedHeaders m = Message.ParsedHeaders msg
      ∧ Message.MessageID m = Message.MessageID msg
      ∧ Message.Date m = Message.Date msg
      ∧ Message.Sender m = Message.Sender msg
      ∧ Message.From m = Message.From msg
      ∧ Message.ReplyTo m = Message.ReplyTo msg
      ∧ Message.To m = Message.To msg
      ∧ Message.Cc m = Message.Cc msg
      ∧ Message.Bcc m = Message.Bcc msg
      ∧ Message.Subject m = Message.Subject msg
      ∧ Message.Comments m = Message.Comments msg
      ∧ Message.Keywords m = Message.Keywords msg
      ∧ Message.InReply m = Message.InReply msg
      ∧ Message.References m = Message.References msg.
Proof.
  intros r.
  pose proof text_html_file_returns as Hret. fold r in Hret.
  destruct (handleMessage r) as [[m errs]|msg] eqn:Hm; [|discriminate Hret].
  exists m, errs. split; [reflexivity|].
  exact (handleMessage_keeps_header_fields r m errs Hm).
Defined.

Lemma extractHeaders_CRLF_witness :
  let body := "hello" in
  let data := ("Subject: h" +:+ String "i" "") +:+ CRLF +:+ CRLF +:+ body in
  isLineBreak "i" = false
  ∧ bytes_Index data body = Some (String.length data - String.length body)
  ∧ extractHeaders body data = "Subject: hi".
Proof.
  intros body data.
  assert (bytes_Index data body = Some (String.length data - String.length body)) as Hi
    by compute_done.
  split; [reflexivity|]. split; [exact Hi|].
  exact (extractHeaders_CRLF "Subject: h" "i" body eq_refl (or_intror Hi)).
Defined.

Lemma extractHeaders_LF_witness :
  let LF := String "010" "" in
  let body := "hello" in
  let data := ("Subject: h" +:+ String "i" "") +:+ String "010" (String "010" "") +:+ body in
  isLineBreak "i" = false
  ∧ bytes_Index data body = Some (String.length data - String.length body)
  ∧ extractHeaders body data = "Subject: hi" +:+ LF.
Proof.
  intros LF body data.
  assert (bytes_Index data body = Some (String.length data - String.length body)) as Hi
    by compute_done.
  split; [reflexivity|]. split; [exact Hi|].
  exact (extractHeaders_LF "Subject: h" "i" body eq_refl (or_intror Hi)).
Defined.

Lemma extractHeaders_cuts_first_occurrence_witness :
  let pre := "Subject: " in
  let body := "hi" in
  let post := CRLF +:+ CRLF +:+ "h" in
  let data := pre +:+ body +:+ post +:+ String "i" "" in
  isLineBreak "i" = false
  ∧ data = "Subject: hi" +:+ CRLF +:+ CRLF +:+ body
  ∧ bytes_Index data body = Some (String.length pre)
  ∧ extractHeaders body data = "Subject: " +:+ CRLF +:+ CRLF +:+ "hi".
Proof.
  intros pre body post data.
  assert (bytes_Index data body = Some (String.length pre)) as Hi by compute_done.
  split; [reflexivity|]. split; [reflexivity|]. split; [exact Hi|].
  exact (extractHeaders_cuts_first_occurrence pre body post "i" eq_refl Hi).
Defined.

Lemma Parse_without_content_type_witness :
  let data := lines ["Subject: hi"; "To: ?"; ""; "hello"] in
  let raw := RawMessage.mk [mkRawHeader "Subject" "hi"; mkRawHeader "To" "?"] "hello" in
  ParseRaw data = Ok raw
  ∧ default "" (last (valuesOf "content-type" raw)) = ""
  ∧ ∃ msg,
      Parse data = Returned (msg, (handleHeaders raw).2)
      ∧ Message.Text msg = RawMessage.Body raw
      ∧ Message.Body msg = RawMessage.Body raw
      ∧ Message.Headers msg = extractHeaders (RawMessage.Body raw) data
      ∧ Message.Parts msg = [].
Proof.
  intros data raw.
  assert (ParseRaw data = Ok raw) as Hraw by compute_done.
  assert (default "" (last (valuesOf "content-type" raw)) = "") as Hct by compute_done.
  split; [exact Hraw|]. split; [exact Hct|].
  exact (Parse_without_content_type data raw Hraw Hct).
Defined.
